(** * Hermes: transactional outbox runtime

    A shallow embedding of the parts of chassisjs/hermes that the
    specification talks about:

    - [Wire]      the Insert tuple decoder of the log backend
                  (subscribeToReplicationSlot/processInsertMessage.ts);
    - [Polling]   the auxiliary polling consumer
                  (asyncOutbox/AsyncOutboxConsumer.ts);
    - [Store]     a database with transactions, as both backends use one;
    - [Mongo]     the document backend consumer (hermes-mongodb createOutboxConsumer);
    - [Pg]        the log backend consumer (outboxConsumer/OutboxConsumer.ts);
    - [Lifecycle] [start] and the stop handle of the log backend consumer;
    - [Pipelined] the pipelined publishing queue.

    JavaScript exceptions are values of [js_error] carried by [result];
    promises are run to completion, and the answers of the outside world
    (the user's publish callback, the database driver) are read from
    explicit scripts, so that every definition computes. *)

From Stdlib Require Import ZArith List Bool Lia String Ascii Sorted Permutation.
From Stdlib.Strings Require Import Byte.
Import ListNotations.
Local Open Scope Z_scope.

(** ** Exceptions and results *)

Inductive js_error : Type :=
| RangeError
| SyntaxError
| AssertionError (message : string)
| ReferenceError (name : string)
| PostgresError (routine code : string)
| HermesConsumerAlreadyTakenError (consumerName partitionKey : string)
| JsError (message : string).

Inductive result (A : Type) : Type :=
| Ok (a : A)
| Throw (e : js_error).

Arguments Ok {A} a.
Arguments Throw {A} e.

Definition bind {A B : Type} (r : result A) (k : A -> result B) : result B :=
  match r with
  | Ok a => k a
  | Throw e => Throw e
  end.

Notation "x <- r ;; k" := (bind r (fun x => k))
  (at level 61, r at next level, right associativity).
Notation "' p <- r ;; k" := (bind r (fun p => k))
  (at level 61, p pattern, r at next level, right associativity).

(** Modelled from the spec: utils/assert.js of @chassisjs/hermes is not
    under src/. A failed assertion is an error that ends what was running:
    [assert(condition, message)] throws an [AssertionError] carrying the
    message when the condition is false, as [assertDate] (whose test is
    under src/) does. *)
Definition assert (cond : bool) (message : string) : result unit :=
  if cond then Ok tt else Throw (AssertionError message).

(** ** Values of the decoder *)

(** A JavaScript string, as its sequence of code points. *)
Definition text : Type := list Z.

(** [VNumber z] is the Number nearest to the integer [z] (exact whenever
    [|z| <= 2^53]); [VBigInt z] is the arbitrary-precision integer [z]. *)
Inductive jsvalue : Type :=
| VNumber (z : Z)
| VNaN
| VBigInt (z : Z)
| VString (s : text).

(** ** Node.js Buffer *)

Module Buffer.

Definition t : Type := list byte.

Definition u8 (b : byte) : Z := Z.of_N (Byte.to_N b).

Definition length (buffer : t) : Z := Z.of_nat (List.length buffer).

(** The [n] bytes at [offset], when they all lie inside the buffer. *)
Definition bytesAt (buffer : t) (offset : Z) (n : nat) : option (list byte) :=
  if (0 <=? offset) && (offset + Z.of_nat n <=? length buffer)
  then Some (firstn n (skipn (Z.to_nat offset) buffer))
  else None.

Definition bigEndian (bytes : list byte) : Z :=
  fold_left (fun acc b => acc * 256 + u8 b) bytes 0.

Definition readUIntBE (n : nat) (buffer : t) (offset : Z) : result Z :=
  match bytesAt buffer offset n with
  | Some bytes => Ok (bigEndian bytes)
  | None => Throw RangeError
  end.

Definition readUInt8 := readUIntBE 1.
Definition readUInt16BE := readUIntBE 2.
Definition readUInt32BE := readUIntBE 4.
Definition readBigUInt64BE := readUIntBE 8.

Definition signed (bits : Z) (v : Z) : Z :=
  if v <? 2 ^ (bits - 1) then v else v - 2 ^ bits.

Definition readInt8 (buffer : t) (offset : Z) : result Z :=
  v <- readUIntBE 1 buffer offset ;; Ok (signed 8 v).

Definition readInt16BE (buffer : t) (offset : Z) : result Z :=
  v <- readUIntBE 2 buffer offset ;; Ok (signed 16 v).

(** [subarray] never throws: negative indexes count from the end and both
    ends are clamped to the buffer. *)
Definition clampIndex (len i : Z) : Z :=
  if i <? 0 then Z.max (len + i) 0 else Z.min i len.

Definition subarray (buffer : t) (start end_ : Z) : t :=
  let s := clampIndex (length buffer) start in
  let e := clampIndex (length buffer) end_ in
  firstn (Z.to_nat (e - s)) (skipn (Z.to_nat s) buffer).

(** [buffer.toString('utf-8')]: the UTF-8 decoder, with U+FFFD in place of
    every maximal ill-formed subsequence. *)
Inductive pending : Type :=
| Pending (remaining : nat) (codePoint lower upper : Z).

Definition utf8Lead (b : Z) : list Z * option pending :=
  if b <=? 0x7F then ([b], None)
  else if (0xC2 <=? b) && (b <=? 0xDF)
  then ([], Some (Pending 0 (Z.land b 0x1F) 0x80 0xBF))
  else if (0xE0 <=? b) && (b <=? 0xEF)
  then ([], Some (Pending 1 (Z.land b 0xF)
                    (if b =? 0xE0 then 0xA0 else 0x80)
                    (if b =? 0xED then 0x9F else 0xBF)))
  else if (0xF0 <=? b) && (b <=? 0xF4)
  then ([], Some (Pending 2 (Z.land b 0x7)
                    (if b =? 0xF0 then 0x90 else 0x80)
                    (if b =? 0xF4 then 0x8F else 0xBF)))
  else ([0xFFFD], None).

Fixpoint utf8From (st : option pending) (bytes : list byte) : text :=
  match bytes with
  | [] => match st with None => [] | Some _ => [0xFFFD] end
  | b :: rest =>
      match st with
      | None =>
          let '(out, st') := utf8Lead (u8 b) in out ++ utf8From st' rest
      | Some (Pending n cp lo hi) =>
          if (lo <=? u8 b) && (u8 b <=? hi)
          then
            let cp' := Z.lor (Z.shiftl cp 6) (Z.land (u8 b) 0x3F) in
            match n with
            | O => cp' :: utf8From None rest
            | S n' => utf8From (Some (Pending n' cp' 0x80 0xBF)) rest
            end
          else
            let '(out, st') := utf8Lead (u8 b) in
            0xFFFD :: out ++ utf8From st' rest
      end
  end.

Definition toString (buffer : t) : text := utf8From None buffer.

End Buffer.

(** ** [parseInt(_, 10)], [BigInt(_)] and [String.fromCharCode] *)

Module Js.

Definition isWhiteSpace (c : Z) : bool :=
  existsb (Z.eqb c)
    [0x09; 0x0A; 0x0B; 0x0C; 0x0D; 0x20; 0xA0; 0x1680; 0x2028; 0x2029;
     0x202F; 0x205F; 0x3000; 0xFEFF]
  || ((0x2000 <=? c) && (c <=? 0x200A)).

Fixpoint trimStart (s : text) : text :=
  match s with
  | c :: rest => if isWhiteSpace c then trimStart rest else s
  | [] => []
  end.

Definition trim (s : text) : text := rev (trimStart (rev (trimStart s))).

Definition digitValue (radix c : Z) : option Z :=
  let v :=
    if (48 <=? c) && (c <=? 57) then c - 48
    else if (97 <=? c) && (c <=? 122) then c - 87
    else if (65 <=? c) && (c <=? 90) then c - 55
    else radix in
  if v <? radix then Some v else None.

(** The longest prefix of digits, as digit values. *)
Fixpoint takeDigits (radix : Z) (s : text) : list Z :=
  match s with
  | c :: rest =>
      match digitValue radix c with
      | Some v => v :: takeDigits radix rest
      | None => []
      end
  | [] => []
  end.

(** Every character as a digit, or nothing. *)
Fixpoint allDigits (radix : Z) (s : text) : option (list Z) :=
  match s with
  | c :: rest =>
      match digitValue radix c, allDigits radix rest with
      | Some v, Some vs => Some (v :: vs)
      | _, _ => None
      end
  | [] => Some []
  end.

Definition valueOf (radix : Z) (digits : list Z) : Z :=
  fold_left (fun acc d => acc * radix + d) digits 0.

Definition splitSign (s : text) : Z * text :=
  match s with
  | c :: rest =>
      if c =? 45 then (-1, rest)
      else if c =? 43 then (1, rest)
      else (1, s)
  | [] => (1, [])
  end.

Definition parseInt10 (s : text) : jsvalue :=
  let '(sign, body) := splitSign (trimStart s) in
  match takeDigits 10 body with
  | [] => VNaN
  | digits => VNumber (sign * valueOf 10 digits)
  end.

Definition nonDecimalRadix (s : text) : option (Z * text) :=
  match s with
  | z :: p :: rest =>
      if negb (z =? 48) then None
      else if (p =? 120) || (p =? 88) then Some (16, rest)
      else if (p =? 111) || (p =? 79) then Some (8, rest)
      else if (p =? 98) || (p =? 66) then Some (2, rest)
      else None
  | _ => None
  end.

Definition literalValue (radix sign : Z) (body : text) : result jsvalue :=
  match allDigits radix body with
  | Some (d :: ds) => Ok (VBigInt (sign * valueOf radix (d :: ds)))
  | _ => Throw SyntaxError
  end.

Definition toBigInt (s : text) : result jsvalue :=
  match trim s with
  | [] => Ok (VBigInt 0)
  | t =>
      match nonDecimalRadix t with
      | Some (radix, body) => literalValue radix 1 body
      | None => let '(sign, body) := splitSign t in literalValue 10 sign body
      end
  end.

Definition fromCharCode (code : Z) : Z := code mod 65536.

End Js.

(** ** The Insert tuple decoder (processInsertMessage.ts) *)

Module Wire.

(** Modelled from the spec: subscribeToReplicationSlot/types.js is not
    under src/. [Bytes] gives the widths of the wire fields: a one-byte
    tag, a 16-bit column count and a 32-bit length. *)
Module Bytes.
Definition Int8 : Z := 1.
Definition Int16 : Z := 2.
Definition Int32 : Z := 4.
End Bytes.

Inductive TopLevelType : Type := XLogData | PrimaryKeepalive.
Inductive MessageType : Type := Begin | Relation | Insert | Commit.

(** Modelled from the spec: common/offset.js is not under src/. An offset
    is a mutable cursor into the buffer; every [add] moves the cursor and
    returns its new value, which is what lets the readers find the 32-bit
    length right after the one-byte tag and the value right after the
    length. The cursor is threaded explicitly: each function below
    returns the moved cursor, which is also the value the call yields. *)
Module Offset.
Definition t : Type := Z.
Definition offset (start : Z) : t := start.
Definition value (pos : t) : Z := pos.
Definition add (pos : t) (n : Z) : t := pos + n.
Definition addInt8 (pos : t) : t := add pos Bytes.Int8.
Definition addInt16 (pos : t) : t := add pos Bytes.Int16.
Definition addInt32 (pos : t) : t := add pos Bytes.Int32.
End Offset.

(** A reader returns the decoded value and the moved cursor. *)
Definition reader : Type := Buffer.t -> Offset.t -> result (jsvalue * Offset.t).

Definition isText (columnType : Z) : bool := columnType =? 116.

Definition readUInt : reader := fun buffer pos =>
  tag <- Buffer.readInt8 buffer (Offset.value pos) ;;
  let columnType := Js.fromCharCode tag in
  let pos := Offset.addInt8 pos in
  columnLength <- Buffer.readUInt32BE buffer pos ;;
  _ <- assert (isText columnType) "readUInt.columnType" ;;
  _ <- assert (existsb (Z.eqb columnLength) [1; 2; 4; 8]) "readUInt.columnLength" ;;
  let pos := Offset.addInt32 pos in
  value <- (if columnLength =? 8
            then v <- Buffer.readBigUInt64BE buffer pos ;; Ok (VBigInt v)
            else v <- Buffer.readUIntBE (Z.to_nat columnLength) buffer pos ;;
                 Ok (VNumber v)) ;;
  Ok (value, Offset.add pos columnLength).

Definition readBigInt : reader := fun buffer pos =>
  tag <- Buffer.readInt8 buffer (Offset.value pos) ;;
  let columnType := Js.fromCharCode tag in
  let pos := Offset.addInt8 pos in
  columnLength <- Buffer.readUInt32BE buffer pos ;;
  _ <- assert (isText columnType) "readUInt.columnType" ;;
  let pos := Offset.addInt32 pos in
  let strValue :=
    Buffer.toString (Buffer.subarray buffer pos (Offset.value pos + columnLength)) in
  value <- (if columnLength >? 8
            then Js.toBigInt strValue
            else Ok (Js.parseInt10 strValue)) ;;
  Ok (value, Offset.add pos columnLength).

Definition readText : reader := fun buffer pos =>
  tag <- Buffer.readInt8 buffer (Offset.value pos) ;;
  let columnType := Js.fromCharCode tag in
  let pos := Offset.addInt8 pos in
  columnLength <- Buffer.readUInt32BE buffer pos ;;
  _ <- assert (isText columnType) "readText.columnType" ;;
  let pos := Offset.addInt32 pos in
  let pos' := Offset.add pos columnLength in
  let value := Buffer.subarray buffer pos pos' in
  Ok (VString (Buffer.toString value), pos').

Definition readJsonb : reader := fun buffer pos =>
  tag <- Buffer.readInt8 buffer (Offset.value pos) ;;
  let columnType := Js.fromCharCode tag in
  let pos := Offset.addInt8 pos in
  columnLength <- Buffer.readUInt32BE buffer pos ;;
  _ <- assert (isText columnType) "readText.readJsonb" ;;
  let pos := Offset.addInt32 pos in
  let pos' := Offset.add pos columnLength in
  let value := Buffer.subarray buffer pos pos' in
  Ok (VString (Buffer.toString value), pos').

Definition columnReaders (columnType : string) : option reader :=
  if String.eqb columnType "uint" then Some readUInt
  else if String.eqb columnType "bigint" then Some readBigInt
  else if String.eqb columnType "text" then Some readText
  else if String.eqb columnType "jsonb" then Some readJsonb
  else None.

Definition ColumnConfig : Type := list (string * string).

(** The decoded row: the columns in the order of the configuration. *)
Definition InsertResult : Type := list (string * jsvalue).

Record OnDataProcessingResult : Type := {
  topLevelType : TopLevelType;
  messageType : MessageType;
  result_ : InsertResult
}.

(** [readers.forEach(({ reader }) => assert(reader, ...))] *)
Fixpoint readersOf (columnConfig : ColumnConfig) : result (list (string * reader)) :=
  match columnConfig with
  | [] => Ok []
  | (columnName, columnType) :: rest =>
      match columnReaders columnType with
      | Some r => rs <- readersOf rest ;; Ok ((columnName, r) :: rs)
      | None => Throw (AssertionError "Unknown column type")
      end
  end.

Fixpoint readTuple (readers : list (string * reader)) (pos : Offset.t)
  (tuplesBuffer : Buffer.t) (acc : InsertResult) : result InsertResult :=
  match readers with
  | [] => Ok acc
  | (columnName, r) :: rest =>
      '(value, pos') <- r tuplesBuffer pos ;;
      readTuple rest pos' tuplesBuffer (acc ++ [(columnName, value)])
  end.

Definition processInsertMessage (columnConfig : ColumnConfig) (data : Buffer.t)
  : result OnDataProcessingResult :=
  readers <- readersOf columnConfig ;;
  relationId <- Buffer.readUInt32BE data Bytes.Int8 ;;
  newMessageId <- Buffer.readInt8 data (Bytes.Int8 + Bytes.Int32) ;;
  let TUPLE_START_BYTE := Bytes.Int8 + Bytes.Int32 + Bytes.Int8 in
  let tuplesBuffer := Buffer.subarray data TUPLE_START_BYTE (Buffer.length data) in
  columnsCount <- Buffer.readInt16BE tuplesBuffer 0 ;;
  let pos := Offset.offset Bytes.Int16 in
  row <- readTuple readers pos tuplesBuffer [] ;;
  Ok {| topLevelType := XLogData; messageType := Insert; result_ := row |}.

(** The column configuration the log backend consumer starts with. *)
Definition outboxColumns : ColumnConfig :=
  [("position", "bigint"); ("messageId", "text"); ("messageType", "text");
   ("partitionKey", "text"); ("payload", "jsonb")]%string.

(** Helpers of the statements: the big-endian 32-bit length field and the
    text of a decimal integer. *)
Definition byteOf (z : Z) : byte :=
  match Byte.of_N (Z.to_N (z mod 256)) with
  | Some b => b
  | None => x00
  end.

Definition be32 (n : Z) : list byte :=
  [byteOf (n / 16777216); byteOf (n / 65536); byteOf (n / 256); byteOf n].

Definition decimalBytes (negative : bool) (digits : list Z) : list byte :=
  (if negative then [byteOf 45] else []) ++ map (fun d => byteOf (48 + d)) digits.

Definition decimalValue (negative : bool) (digits : list Z) : Z :=
  (if negative then -1 else 1) * Js.valueOf 10 digits.

Definition column (tag : byte) (value : list byte) : list byte :=
  tag :: be32 (Buffer.length value) ++ value.

End Wire.

(** ** The user's publish callback *)

(** A callback either returns normally or throws. What it does may depend
    on everything it was given before, so it is a function of the calls
    made so far and of the argument it receives now. *)
Inductive outcome : Type := Returns | Throws.

Definition returned (o : outcome) : bool :=
  match o with Returns => true | Throws => false end.

(** ** The auxiliary polling consumer (asyncOutbox/AsyncOutboxConsumer.ts) *)

Module Polling.

(** A row of the "asyncOutbox" table. [failsCount] is nullable (the code
    reads it through [COALESCE] and [||]); a fresh row has the column
    defaults: not delivered, no failure, no [sentAt]. *)
Record Row : Type := {
  position : Z;
  consumerName : string;
  messageId : string;
  messageType : string;
  data : string;
  delivered : bool;
  failsCount : option Z;
  addedAt : Z;
  sentAt : option Z
}.

(** HermesAsyncMessageEnvelope *)
Record Envelope : Type := {
  env_position : Z;
  env_messageId : string;
  env_messageType : string;
  env_message : string;
  redeliveryCount : Z
}.

Record Call : Type := { envelope : Envelope; answer : outcome }.

(** [x || 0] on a nullable number. *)
Definition orZero (x : option Z) : Z :=
  match x with
  | Some n => if n =? 0 then 0 else n
  | None => 0
  end.

(** [COALESCE(x, 0)] *)
Definition coalesce (x : option Z) : Z :=
  match x with Some n => n | None => 0 end.

(** The consumer object, the event loop's interval timers, the table and
    the log of what the outside world has seen. [running] is the
    continuation of an unfinished [_processUndeliveredMessages]: the
    rows of its snapshot that are still to be handled. *)
Record State : Type := {
  _started : bool;
  _isProcessing : bool;
  _intervalId : option nat;
  running : option (list Row);
  intervals : list (nat * Z);
  nextTimer : nat;
  table : list Row;
  nextPosition : Z;
  now : Z;
  statements : nat;
  calls : list Call
}.

Definition init : State := {|
  _started := false; _isProcessing := false; _intervalId := None;
  running := None; intervals := []; nextTimer := 0%nat;
  table := []; nextPosition := 1; now := 0; statements := 0%nat; calls := []
|}.

(** ORDER BY "addedAt" ASC *)
Fixpoint insertByAddedAt (r : Row) (rows : list Row) : list Row :=
  match rows with
  | [] => [r]
  | x :: rest =>
      if addedAt r <=? addedAt x then r :: rows else x :: insertByAddedAt r rest
  end.

Definition orderByAddedAt (rows : list Row) : list Row :=
  fold_right insertByAddedAt [] rows.

(** SELECT * FROM "asyncOutbox" WHERE delivered = false
    ORDER BY "addedAt" ASC LIMIT 10 *)
Definition selectPending (rows : list Row) : list Row :=
  firstn 10 (orderByAddedAt (filter (fun r => negb (delivered r)) rows)).

(** UPDATE "asyncOutbox" SET "delivered" = true, "sentAt" = NOW()
    WHERE "position" = p *)
Definition setDelivered (p t : Z) (r : Row) : Row :=
  if position r =? p
  then {| position := position r; consumerName := consumerName r;
          messageId := messageId r; messageType := messageType r;
          data := data r; delivered := true;
          failsCount := failsCount r; addedAt := addedAt r;
          sentAt := Some t |}
  else r.

Definition markDelivered (p t : Z) (rows : list Row) : list Row :=
  map (setDelivered p t) rows.

(** UPDATE "asyncOutbox" SET "failsCount" = COALESCE("failsCount", 0) + 1
    WHERE "position" = p *)
Definition setFailed (p : Z) (r : Row) : Row :=
  if position r =? p
  then {| position := position r; consumerName := consumerName r;
          messageId := messageId r; messageType := messageType r;
          data := data r; delivered := delivered r;
          failsCount := Some (coalesce (failsCount r) + 1);
          addedAt := addedAt r; sentAt := sentAt r |}
  else r.

Definition countFailure (p : Z) (rows : list Row) : list Row :=
  map (setFailed p) rows.

Definition envelopeOf (message : Row) : Envelope := {|
  env_position := position message;
  env_messageId := messageId message;
  env_messageType := messageType message;
  env_message := data message;
  redeliveryCount := orZero (failsCount message)
|}.

Definition withProcessing (b : bool) (cont : option (list Row)) (st : State) : State :=
  {| _started := _started st; _isProcessing := b; _intervalId := _intervalId st;
     running := cont; intervals := intervals st; nextTimer := nextTimer st;
     table := table st; nextPosition := nextPosition st; now := now st;
     statements := statements st; calls := calls st |}.

Definition withTable (rows : list Row) (st : State) : State :=
  {| _started := _started st; _isProcessing := _isProcessing st;
     _intervalId := _intervalId st; running := running st;
     intervals := intervals st; nextTimer := nextTimer st;
     table := rows; nextPosition := nextPosition st; now := now st;
     statements := statements st; calls := calls st |}.

Definition issued (st : State) : State :=
  {| _started := _started st; _isProcessing := _isProcessing st;
     _intervalId := _intervalId st; running := running st;
     intervals := intervals st; nextTimer := nextTimer st;
     table := table st; nextPosition := nextPosition st; now := now st;
     statements := S (statements st); calls := calls st |}.

Definition called (c : Call) (st : State) : State :=
  {| _started := _started st; _isProcessing := _isProcessing st;
     _intervalId := _intervalId st; running := running st;
     intervals := intervals st; nextTimer := nextTimer st;
     table := table st; nextPosition := nextPosition st; now := now st;
     statements := statements st; calls := calls st ++ [c] |}.

Section Consumer.

(** [_params.publish], the database (does the n-th statement sent to it
    succeed?) and [_params.checkInterval] in milliseconds. *)
Variable publish : list Call -> Envelope -> outcome.
Variable sqlOk : nat -> bool.
Variable checkInterval : option Z.

(** [_params.checkInterval || Duration.ofSeconds(15)] *)
Definition _checkInterval : Z :=
  match checkInterval with Some ms => ms | None => 15 * 1000 end.

(** One statement sent to the database: it either applies [change] to
    the table or throws. *)
Definition execute (change : list Row -> list Row) (st : State) : bool * State :=
  if sqlOk (statements st)
  then (true, issued (withTable (change (table st)) st))
  else (false, issued st).

(** The [catch] block of the loop body: count the failure. The result
    says whether the loop goes on: a throw here leaves the loop. *)
Definition onCatch (message : Row) (st : State) : bool * State :=
  execute (countFailure (position message)) st.

(** One turn of [for (const message of pendingMessages)]. *)
Definition handleMessage (message : Row) (st : State) : bool * State :=
  let env := envelopeOf message in
  let o := publish (calls st) env in
  let st := called {| envelope := env; answer := o |} st in
  match o with
  | Returns =>
      let '(ok, st') := execute (markDelivered (position message) (now st)) st in
      if ok then (true, st') else onCatch message st'
  | Throws => onCatch message st
  end.

(** [_processUndeliveredMessages] up to its first await on a message. *)
Definition _processUndeliveredMessages (st : State) : State :=
  if _isProcessing st then st
  else
    let st := withProcessing true None st in
    if sqlOk (statements st)
    then
      match selectPending (table st) with
      | [] => withProcessing false None (issued st)
      | pendingMessages => withProcessing true (Some pendingMessages) (issued st)
      end
    else withProcessing false None (issued st).

(** The running tick handles its next message; after the last one, or
    when the [catch] block itself throws, [finally] clears the flag. *)
Definition resume (st : State) : State :=
  match running st with
  | Some (message :: rest) =>
      let '(goOn, st') := handleMessage message st in
      match goOn, rest with
      | true, _ :: _ => withProcessing true (Some rest) st'
      | _, _ => withProcessing false None st'
      end
  | _ => st
  end.

(** The callback given to [setInterval]: it swallows what the tick
    throws. *)
Definition onInterval (id : nat) (st : State) : State :=
  if existsb (fun t => Nat.eqb (fst t) id) (intervals st)
  then _processUndeliveredMessages st
  else st.

Definition _startPolling (st : State) : State :=
  {| _started := _started st; _isProcessing := _isProcessing st;
     _intervalId := Some (nextTimer st); running := running st;
     intervals := intervals st ++ [(nextTimer st, _checkInterval)];
     nextTimer := S (nextTimer st);
     table := table st; nextPosition := nextPosition st; now := now st;
     statements := statements st; calls := calls st |}.

Definition setStarted (b : bool) (st : State) : State :=
  {| _started := b; _isProcessing := _isProcessing st;
     _intervalId := _intervalId st; running := running st;
     intervals := intervals st; nextTimer := nextTimer st;
     table := table st; nextPosition := nextPosition st; now := now st;
     statements := statements st; calls := calls st |}.

(** [start()]: the state after the call; the Stop handle it returns is
    [stopHandle] below. *)
Definition start (st : State) : result State :=
  if _started st then Throw (JsError "AsyncOutboxConsumer is already started")
  else Ok (_startPolling (setStarted true st)).

(** [clearInterval] *)
Definition clearInterval (id : nat) (timers : list (nat * Z)) : list (nat * Z) :=
  filter (fun t => negb (Nat.eqb (fst t) id)) timers.

(** The [stop()] method. *)
Definition stop (st : State) : State :=
  let st :=
    match _intervalId st with
    | Some id =>
        {| _started := _started st; _isProcessing := _isProcessing st;
           _intervalId := None; running := running st;
           intervals := clearInterval id (intervals st);
           nextTimer := nextTimer st;
           table := table st; nextPosition := nextPosition st; now := now st;
           statements := statements st; calls := calls st |}
    | None => st
    end in
  setStarted false st.

(** The names bound in the module AsyncOutboxConsumer.ts: its value
    imports and its own declarations. A method of the class is a
    property of the instance, not a binding. *)
Definition moduleBindings : list string :=
  ["Duration"; "AsyncOutboxConsumer"; "createAsyncOutboxConsumer"]%string.

(** The handle returned by [start()] is
    [() => Promise.resolve(stop())]: the identifier [stop] is looked up
    in the scopes around the arrow function (the body of [start] and
    the module, neither of which binds it) and then on the global
    object. Unbound, the call throws a [ReferenceError]; bound on the
    global object, the call runs that function, which is not the
    consumer's method and leaves the consumer alone. *)
Definition stopHandle (globals : list string) (st : State) : result unit * State :=
  if existsb (String.eqb "stop") (moduleBindings ++ globals)
  then (Ok tt, st)
  else (Throw (ReferenceError "stop"), st).

(** A committed [send] of one message: the row gets the next position
    and the column defaults. *)
Definition send (name mId mType payload : string) (st : State) : State :=
  {| _started := _started st; _isProcessing := _isProcessing st;
     _intervalId := _intervalId st; running := running st;
     intervals := intervals st; nextTimer := nextTimer st;
     table := table st ++
              [{| position := nextPosition st; consumerName := name;
                  messageId := mId; messageType := mType; data := payload;
                  delivered := false; failsCount := Some 0;
                  addedAt := now st; sentAt := None |}];
     nextPosition := nextPosition st + 1; now := now st;
     statements := statements st; calls := calls st |}.

Definition tickClock (t : Z) (st : State) : State :=
  {| _started := _started st; _isProcessing := _isProcessing st;
     _intervalId := _intervalId st; running := running st;
     intervals := intervals st; nextTimer := nextTimer st;
     table := table st; nextPosition := nextPosition st; now := t;
     statements := statements st; calls := calls st |}.

(** What can happen to a consumer: an interval timer fires, the await
    the running tick is parked on completes, time passes, a message is
    sent. *)
Inductive event : Type :=
| TimerFires (id : nat)
| Resume
| Clock (t : Z)
| Send (name mId mType payload : string).

Definition step (st : State) (e : event) : State :=
  match e with
  | TimerFires id => onInterval id st
  | Resume => resume st
  | Clock t => tickClock t st
  | Send name mId mType payload => send name mId mType payload st
  end.

Definition run (events : list event) (st : State) : State :=
  fold_left step events st.

End Consumer.

(** The global object of Node.js has no [stop]. *)
Definition nodeGlobals : list string :=
  ["globalThis"; "process"; "console"; "Buffer"; "Promise";
   "setInterval"; "clearInterval"; "setTimeout"; "clearTimeout";
   "setImmediate"; "clearImmediate"; "queueMicrotask"; "structuredClone";
   "fetch"; "URL"; "AbortController"]%string.

(** The number of failures of the message at position [p]. *)
Definition failures (p : Z) (log : list Call) : Z :=
  Z.of_nat (List.length
    (filter (fun c => (env_position (envelope c) =? p) && negb (returned (answer c))) log)).

End Polling.

(** ** A database with transactions *)

(** What both storage engines give the outbox: a table of committed rows,
    writes that stay pending inside a transaction until it commits, and a
    handle that is either the plain connection (every statement commits by
    itself) or a transaction. [business] stands for the application's own
    tables. Each statement sent to the database either succeeds or throws,
    as [sqlOk] says of its number; a statement that fails inside a
    transaction aborts the transaction. *)
Module Store.

Inductive Sql : Type :=
| Connection
| Transaction (id : nat).

(** ['savepoint' in sql]: only a transaction handle has savepoints. *)
Definition hasSavepoint (sql : Sql) : bool :=
  match sql with Transaction _ => true | Connection => false end.

Section Rows.

Variable Row : Type.

Record Tx : Type := {
  pendingRows : list Row;
  pendingBusiness : list Z;
  aborted : bool
}.

Record t : Type := {
  rows : list Row;
  business : list Z;
  open : list (nat * Tx);
  nextTx : nat;
  sequence : Z;
  statements : nat
}.

Variable sqlOk : nat -> bool.

Fixpoint lookup (id : nat) (txs : list (nat * Tx)) : option Tx :=
  match txs with
  | [] => None
  | (i, tx) :: rest => if Nat.eqb i id then Some tx else lookup id rest
  end.

Fixpoint replace (id : nat) (tx : Tx) (txs : list (nat * Tx)) : list (nat * Tx) :=
  match txs with
  | [] => []
  | (i, old) :: rest =>
      if Nat.eqb i id then (i, tx) :: rest else (i, old) :: replace id tx rest
  end.

Fixpoint remove (id : nat) (txs : list (nat * Tx)) : list (nat * Tx) :=
  match txs with
  | [] => []
  | (i, old) :: rest =>
      if Nat.eqb i id then rest else (i, old) :: remove id rest
  end.

Definition failed : js_error := PostgresError "exec_simple_query" "XX000".
Definition inFailedTransaction : js_error :=
  PostgresError "exec_simple_query" "25P02".

(** One write statement on a handle: [newRows] makes the outbox rows it
    adds from the next value of the sequence, [newBusiness] is what it
    adds to the application's tables. The sequence values the rows
    take are used up even if the transaction is rolled back later. *)
Definition execute (sql : Sql) (newRows : Z -> list Row) (newBusiness : list Z)
  (db : t) : result unit * t :=
  let ok := sqlOk (statements db) in
  let n := S (statements db) in
  match sql with
  | Connection =>
      if ok
      then (Ok tt,
            {| rows := rows db ++ newRows (sequence db);
               business := business db ++ newBusiness;
               open := open db; nextTx := nextTx db;
               sequence := sequence db + Z.of_nat (List.length (newRows (sequence db)));
               statements := n |})
      else (Throw failed,
            {| rows := rows db; business := business db; open := open db;
               nextTx := nextTx db; sequence := sequence db; statements := n |})
  | Transaction id =>
      match lookup id (open db) with
      | None =>
          (Throw failed,
           {| rows := rows db; business := business db; open := open db;
              nextTx := nextTx db; sequence := sequence db; statements := n |})
      | Some tx =>
          if aborted tx
          then (Throw inFailedTransaction,
                {| rows := rows db; business := business db; open := open db;
                   nextTx := nextTx db; sequence := sequence db; statements := n |})
          else if ok
          then (Ok tt,
                {| rows := rows db; business := business db;
                   open := replace id
                             {| pendingRows := pendingRows tx ++ newRows (sequence db);
                                pendingBusiness := pendingBusiness tx ++ newBusiness;
                                aborted := false |} (open db);
                   nextTx := nextTx db;
                   sequence := sequence db + Z.of_nat (List.length (newRows (sequence db)));
                   statements := n |})
          else (Throw failed,
                {| rows := rows db; business := business db;
                   open := replace id
                             {| pendingRows := pendingRows tx;
                                pendingBusiness := pendingBusiness tx;
                                aborted := true |} (open db);
                   nextTx := nextTx db; sequence := sequence db; statements := n |})
      end
  end.

(** BEGIN *)
Definition begin (db : t) : nat * t :=
  (nextTx db,
   {| rows := rows db; business := business db;
      open := (nextTx db, {| pendingRows := []; pendingBusiness := [];
                             aborted := false |}) :: open db;
      nextTx := S (nextTx db); sequence := sequence db;
      statements := statements db |}).

(** ROLLBACK *)
Definition rollback (id : nat) (db : t) : t :=
  {| rows := rows db; business := business db; open := remove id (open db);
     nextTx := nextTx db; sequence := sequence db; statements := statements db |}.

(** COMMIT: the pending writes become committed, all together; the
    commit of an aborted transaction is a rollback. *)
Definition commit (id : nat) (db : t) : result unit * t :=
  match lookup id (open db) with
  | None => (Throw failed, db)
  | Some tx =>
      if aborted tx then (Throw inFailedTransaction, rollback id db)
      else (Ok tt,
            {| rows := rows db ++ pendingRows tx;
               business := business db ++ pendingBusiness tx;
               open := remove id (open db); nextTx := nextTx db;
               sequence := sequence db; statements := statements db |})
  end.

(** [sql.begin(fn)] and [session.withTransaction(fn)]: commit when the
    function returns, roll back and rethrow when it throws. *)
Definition withTransaction (fn : Sql -> t -> result unit * t) (db : t)
  : result unit * t :=
  let '(id, db) := begin db in
  match fn (Transaction id) db with
  | (Ok _, db') => commit id db'
  | (Throw e, db') => (Throw e, rollback id db')
  end.

(** What the host's code does inside its transaction: writes to its
    own tables, enqueues messages, or throws. *)
Inductive hostOp (Msg : Type) : Type :=
| Write (v : Z)
| Enqueue (m : Msg)
| Raise.

Arguments Write {Msg} v.
Arguments Enqueue {Msg} m.
Arguments Raise {Msg}.

Fixpoint hostCode {Msg : Type} (enqueue : Sql -> Msg -> t -> result unit * t)
  (ops : list (hostOp Msg)) (sql : Sql) (db : t) : result unit * t :=
  match ops with
  | [] => (Ok tt, db)
  | op :: rest =>
      let r :=
        match op with
        | Write v => execute sql (fun _ => []) [v] db
        | Enqueue m => enqueue sql m db
        | Raise => (Throw (JsError "host"), db)
        end in
      match r with
      | (Ok _, db') => hostCode enqueue rest sql db'
      | (Throw e, db') => (Throw e, db')
      end
  end.



(** Rows made one after the other take consecutive sequence values. *)
Fixpoint assign (seq : Z) (makers : list (Z -> Row)) : list Row :=
  match makers with
  | [] => []
  | make :: rest => make seq :: assign (seq + 1) rest
  end.

(** One insert statement per row, in order, stopping at the first one
    that throws. *)
Fixpoint insertEach (sql : Sql) (makers : list (Z -> Row)) (db : t)
  : result unit * t :=
  match makers with
  | [] => (Ok tt, db)
  | make :: rest =>
      match execute sql (fun seq => [make seq]) [] db with
      | (Ok _, db') => insertEach sql rest db'
      | (Throw e, db') => (Throw e, db')
      end
  end.

End Rows.

Arguments assign {Row} seq makers.
Arguments rows {Row} _.
Arguments business {Row} _.
Arguments open {Row} _.
Arguments nextTx {Row} _.
Arguments sequence {Row} _.
Arguments statements {Row} _.
Arguments pendingRows {Row} _.
Arguments pendingBusiness {Row} _.
Arguments aborted {Row} _.
Arguments Write {Msg} v.
Arguments Enqueue {Msg} m.
Arguments Raise {Msg}.

End Store.

(** ** The document backend consumer (hermes-mongodb, createOutboxConsumer) *)

Module Mongo.

(** An event is the JSON text the application published. *)
Definition Event : Type := string.

(** OutboxMessageModel: a document of the outbox collection. *)
Record OutboxMessageModel : Type := {
  _id : Z;
  partitionKey : string;
  occurredAt : Z;
  data : Event;
  sentAt : option Z
}.

Inductive OperationType : Type := insert | update | replace | delete | invalidate.

Definition isInsert (op : OperationType) : bool :=
  match op with insert => true | _ => false end.

(** What [watchCursor.next()] yields; [resumeToken] is the [_id] of the
    change document. *)
Record ChangeStreamDocument : Type := {
  resumeToken : Z;
  operationType : OperationType;
  fullDocument : OutboxMessageModel;
  documentKey : Z
}.

(** Modelled from the spec: getConsumer.js is not under src/. The
    consumer-state document of a partition holds the last acknowledged
    position (the id of the last processed message and the resume token
    of its change event); [consumer.update] persists both and stamps the
    document. *)
Record Consumer : Type := {
  lastProcessedId : option Z;
  consumerResumeToken : option Z;
  consumerPartitionKey : string;
  lastUpdatedAt : option Z;
  createdAt : Z
}.

Definition consumerUpdate (id token t : Z) (c : Consumer) : Consumer :=
  {| lastProcessedId := Some id; consumerResumeToken := Some token;
     consumerPartitionKey := consumerPartitionKey c;
     lastUpdatedAt := Some t; createdAt := createdAt c |}.

(** What the consumer does that the outside can see, oldest first. *)
Inductive action : Type :=
| Published (event : Event) (o : outcome)
| FailedPublish
| Waited
| Stamped (id t : Z)
| Acked (id token : Z)
| DbError
| Closed.

Record State : Type := {
  messages : list OutboxMessageModel;
  consumer : Consumer;
  closed : bool;
  trace : list action
}.

Definition log (a : action) (st : State) : State :=
  {| messages := messages st; consumer := consumer st; closed := closed st;
     trace := trace st ++ [a] |}.

(** [watchCursor.close()] *)
Definition close (st : State) : State :=
  {| messages := messages st; consumer := consumer st; closed := true;
     trace := trace st ++ [Closed] |}.

(** [updateOne({ _id }, { $set: { sentAt } })]: the first document with
    that id. *)
Fixpoint setSentAt (id t : Z) (docs : list OutboxMessageModel) : list OutboxMessageModel :=
  match docs with
  | [] => []
  | d :: rest =>
      if _id d =? id
      then {| _id := _id d; partitionKey := partitionKey d;
              occurredAt := occurredAt d; data := data d; sentAt := Some t |} :: rest
      else d :: setSentAt id t rest
  end.

(** What the loop finds when it asks the cursor: the stop promise won
    the race, [hasNext()] said no, the cursor threw, or a change. *)
Inductive cursorStep : Type :=
| StopRequested
| NoNext
| CursorThrows
| Change (doc : ChangeStreamDocument).

Inductive sent : Type :=
| Sent (published : bool)
| Escaped
| Unfinished.

Inductive status : Type := Continue | Break | OutOfFuel.

Section Consumer.

(** The outside world, each a function of what has happened so far:
    the [publish] and [onFailedPublish] callbacks, whether [stop] has
    closed the cursor by the end of a wait, whether the next database
    write succeeds, and the clock ([None]: [now()] is not a date and
    [assertDate] throws). *)
Variable publish : list action -> Event -> outcome.
Variable onFailedPublish : list action -> outcome.
Variable stopped : list action -> bool.
Variable dbOk : list action -> bool.
Variable now : list action -> option Z.
Variable saveTimestamps : bool.

(** [await setTimeout(waitAfterFailedPublishMs)] *)
Definition wait (st : State) : State :=
  let st := log Waited st in
  if stopped (trace st) && negb (closed st) then close st else st.

(** [_waitUntilEventIsSent]: [fuel] bounds the number of attempts the
    model follows. *)
Fixpoint _waitUntilEventIsSent (fuel : nat) (event : Event) (st : State)
  : sent * State :=
  if closed st then (Sent false, st)
  else
    match fuel with
    | O => (Unfinished, st)
    | S fuel' =>
        let o := publish (trace st) event in
        let st := log (Published event o) st in
        match o with
        | Returns => (Sent true, st)
        | Throws =>
            let sink := onFailedPublish (trace st) in
            let st := log FailedPublish st in
            match sink with
            | Throws => (Escaped, st)
            | Returns => _waitUntilEventIsSent fuel' event (wait st)
            end
        end
    end.

(** The [catch] of the loop body. *)
Definition onError (st : State) : State := wait (log DbError st).

(** [consumer.update(documentKey._id, resumeToken)] *)
Definition acknowledge (doc : ChangeStreamDocument) (st : State) : State :=
  if dbOk (trace st)
  then
    let t := match now (trace st) with Some t => t | None => 0 end in
    log (Acked (documentKey doc) (resumeToken doc))
      {| messages := messages st;
         consumer := consumerUpdate (documentKey doc) (resumeToken doc) t (consumer st);
         closed := closed st; trace := trace st |}
  else onError st.

(** The body of the loop once an insert has been read. *)
Definition deliver (fuel : nat) (doc : ChangeStreamDocument) (st : State)
  : status * State :=
  let message := fullDocument doc in
  match _waitUntilEventIsSent fuel (data message) st with
  | (Unfinished, st) => (OutOfFuel, st)
  | (Escaped, st) => (Continue, onError st)
  | (Sent false, st) => (Continue, st)
  | (Sent true, st) =>
      if saveTimestamps
      then
        match now (trace st) with
        | None => (Continue, onError st)
        | Some t =>
            if dbOk (trace st)
            then
              let st :=
                log (Stamped (_id message) t)
                  {| messages := setSentAt (_id message) t (messages st);
                     consumer := consumer st; closed := closed st;
                     trace := trace st |} in
              (Continue, acknowledge doc st)
            else (Continue, onError st)
        end
      else (Continue, acknowledge doc st)
  end.

(** One turn of [while (!watchCursor.closed)]. *)
Definition iteration (fuel : nat) (step : cursorStep) (st : State)
  : status * State :=
  match step with
  | StopRequested => (Break, close st)
  | NoNext => (Continue, st)
  | CursorThrows => (Continue, onError st)
  | Change doc =>
      if isInsert (operationType doc) then deliver fuel doc st
      else (Continue, st)
  end.

(** [watch]: the loop over what the cursor yields. When the script is
    over nothing more arrives and the loop stays parked on
    [hasNext()]. *)
Fixpoint watch (fuel : nat) (cursor : list cursorStep) (st : State)
  : status * State :=
  if closed st then (Break, st)
  else
    match cursor with
    | [] => (Continue, st)
    | step :: rest =>
        match iteration fuel step st with
        | (Continue, st') => watch fuel rest st'
        | stopped => stopped
        end
    end.

(** The [stop] handle returned by [start]. *)
Definition stop (st : State) : State :=
  if negb (closed st) then close st else st.

Fixpoint stopTimes (n : nat) (st : State) : State :=
  match n with
  | O => st
  | S n' => stopTimes n' (stop st)
  end.

End Consumer.

(** *** Enqueueing *)

Definition Db : Type := Store.t OutboxMessageModel.

(** The document [addMessage] inserts: [new ObjectId()] is the next
    value of the store's sequence, [new Date()] is [t]. *)
Definition documentOf (pKey : string) (t : Z) (event : Event) (id : Z)
  : OutboxMessageModel :=
  {| _id := id; partitionKey := pKey; occurredAt := t; data := event;
     sentAt := None |}.

Section Publish.

Variable sqlOk : nat -> bool.
Variable partitionKey_ : string.
Variable today : Z.

(** [addMessage(event, partitionKey, session)]: [insertOne] for one
    event ([inl]), [insertMany] for an array ([inr]); outside a
    transaction the documents of an [insertMany] are written one by
    one. *)
Definition makersOf (event : Event + list Event) : list (Z -> OutboxMessageModel) :=
  match event with
  | inl e => [documentOf partitionKey_ today e]
  | inr es => map (documentOf partitionKey_ today) es
  end.

Definition addMessage (event : Event + list Event) (session : Store.Sql) (db : Db)
  : result unit * Db :=
  Store.insertEach OutboxMessageModel sqlOk session (makersOf event) db.

(** The host's code given to [publish] as a callback or to
    [withScope]: inside it, the scoped [publish] adds the message on
    the transaction's session. *)
Definition scoped (ops : list (Store.hostOp (Event + list Event)))
  (session : Store.Sql) (db : Db) : result unit * Db :=
  Store.hostCode OutboxMessageModel sqlOk (fun sql m => addMessage m sql) ops session db.

(** [publish(event, sessionOrCallback)]: with a session or with
    nothing the message is added on it; with a callback, the callback
    and then the insert run in one transaction of their own. *)
Definition publish (event : Event + list Event)
  (sessionOrCallback : option (nat + list (Store.hostOp (Event + list Event))))
  (db : Db) : result unit * Db :=
  match sessionOrCallback with
  | None => addMessage event Store.Connection db
  | Some (inl session) => addMessage event (Store.Transaction session) db
  | Some (inr callback) =>
      Store.withTransaction OutboxMessageModel
        (fun session db =>
           match scoped callback session db with
           | (Ok _, db') => addMessage event session db'
           | (Throw e, db') => (Throw e, db')
           end)
        db
  end.


End Publish.


Definition start (pKey : string) (t : Z) (docs : list OutboxMessageModel) : State :=
  {| messages := docs;
     consumer := {| lastProcessedId := None; consumerResumeToken := None;
                    consumerPartitionKey := pKey; lastUpdatedAt := None;
                    createdAt := t |};
     closed := false; trace := [] |}.




End Mongo.

(** ** The log backend consumer (outboxConsumer/OutboxConsumer.ts) *)

Module Pg.

(** A position in the write-ahead log: a 64-bit number, written HI/LO in
    hexadecimal. *)
Definition Lsn : Type := Z.

(** InsertResult: a decoded row of the outbox table. *)
Record InsertResult : Type := {
  position : Z;
  messageId : string;
  messageType : string;
  partitionKey : string;
  payload : string
}.

Record Transaction : Type := {
  transactionId : Z;
  lsn : Lsn;
  timestamp : Z;
  results : list InsertResult
}.

(** HermesMessageEnvelope; [message] is the payload's JSON. *)
Record HermesMessageEnvelope : Type := {
  env_position : Z;
  env_messageId : string;
  env_messageType : string;
  env_lsn : Lsn;
  redeliveryCount : Z;
  message : string
}.

(** Modelled from the spec: outboxConsumer/OutboxConsumerState.js is not
    under src/. The consumer-state row of a (consumer name, partition
    key) holds the last acknowledged position and the redelivery counter
    of the oldest unacknowledged transaction; [reportFailedDelivery]
    increments the counter and persists it, [moveFurther] persists the
    new position and resets the counter to 0. The object writes through:
    its fields are the row. *)
Record OutboxConsumerState : Type := {
  lastProcessedLsn : Lsn;
  stateRedeliveryCount : Z
}.

Definition reportFailedDelivery (failed : Lsn) (s : OutboxConsumerState)
  : OutboxConsumerState :=
  {| lastProcessedLsn := lastProcessedLsn s;
     stateRedeliveryCount := stateRedeliveryCount s + 1 |}.

Definition moveFurther (next : Lsn) (s : OutboxConsumerState) : OutboxConsumerState :=
  {| lastProcessedLsn := next; stateRedeliveryCount := 0 |}.

(** What the consumer does that the outside can see, oldest first. *)
Inductive action : Type :=
| Published (envelopes : list HermesMessageEnvelope) (o : outcome)
| ReportedFailure (failed : Lsn) (count : Z)
| Waited
| StreamAcknowledged (at_ : Lsn)
| MovedFurther (next : Lsn).

(** The consumer object while it runs: [_state] and the trace. *)
Record Consumer : Type := {
  _state : option OutboxConsumerState;
  trace : list action
}.

Definition log (a : action) (c : Consumer) : Consumer :=
  {| _state := _state c; trace := trace c ++ [a] |}.

(** [x || 0] on a number. *)
Definition orZero (x : option Z) : Z :=
  match x with
  | Some n => if n =? 0 then 0 else n
  | None => 0
  end.

(** MessageToPublish *)
Record MessageToPublish : Type := { transaction : Transaction }.

Section Consumer.

(** [_params.publish] *)
Variable publish : list action -> list HermesMessageEnvelope -> outcome.

Definition envelopesOf (c : Consumer) (tx : Transaction) : list HermesMessageEnvelope :=
  map (fun result =>
         {| env_position := position result;
            env_messageId := messageId result;
            env_messageType := messageType result;
            env_lsn := lsn tx;
            redeliveryCount := orZero (option_map stateRedeliveryCount (_state c));
            message := payload result |})
      (results tx).

(** [onPublish] of [start]. *)
Definition onPublish (m : MessageToPublish) (c : Consumer) : result unit * Consumer :=
  match _state c with
  | None => (Throw (AssertionError ""), c)
  | Some _ =>
      let messages := envelopesOf c (transaction m) in
      let o := publish (trace c) messages in
      let c := log (Published messages o) c in
      match o with
      | Returns => (Ok tt, c)
      | Throws => (Throw (JsError "publish"), c)
      end
  end.

(** [onFailedPublish] of [start]. *)
Definition onFailedPublish (tx : Transaction) (c : Consumer) : result unit * Consumer :=
  match _state c with
  | None => (Throw (AssertionError ""), c)
  | Some s =>
      let s' := reportFailedDelivery (lsn tx) s in
      (Ok tt,
       {| _state := Some s';
          trace := trace c ++ [ReportedFailure (lsn tx) (stateRedeliveryCount s')] |})
  end.

(** The [acknowledge] closure [onInsert] puts in the message: the
    stream's own acknowledgement, then [moveFurther]. *)
Definition acknowledge (tx : Transaction) (c : Consumer) : result unit * Consumer :=
  match _state c with
  | None => (Throw (AssertionError ""), c)
  | Some s =>
      (Ok tt,
       {| _state := Some (moveFurther (lsn tx) s);
          trace := trace c ++ [StreamAcknowledged (lsn tx); MovedFurther (lsn tx)] |})
  end.

(** Modelled from the spec: publishingQueue/createSerializedPublishingQueue.js
    is not under src/. The serialized queue has at most one publish
    call in flight: [run] calls the publish function with the batch;
    when it returns normally the batch is delivered and its
    acknowledge callback runs; when it throws, the failure is
    reported (which increments and persists the redelivery counter),
    the queue waits [waitAfterFailedPublish] and tries the batch
    again. [fuel] bounds the attempts the model follows: [None] is a
    batch still being retried. *)
Fixpoint run (fuel : nat) (m : MessageToPublish) (c : Consumer)
  : option (result unit) * Consumer :=
  match fuel with
  | O => (None, c)
  | S fuel' =>
      match onPublish m c with
      | (Ok _, c1) =>
          let '(r, c2) := acknowledge (transaction m) c1 in (Some r, c2)
      | (Throw _, c1) =>
          match onFailedPublish (transaction m) c1 with
          | (Ok _, c2) => run fuel' m (log Waited c2)
          | (Throw e, c2) => (Some (Throw e), c2)
          end
      end
  end.



End Consumer.

(** *** Enqueueing *)

(** MessageEnvelope, with the message as its JSON text, and the options
    of [queue]. *)
Record MessageEnvelope : Type := {
  envelopeId : string;
  envelopeType : string;
  envelopeMessage : string
}.

Record PublishOptions : Type := {
  tx : option nat;
  optionsPartitionKey : option string
}.

(** The "outbox" table holds [InsertResult]s: what the decoder reads
    back from the log is the row that was inserted. *)
Definition Db : Type := Store.t InsertResult.

(** [x || 'default'] on an optional string: the empty string is falsy. *)
Definition orDefault (x : option string) : string :=
  match x with
  | Some EmptyString | None => "default"
  | Some s => s
  end.

Definition rowOf (m : MessageEnvelope) (pKey : string) (seq : Z) : InsertResult :=
  {| position := seq; messageId := envelopeId m; messageType := envelopeType m;
     partitionKey := pKey; payload := envelopeMessage m |}.

Section Queue.

Variable sqlOk : nat -> bool.

(** INSERT INTO outbox ("messageId", "messageType", "partitionKey", "data")
    VALUES (...) *)
Definition _publishOne (sql : Store.Sql) (m : MessageEnvelope) (pKey : string)
  (db : Db) : result unit * Db :=
  Store.execute InsertResult sqlOk sql (fun seq => [rowOf m pKey seq]) [] db.

(** [for (const m of message) await this._publishOne(sql, m, partitionKey)] *)
Definition publishEach (sql : Store.Sql) (ms : list MessageEnvelope) (pKey : string)
  (db : Db) : result unit * Db :=
  Store.insertEach InsertResult sqlOk sql (map (fun m => rowOf m pKey) ms) db.

(** [queue(message, options)]; [_sql] is the consumer's connection,
    [None] before [start]. A single message is [inl], an array [inr]. *)
Definition queue (_sql : option Store.Sql)
  (message : MessageEnvelope + list MessageEnvelope)
  (options : option PublishOptions) (db : Db) : result unit * Db :=
  match _sql with
  | None => (Throw (AssertionError ""), db)
  | Some connection =>
      let pKey :=
        orDefault (match options with Some o => optionsPartitionKey o | None => None end) in
      let sql :=
        match options with
        | Some {| tx := Some id |} => Store.Transaction id
        | _ => connection
        end in
      match message with
      | inr messages =>
          if Store.hasSavepoint sql
          then publishEach sql messages pKey db
          else Store.withTransaction InsertResult
                 (fun sql => publishEach sql messages pKey) db
      | inl m => _publishOne sql m pKey db
      end
  end.

(** The rows a call of [queue] inserts. *)
Definition makersOf (message : MessageEnvelope + list MessageEnvelope)
  (pKey : option string) : list (Z -> InsertResult) :=
  match message with
  | inl m => [rowOf m (orDefault pKey)]
  | inr ms => map (fun m => rowOf m (orDefault pKey)) ms
  end.


End Queue.


Definition failures (t : list action) : Z :=
  Z.of_nat (List.length
    (filter (fun a => match a with Published _ Throws => true | _ => false end) t)).

End Pg.

(** ** Starting and stopping the log backend consumer *)

Module Lifecycle.

(** Modelled from the spec: utils/swallow.js of @chassisjs/hermes is not
    under src/. The steps of the teardown are best-effort: [swallow] runs
    a function and drops whatever it throws. *)
Definition swallow {S : Type} (fn : S -> result unit * S) (s : S) : S :=
  snd (fn s).

(** [Duration.ofSeconds(seconds).ms] *)
Definition ofSeconds (seconds : Z) : result Z :=
  _ <- assert (0 <=? seconds) "seconds has to be greater or equal 0" ;;
  Ok (seconds * 1000).

(** *** The stop handle *)

(** What the handle asks of the drivers, in the order the calls are
    made. *)
Inductive driverCall : Type :=
| SelectStreaming (slotName : string)
| SelectIdle (slotName : string)
| TerminateBackend (pid : Z)
| EndQueryConnection (timeout : Z)
| EndReplicationConnection (timeout : Z)
| SetTimeout (ms : Z)
| StopAsyncOutbox.

(** The consumer as the handle sees it. *)
Record Handle : Type := {
  slotName : string;
  hasAsyncOutbox : bool;
  _state : option Pg.OutboxConsumerState;
  driverCalls : list driverCall
}.

Section Stop.

(** The drivers: what a call answers after the calls made so far;
    [None] is a rejection, [Some pids] the rows of a select. *)
Variable driver : list driverCall -> driverCall -> option (list Z).

Definition call (c : driverCall) (h : Handle) : option (list Z) * Handle :=
  (driver (driverCalls h) c,
   {| slotName := slotName h; hasAsyncOutbox := hasAsyncOutbox h;
      _state := _state h; driverCalls := driverCalls h ++ [c] |}).

(** [for (const { pid } of processes) await sql.unsafe(pg_terminate_backend)] *)
Fixpoint terminateAll (pids : list Z) (h : Handle) : result unit * Handle :=
  match pids with
  | [] => (Ok tt, h)
  | pid :: rest =>
      match call (TerminateBackend pid) h with
      | (Some _, h') => terminateAll rest h'
      | (None, h') => (Throw Store.failed, h')
      end
  end.

Definition killMatching (select : driverCall) (h : Handle) : result unit * Handle :=
  match call select h with
  | (Some pids, h') => terminateAll pids h'
  | (None, h') => (Throw Store.failed, h')
  end.

(** [killReplicationProcesses(sql, slotName)] *)
Definition killReplicationProcesses (h : Handle) : result unit * Handle :=
  let h := swallow (killMatching (SelectStreaming (slotName h))) h in
  let h := swallow (killMatching (SelectIdle (slotName h))) h in
  (Ok tt, h).

Definition attempt (c : driverCall) (h : Handle) : result unit * Handle :=
  match call c h with
  | (Some _, h') => (Ok tt, h')
  | (None, h') => (Throw Store.failed, h')
  end.

(** The handle [start] returns. The three promises given to
    [Promise.all] are created one after the other, so the calls are
    made in the order of the array; they then settle together. *)
Definition stop (h : Handle) : result unit * Handle :=
  match ofSeconds 1 with
  | Throw e => (Throw e, h)
  | Ok timeout =>
      let h := swallow killReplicationProcesses h in
      let h := swallow (attempt (EndQueryConnection timeout)) h in
      let h := swallow (attempt (EndReplicationConnection timeout)) h in
      let h := snd (call (SetTimeout timeout) h) in
      let h := if hasAsyncOutbox h then swallow (attempt StopAsyncOutbox) h else h in
      (Ok tt,
       {| slotName := slotName h; hasAsyncOutbox := hasAsyncOutbox h;
          _state := None; driverCalls := driverCalls h |})
  end.

(** The handle called [n] times: the results, in order. *)
Fixpoint stopTimes (n : nat) (h : Handle) : list (result unit) * Handle :=
  match n with
  | O => ([], h)
  | S n' =>
      let '(r, h') := stop h in
      let '(rs, h'') := stopTimes n' h' in
      (r :: rs, h'')
  end.

End Stop.

Definition isKill (c : driverCall) : bool :=
  match c with
  | SelectStreaming _ | SelectIdle _ | TerminateBackend _ => true
  | _ => false
  end.

Definition teardowns (calls : list driverCall) : nat :=
  List.length (filter (fun c => match c with EndQueryConnection _ => true | _ => false end)
                 calls).

(** *** Two consumers starting on one slot *)

(** The storage engine: who streams from the slot, whether the slot
    exists, and the consumer-state row of the partition. *)
Record Engine : Type := {
  slotActiveFor : option bool;
  slotExists : bool;
  stateRow : option Pg.OutboxConsumerState
}.

Inductive Phase : Type :=
| Unstarted
| Migrated
| Loaded
| Running
| Failed (e : js_error).

(** One [OutboxConsumer] object: [_sql], [_state], and where its
    [start()] has got to. *)
Record ConsumerObject : Type := {
  _sql : option Store.Sql;
  consumerState : option Pg.OutboxConsumerState;
  phase : Phase
}.

Record World : Type := {
  engine : Engine;
  first : ConsumerObject;
  second : ConsumerObject
}.

Definition fresh : ConsumerObject :=
  {| _sql := None; consumerState := None; phase := Unstarted |}.

Definition initial : World :=
  {| engine := {| slotActiveFor := None; slotExists := false; stateRow := None |};
     first := fresh; second := fresh |}.

Section Start.

Variable consumerName partitionKey : string.

(** Modelled from the spec: outboxConsumer/migrate.js is not under
    src/. The migration is idempotent: it creates the tables, the
    publication and the slot when they do not exist, and "already
    exists" is not an error. *)
Definition migrate (e : Engine) : Engine :=
  {| slotActiveFor := slotActiveFor e; slotExists := true; stateRow := stateRow e |}.

(** Modelled from the spec: [createOrLoad] of OutboxConsumerState.js
    is not under src/. It loads the consumer-state row of the
    (consumer name, partition key), creating it first when there is
    none. *)
Definition createOrLoad (e : Engine) : Engine * Pg.OutboxConsumerState :=
  match stateRow e with
  | Some row => (e, row)
  | None =>
      let row := {| Pg.lastProcessedLsn := 0; Pg.stateRedeliveryCount := 0 |} in
      ({| slotActiveFor := slotActiveFor e; slotExists := slotExists e;
          stateRow := Some row |}, row)
  end.

(** The storage engine's answer to START_REPLICATION on the slot: a
    slot that is streaming to someone else cannot be acquired. *)
Definition startLogicalReplication (me : bool) (e : Engine) : result unit * Engine :=
  match slotActiveFor e with
  | Some _ => (Throw (PostgresError "ReplicationSlotAcquire" "55006"), e)
  | None =>
      (Ok tt, {| slotActiveFor := Some me; slotExists := slotExists e;
                 stateRow := stateRow e |})
  end.

(** The [catch] around [startLogicalReplication]. *)
Definition onStartError (e : js_error) : js_error :=
  match e with
  | PostgresError routine code =>
      if String.eqb routine "ReplicationSlotAcquire" || String.eqb code "55006"
      then HermesConsumerAlreadyTakenError consumerName partitionKey
      else e
  | _ => e
  end.

(** [start()], one await at a time: up to [await migrate], up to
    [await createOrLoad], up to [await startLogicalReplication]. A
    call that has returned or thrown does nothing more. *)
Definition startStep (me : bool) (e : Engine) (c : ConsumerObject)
  : Engine * ConsumerObject :=
  match phase c with
  | Unstarted =>
      (migrate e,
       {| _sql := Some Store.Connection;
          consumerState :=
            match consumerState c with
            | Some s => Some s
            | None => Some {| Pg.lastProcessedLsn := 0; Pg.stateRedeliveryCount := 0 |}
            end;
          phase := Migrated |})
  | Migrated =>
      let '(e', row) := createOrLoad e in
      (e', {| _sql := _sql c; consumerState := Some row; phase := Loaded |})
  | Loaded =>
      match startLogicalReplication me e with
      | (Ok _, e') =>
          (e', {| _sql := _sql c; consumerState := consumerState c; phase := Running |})
      | (Throw err, e') =>
          (e', {| _sql := _sql c; consumerState := consumerState c;
                  phase := Failed (onStartError err) |})
      end
  | _ => (e, c)
  end.

(** The event loop resumes one of the two calls. *)
Definition resume (w : World) (who : bool) : World :=
  if who
  then let '(e, c) := startStep true (engine w) (first w) in
       {| engine := e; first := c; second := second w |}
  else let '(e, c) := startStep false (engine w) (second w) in
       {| engine := e; first := first w; second := c |}.

Definition interleave (schedule : list bool) (w : World) : World :=
  fold_left resume schedule w.

End Start.

End Lifecycle.

(** ** The pipelined publishing queue *)

Module Pipelined.

(** Modelled from the spec:
    publishingQueue/nonBlockingQueue/createNonBlockingPublishingQueue.js
    is not under src/. Several publish calls may be outstanding at once,
    up to a bound; each submitted batch carries its commit position; a
    min-heap keyed by commit position holds the batches whose publish
    call has returned and which are not acknowledged yet; an
    acknowledgement is applied to the oldest outstanding batch only, so
    a ready batch waits until all its predecessors are acknowledged.

    [outstanding] are the submitted batches that are not acknowledged,
    in the order they were submitted; [ready] is the heap, kept as an
    ascending list; [acked] are the acknowledgements applied, oldest
    first. *)
Record Queue : Type := {
  maxOutstanding : nat;
  outstanding : list Z;
  ready : list Z;
  acked : list Z
}.


Fixpoint heapInsert (p : Z) (heap : list Z) : list Z :=
  match heap with
  | [] => [p]
  | x :: rest =>
      if p <? x then p :: heap
      else if p =? x then heap
      else x :: heapInsert p rest
  end.

(** Acknowledge the head for as long as the least ready batch is the
    oldest outstanding one. *)
Fixpoint drain (waiting heap done : list Z) : list Z * list Z * list Z :=
  match waiting, heap with
  | p :: rest, least :: heap' =>
      if least =? p then drain rest heap' (done ++ [p])
      else (waiting, heap, done)
  | _, _ => (waiting, heap, done)
  end.

(** [submit]: refused ([None]) while the bound is reached; the reader
    then waits. *)
Definition submit (p : Z) (q : Queue) : option Queue :=
  if (List.length (outstanding q) <? maxOutstanding q)%nat
  then Some {| maxOutstanding := maxOutstanding q;
               outstanding := outstanding q ++ [p];
               ready := ready q; acked := acked q |}
  else None.

(** The publish call of the batch at [p] has returned. *)
Definition complete (p : Z) (q : Queue) : Queue :=
  if existsb (Z.eqb p) (outstanding q)
  then
    let '(waiting, heap, done) :=
      drain (outstanding q) (heapInsert p (ready q)) (acked q) in
    {| maxOutstanding := maxOutstanding q; outstanding := waiting;
       ready := heap; acked := done |}
  else q.

Inductive event : Type :=
| Submit (p : Z)
| Complete (p : Z).

Definition step (q : Queue) (e : event) : Queue :=
  match e with
  | Submit p => match submit p q with Some q' => q' | None => q end
  | Complete p => complete p q
  end.

Definition run (events : list event) (q : Queue) : Queue :=
  fold_left step events q.


End Pipelined.

(** ** The polling consumer driven through its methods *)

Module PollingCalls.

(** What happens to a consumer object over its life: the application
    calls [start()] or [stop()], or one of the events of [Polling.event]
    takes place. *)
Inductive call : Type :=
| CallStart
| CallStop
| Happens (e : Polling.event).

Section Calls.

Variable publish : list Polling.Call -> Polling.Envelope -> outcome.
Variable sqlOk : nat -> bool.
Variable checkInterval : option Z.

(** A [start()] that throws leaves the object as it was. *)
Definition perform (st : Polling.State) (c : call) : Polling.State :=
  match c with
  | CallStart =>
      match Polling.start checkInterval st with
      | Ok st' => st'
      | Throw _ => st
      end
  | CallStop => Polling.stop st
  | Happens e => Polling.step publish sqlOk st e
  end.

Definition performAll (calls : list call) (st : Polling.State) : Polling.State :=
  fold_left perform calls st.

End Calls.

(** A row with its consumer name replaced. *)
Definition renamed (f : string -> string) (r : Polling.Row) : Polling.Row :=
  {| Polling.position := Polling.position r;
     Polling.consumerName := f (Polling.consumerName r);
     Polling.messageId := Polling.messageId r;
     Polling.messageType := Polling.messageType r;
     Polling.data := Polling.data r;
     Polling.delivered := Polling.delivered r;
     Polling.failsCount := Polling.failsCount r;
     Polling.addedAt := Polling.addedAt r;
     Polling.sentAt := Polling.sentAt r |}.

(** The positions for which the callback has returned normally, oldest
    call first. *)
Definition delivered (log : list Polling.Call) : list Z :=
  map (fun c => Polling.env_position (Polling.envelope c))
    (filter (fun c => returned (Polling.answer c)) log).

End PollingCalls.

(** ** Sending to the polling outbox (AsyncOutboxConsumer.send) *)

Module AsyncOutbox.

Definition Db : Type := Store.t Polling.Row.

(** The row an INSERT INTO "asyncOutbox" ("consumerName", "messageId",
    "messageType", "data") makes. Modelled from the spec: the definition
    of the table (outboxConsumer/migrate.js) is not under src/; the
    columns the statement does not name take the defaults [Polling.send]
    gives them: the next position, not delivered, no failure, added now,
    never sent. *)
Definition rowOf (consumerName : string) (today : Z) (m : Pg.MessageEnvelope) (seq : Z)
  : Polling.Row :=
  {| Polling.position := seq; Polling.consumerName := consumerName;
     Polling.messageId := Pg.envelopeId m; Polling.messageType := Pg.envelopeType m;
     Polling.data := Pg.envelopeMessage m;
     Polling.delivered := false; Polling.failsCount := Some 0;
     Polling.addedAt := today; Polling.sentAt := None |}.

Section Send.

Variable sqlOk : nat -> bool.
Variable consumerName : string.
Variable today : Z.

(** [_params.getSql()]: it may throw (the policy's getter asserts that
    the connection exists), or give nothing, or give the connection. *)
Variable getSql : result (option Store.Sql).

Definition _publishOne (sql : Store.Sql) (m : Pg.MessageEnvelope) (db : Db)
  : result unit * Db :=
  Store.execute Polling.Row sqlOk sql (fun seq => [rowOf consumerName today m seq]) [] db.

Definition publishEach (sql : Store.Sql) (ms : list Pg.MessageEnvelope) (db : Db)
  : result unit * Db :=
  Store.insertEach Polling.Row sqlOk sql (map (rowOf consumerName today) ms) db.

(** [send(message, options)]: [options] is [{ tx }]. *)
Definition send (message : Pg.MessageEnvelope + list Pg.MessageEnvelope)
  (tx : option nat) (db : Db) : result unit * Db :=
  match getSql with
  | Throw e => (Throw e, db)
  | Ok None =>
      (Throw (JsError "Database connection not established. Call start() first."), db)
  | Ok (Some connection) =>
      let sql := match tx with Some id => Store.Transaction id | None => connection end in
      match message with
      | inr messages =>
          if Store.hasSavepoint sql
          then publishEach sql messages db
          else Store.withTransaction Polling.Row (fun sql => publishEach sql messages) db
      | inl m => _publishOne sql m db
      end
  end.

(** The rows a call of [send] inserts. *)
Definition makersOf (message : Pg.MessageEnvelope + list Pg.MessageEnvelope)
  : list (Z -> Polling.Row) :=
  match message with
  | inl m => [rowOf consumerName today m]
  | inr ms => map (rowOf consumerName today) ms
  end.

End Send.

End AsyncOutbox.

(** ** Reading the trace of the document backend consumer *)

Module MongoTrace.

(** The cursor steps the loop does something with: an empty poll and a
    change that is not an insert are passed over. *)
Definition relevant (step : Mongo.cursorStep) : bool :=
  match step with
  | Mongo.NoNext => false
  | Mongo.Change doc => Mongo.isInsert (Mongo.operationType doc)
  | _ => true
  end.

(** Every failed publish call is followed at once by the
    [onFailedPublish] call, and there is no other [onFailedPublish] call.
    [owed] says that the call before was a failed publish. *)
Fixpoint paired (owed : bool) (seg : list Mongo.action) : bool :=
  match seg with
  | [] => negb owed
  | a :: rest =>
      if owed
      then match a with Mongo.FailedPublish => paired false rest | _ => false end
      else match a with
           | Mongo.Published _ Throws => paired true rest
           | Mongo.FailedPublish => false
           | _ => paired false rest
           end
  end.

(** The publish calls of a trace, with their outcomes. *)
Definition publishes (t : list Mongo.action) : list (Mongo.Event * outcome) :=
  flat_map (fun a => match a with Mongo.Published e o => [(e, o)] | _ => [] end) t.

End MongoTrace.

(** ** Projections (projections/index.ts) *)

Module Projections.

(** EventName: the [type] of an event. *)
Definition EventName : Type := string.

Inductive HermesProjectionStoreType : Type := sql | document.

(** A row of the table [ensureProjection] creates for a projection of
    the document type: its key, the state, and the version that starts
    at 0. *)
Record HermesProjectionDocument (State : Type) : Type := {
  data : State;
  _version : Z
}.

Arguments data {State} _.
Arguments _version {State} _.

(** [Array.prototype.includes] on event names. *)
Definition includes (names : list EventName) (name : EventName) : bool :=
  existsb (String.eqb name) names.

(** [new Set(events).intersection(new Set(list))]: the distinct names
    that both have. Only the size of the set is read, so the order of
    its elements is left as that of [events]. *)
Definition intersection (events list : Datatypes.list EventName)
  : Datatypes.list EventName :=
  nodup string_dec (filter (includes list) events).

(** [!!intersection(events, list).size] *)
Definition isOneOfEventsOnTheList (events list : Datatypes.list EventName) : bool :=
  negb (Nat.eqb (List.length (intersection events list)) 0).

Section Projection.

Variable State : Type.
Variable EventType : Type.

(** HermesProjectionCommon. The callbacks are the user's and may throw;
    [update] is always [updateDocumentProjection]. *)
Record HermesProjectionCommon : Type := {
  name : string;
  ofEvents : list EventName;
  evolve : option State -> EventType -> result State;
  getProjectionId : EventType -> result string;
  getInitialState : option (unit -> result State)
}.

(** HermesProjection: [{ ...common, storeType }]. The columns of a
    projection of the sql type are read by [ensureProjection] only. *)
Record HermesProjection : Type := {
  common : HermesProjectionCommon;
  storeType : HermesProjectionStoreType
}.

(** *** The builder

    [defineHermesProjection()] makes one [common] object, a variable
    [storeType] that starts unset, and a set of closures over them;
    each call of the fluent interface mutates them. *)
Record Builder : Type := {
  builderCommon : HermesProjectionCommon;
  builderStoreType : option HermesProjectionStoreType
}.

Definition defineHermesProjection : Builder :=
  {| builderCommon :=
       {| name := ""; ofEvents := [];
          evolve := fun _ _ => Throw (JsError "Not implemented");
          getProjectionId := fun _ => Throw (JsError "Not implemented");
          getInitialState := None |};
     builderStoreType := None |}.

Definition mutate (f : HermesProjectionCommon -> HermesProjectionCommon) (b : Builder)
  : Builder :=
  {| builderCommon := f (builderCommon b); builderStoreType := builderStoreType b |}.

Definition ofName (n : string) : Builder -> Builder :=
  mutate (fun c =>
    {| name := n; ofEvents := ofEvents c; evolve := evolve c;
       getProjectionId := getProjectionId c; getInitialState := getInitialState c |}).

Definition ofDocumentType (b : Builder) : Builder :=
  {| builderCommon := builderCommon b; builderStoreType := Some document |}.

Definition ofSqlType (b : Builder) : Builder :=
  {| builderCommon := builderCommon b; builderStoreType := Some sql |}.

(** [if (!common.ofEvents.includes(event)) common.ofEvents.push(event)] *)
Definition ofEvent (event : EventName) : Builder -> Builder :=
  mutate (fun c =>
    if includes (ofEvents c) event then c
    else
      {| name := name c; ofEvents := ofEvents c ++ [event]; evolve := evolve c;
         getProjectionId := getProjectionId c; getInitialState := getInitialState c |}).

(** [ofEvents(...events)]: [common.ofEvents = [...events]] *)
Definition ofEventsAll (events : list EventName) : Builder -> Builder :=
  mutate (fun c =>
    {| name := name c; ofEvents := events; evolve := evolve c;
       getProjectionId := getProjectionId c; getInitialState := getInitialState c |}).

Definition ofEvolve (f : option State -> EventType -> result State) : Builder -> Builder :=
  mutate (fun c =>
    {| name := name c; ofEvents := ofEvents c; evolve := f;
       getProjectionId := getProjectionId c; getInitialState := getInitialState c |}).

Definition ofId (f : EventType -> result string) : Builder -> Builder :=
  mutate (fun c =>
    {| name := name c; ofEvents := ofEvents c; evolve := evolve c;
       getProjectionId := f; getInitialState := getInitialState c |}).

Definition ofInitialState (f : unit -> result State) : Builder -> Builder :=
  mutate (fun c =>
    {| name := name c; ofEvents := ofEvents c; evolve := evolve c;
       getProjectionId := getProjectionId c; getInitialState := Some f |}).

(** [done()]: the projection, once a store type was chosen; with none
    the switch falls to [assertNever] and no projection comes back. *)
Definition done (b : Builder) : option HermesProjection :=
  match builderStoreType b with
  | Some st => Some {| common := builderCommon b; storeType := st |}
  | None => None
  end.

(** [.ofEvent(e1).ofEvent(e2)...] *)
Definition ofEventChain (events : list EventName) (b : Builder) : Builder :=
  fold_left (fun b e => ofEvent e b) events b.

(** *** The table of a projection *)

(** The rows by key, and the number of statements sent so far. Each
    statement either succeeds or throws, as [sqlOk] says of its
    number. *)
Record Table : Type := {
  docs : list (string * HermesProjectionDocument State);
  statements : nat
}.

Variable sqlOk : nat -> bool.

Fixpoint lookupDoc (id : string) (rows : list (string * HermesProjectionDocument State))
  : option (HermesProjectionDocument State) :=
  match rows with
  | [] => None
  | (i, d) :: rest => if String.eqb i id then Some d else lookupDoc id rest
  end.

(** INSERT ... ON CONFLICT ("id") DO UPDATE SET "data" = newState,
    "_version" = "_version" + 1 *)
Fixpoint upsertDoc (id : string) (newState : State)
  (rows : list (string * HermesProjectionDocument State))
  : list (string * HermesProjectionDocument State) :=
  match rows with
  | [] => [(id, {| data := newState; _version := 0 |})]
  | (i, d) :: rest =>
      if String.eqb i id
      then (i, {| data := newState; _version := _version d + 1 |}) :: rest
      else (i, d) :: upsertDoc id newState rest
  end.

Definition sent (t : Table) : Table :=
  {| docs := docs t; statements := S (statements t) |}.

(** SELECT * FROM name WHERE "id" = id *)
Definition selectById (id : string) (t : Table)
  : result (option (HermesProjectionDocument State)) * Table :=
  if sqlOk (statements t)
  then (Ok (lookupDoc id (docs t)), sent t)
  else (Throw (PostgresError "exec_simple_query" "XX000"), sent t).

(** [updateDocumentProjection(tx, projection, id, newState)] *)
Definition updateDocumentProjection (id : string) (newState : State) (t : Table)
  : result unit * Table :=
  if sqlOk (statements t)
  then (Ok tt, {| docs := upsertDoc id newState (docs t);
                  statements := S (statements t) |})
  else (Throw (PostgresError "exec_simple_query" "XX000"), sent t).

(** *** Updating *)

(** [JSON.parse] of a payload; [None] is a text that is not JSON. *)
Variable parse : string -> option EventType.

(** [results.map((insertResult) => JSON.parse(insertResult.payload))] *)
Fixpoint parseAll (payloads : list string) : result (list EventType) :=
  match payloads with
  | [] => Ok []
  | payload :: rest =>
      match parse payload with
      | None => Throw SyntaxError
      | Some event =>
          events <- parseAll rest ;;
          Ok (event :: events)
      end
  end.

(** The rows of the transaction whose type the projection names. *)
Definition handled (projection : HermesProjection) (results : list Pg.InsertResult)
  : list Pg.InsertResult :=
  filter (fun event => includes (ofEvents (common projection)) (Pg.messageType event)) results.

(** [result?.data || (projection.getInitialState ? projection.getInitialState() : undefined)];
    a state is an object, which is never falsy. *)
Definition currentState (projection : HermesProjection)
  (found : option (HermesProjectionDocument State)) : result (option State) :=
  match found with
  | Some d => Ok (Some (data d))
  | None =>
      match getInitialState (common projection) with
      | Some init => s <- init tt ;; Ok (Some s)
      | None => Ok None
      end
  end.

(** The body of the loop of [updateProjection]; both store types take
    the same statement. *)
Definition updateOne (projection : HermesProjection) (event : EventType) (t : Table)
  : result unit * Table :=
  match getProjectionId (common projection) event with
  | Throw e => (Throw e, t)
  | Ok id =>
      match selectById id t with
      | (Throw e, t1) => (Throw e, t1)
      | (Ok found, t1) =>
          match currentState projection found with
          | Throw e => (Throw e, t1)
          | Ok current =>
              match evolve (common projection) current event with
              | Throw e => (Throw e, t1)
              | Ok newState =>
                  match storeType projection with
                  | document => updateDocumentProjection id newState t1
                  | sql => updateDocumentProjection id newState t1
                  end
              end
          end
      end
  end.

(** [for (const event of events) { ... }] *)
Fixpoint updateEach (projection : HermesProjection) (events : list EventType) (t : Table)
  : result unit * Table :=
  match events with
  | [] => (Ok tt, t)
  | event :: rest =>
      match updateOne projection event t with
      | (Ok _, t') => updateEach projection rest t'
      | (Throw e, t') => (Throw e, t')
      end
  end.

(** [updateProjection(tx, projection, transaction)] *)
Definition updateProjection (projection : HermesProjection) (transaction : Pg.Transaction)
  (t : Table) : result unit * Table :=
  match parseAll (map Pg.payload (handled projection (Pg.results transaction))) with
  | Throw e => (Throw e, t)
  | Ok events => updateEach projection events t
  end.

(** [getImpactedProjections(tx, projections, transaction)] *)
Definition getImpactedProjections (projections : list HermesProjection)
  (transaction : Pg.Transaction) : list HermesProjection :=
  let transactionEvents := map Pg.messageType (Pg.results transaction) in
  filter (fun p => isOneOfEventsOnTheList (ofEvents (common p)) transactionEvents)
    projections.

End Projection.

Arguments name {State EventType} _.
Arguments ofEvents {State EventType} _.
Arguments evolve {State EventType} _ _ _.
Arguments getProjectionId {State EventType} _ _.
Arguments getInitialState {State EventType} _.
Arguments common {State EventType} _.
Arguments storeType {State EventType} _.
Arguments builderCommon {State EventType} _.
Arguments builderStoreType {State EventType} _.
Arguments docs {State} _.
Arguments statements {State} _.

End Projections.

(** ** Durations (duration.ts) *)

(** A [Duration] holds a number of milliseconds. The amounts here are
    integers, and small enough for the products to be exact Numbers
    (below 2^53 milliseconds). *)
Module Duration.

Record Duration : Type := { ms : Z }.

(** [get value()] *)
Definition value (d : Duration) : Z := ms d.





Definition ofSeconds (seconds : Z) : result Duration :=
  _ <- assert (0 <=? seconds) "seconds has to be greater or equal 0" ;;
  Ok {| ms := seconds * 1000 |}.


End Duration.

(** * The Insert tuple decoder *)

Section WireFacts.

Import Wire.

Lemma u8_range (b : byte) : 0 <= Buffer.u8 b <= 255.
Proof.
  unfold Buffer.u8. pose proof (Byte.to_N_bounded b). lia.
Qed.

Lemma u8_byteOf (z : Z) : Buffer.u8 (byteOf z) = z mod 256.
Proof.
  unfold byteOf, Buffer.u8.
  assert (Hm : 0 <= z mod 256 < 256) by (apply Z.mod_pos_bound; lia).
  destruct (Byte.of_N (Z.to_N (z mod 256))) as [b|] eqn:E.
  - apply Byte.to_of_N in E. rewrite E. lia.
  - apply Byte.of_N_None_iff in E. lia.
Qed.

Lemma bigEndian_be32 (n : Z) :
  0 <= n < 2 ^ 32 -> Buffer.bigEndian (be32 n) = n.
Proof.
  intros Hn. unfold Buffer.bigEndian, be32. cbn [fold_left].
  rewrite !u8_byteOf.
  change (2 ^ 32) with 4294967296 in Hn.
  assert (H3 : (n / 16777216) mod 256 = n / 16777216).
  { apply Z.mod_small. split.
    - apply Z.div_pos; lia.
    - apply Z.div_lt_upper_bound; lia. }
  rewrite H3.
  assert (E1 : n / 65536 = n / 256 / 256) by (rewrite Z.div_div by lia; reflexivity).
  assert (E2 : n / 16777216 = n / 65536 / 256) by (rewrite Z.div_div by lia; reflexivity).
  pose proof (Z_div_mod_eq_full n 256).
  pose proof (Z_div_mod_eq_full (n / 256) 256).
  pose proof (Z_div_mod_eq_full (n / 65536) 256).
  lia.
Qed.

Lemma length_be32 (n : Z) : List.length (be32 n) = 4%nat.
Proof. reflexivity. Qed.

Lemma bytesAt_middle (a b c : list byte) :
  Buffer.bytesAt (a ++ b ++ c) (Buffer.length a) (List.length b) = Some b.
Proof.
  unfold Buffer.bytesAt, Buffer.length.
  rewrite !length_app, Nat2Z.id.
  replace ((0 <=? Z.of_nat (List.length a)) &&
           (Z.of_nat (List.length a) + Z.of_nat (List.length b) <=?
            Z.of_nat (List.length a + (List.length b + List.length c))))
    with true by (symmetry; apply andb_true_intro; split; apply Z.leb_le; lia).
  rewrite skipn_app, skipn_all, Nat.sub_diag. cbn [skipn app].
  rewrite firstn_app, firstn_all, Nat.sub_diag. cbn [firstn].
  now rewrite app_nil_r.
Qed.

Lemma subarray_middle (a b c : list byte) :
  Buffer.subarray (a ++ b ++ c) (Buffer.length a)
    (Buffer.length a + Buffer.length b) = b.
Proof.
  unfold Buffer.subarray, Buffer.clampIndex, Buffer.length.
  rewrite !length_app.
  destruct (Z.ltb_spec (Z.of_nat (List.length a)) 0) as [H|_]; [lia|].
  destruct (Z.ltb_spec (Z.of_nat (List.length a) + Z.of_nat (List.length b)) 0)
    as [H|_]; [lia|].
  rewrite !Z.min_l by lia.
  replace (Z.to_nat (Z.of_nat (List.length a) + Z.of_nat (List.length b)
                     - Z.of_nat (List.length a))) with (List.length b) by lia.
  rewrite Nat2Z.id.
  rewrite skipn_app, skipn_all, Nat.sub_diag. cbn [skipn app].
  rewrite firstn_app, firstn_all, Nat.sub_diag. cbn [firstn].
  now rewrite app_nil_r.
Qed.

(** The three reads every reader starts with, on a well-framed column. *)
Section Framed.

Variables (before value after : list byte) (tag : byte).
Hypothesis Hlen : Buffer.length value < 2 ^ 32.

Let buffer := before ++ column tag value ++ after.
Let pos := Buffer.length before.

Lemma framed_tag :
  Buffer.readInt8 buffer pos = Ok (Buffer.signed 8 (Buffer.u8 tag)).
Proof.
  unfold Buffer.readInt8, Buffer.readUIntBE, buffer, pos, column.
  change (before ++ (tag :: be32 (Buffer.length value) ++ value) ++ after)
    with (before ++ [tag] ++ (be32 (Buffer.length value) ++ value) ++ after).
  change 1%nat with (List.length [tag]).
  rewrite bytesAt_middle. cbn. reflexivity.
Qed.

Lemma framed_length :
  Buffer.readUInt32BE buffer (Offset.addInt8 pos) = Ok (Buffer.length value).
Proof.
  unfold Buffer.readUInt32BE, Buffer.readUIntBE, buffer, pos, column.
  unfold Offset.addInt8, Offset.add, Bytes.Int8.
  replace (before ++ (tag :: be32 (Buffer.length value) ++ value) ++ after)
    with ((before ++ [tag]) ++ be32 (Buffer.length value) ++ value ++ after)
    by (rewrite <- !app_assoc; reflexivity).
  replace (Buffer.length before + 1) with (Buffer.length (before ++ [tag]))
    by (unfold Buffer.length; rewrite length_app; cbn; lia).
  change 4%nat with (List.length (be32 (Buffer.length value))).
  rewrite bytesAt_middle, bigEndian_be32; [reflexivity|].
  unfold Buffer.length in *. lia.
Qed.

Lemma framed_value :
  Buffer.subarray buffer (Offset.addInt32 (Offset.addInt8 pos))
    (Offset.addInt32 (Offset.addInt8 pos) + Buffer.length value) = value.
Proof.
  unfold buffer, pos, column.
  unfold Offset.addInt32, Offset.addInt8, Offset.add, Bytes.Int8, Bytes.Int32.
  replace (before ++ (tag :: be32 (Buffer.length value) ++ value) ++ after)
    with ((before ++ tag :: be32 (Buffer.length value)) ++ value ++ after)
    by (rewrite <- !app_assoc; reflexivity).
  replace (Buffer.length before + 1 + 4)
    with (Buffer.length (before ++ tag :: be32 (Buffer.length value)))
    by (unfold Buffer.length; rewrite length_app; cbn [List.length];
        rewrite length_be32; lia).
  apply subarray_middle.
Qed.

End Framed.

Lemma isText_tag (tag : byte) :
  isText (Js.fromCharCode (Buffer.signed 8 (Buffer.u8 tag))) = true <-> tag = "t"%byte.
Proof.
  split.
  - destruct tag; vm_compute; congruence.
  - intros ->. reflexivity.
Qed.

End WireFacts.

Section DecimalText.

Import Wire.

Definition isDigit (d : Z) : Prop := 0 <= d <= 9.

Lemma toString_ascii (bytes : list byte) :
  Forall (fun b => Buffer.u8 b <= 127) bytes ->
  Buffer.toString bytes = map Buffer.u8 bytes.
Proof.
  unfold Buffer.toString.
  induction 1 as [|b rest Hb _ IH]; [reflexivity|].
  cbn [Buffer.utf8From map]. unfold Buffer.utf8Lead.
  destruct (Z.leb_spec (Buffer.u8 b) 127) as [_|H]; [|lia].
  cbn [app]. now rewrite IH.
Qed.

Lemma u8_digit (d : Z) : isDigit d -> Buffer.u8 (byteOf (48 + d)) = 48 + d.
Proof.
  intros Hd. rewrite u8_byteOf. apply Z.mod_small. unfold isDigit in Hd. lia.
Qed.

Lemma decimalBytes_ascii negative digits :
  Forall isDigit digits ->
  Forall (fun b => Buffer.u8 b <= 127) (decimalBytes negative digits).
Proof.
  intros Hd. unfold decimalBytes. apply Forall_app. split.
  - destruct negative; constructor; [vm_compute; congruence | constructor].
  - apply Forall_map. eapply Forall_impl; [|exact Hd].
    intros d H. cbn beta. rewrite u8_digit by exact H. unfold isDigit in H. lia.
Qed.

(** The characters of a decimal integer. *)
Definition decimalText (negative : bool) (digits : list Z) : text :=
  (if negative then [45] else []) ++ map (Z.add 48) digits.

Lemma toString_decimalBytes negative digits :
  Forall isDigit digits ->
  Buffer.toString (decimalBytes negative digits) = decimalText negative digits.
Proof.
  intros Hd. rewrite toString_ascii by now apply decimalBytes_ascii.
  unfold decimalBytes, decimalText. rewrite map_app, map_map. f_equal.
  - now destruct negative.
  - apply map_ext_in. intros d Hin. apply u8_digit.
    rewrite Forall_forall in Hd. now apply Hd.
Qed.

Lemma digitValue_digit (d : Z) : isDigit d -> Js.digitValue 10 (48 + d) = Some d.
Proof.
  intros Hd. unfold isDigit in Hd. unfold Js.digitValue.
  destruct (Z.leb_spec 48 (48 + d)); [|lia].
  destruct (Z.leb_spec (48 + d) 57); [|lia]. cbn [andb].
  replace (48 + d - 48) with d by lia.
  destruct (Z.ltb_spec d 10); [reflexivity | lia].
Qed.

Lemma takeDigits_digits digits :
  Forall isDigit digits -> Js.takeDigits 10 (map (Z.add 48) digits) = digits.
Proof.
  induction 1 as [|d ds Hd _ IH]; [reflexivity|].
  cbn [map Js.takeDigits]. rewrite digitValue_digit by exact Hd. now rewrite IH.
Qed.

Lemma allDigits_digits digits :
  Forall isDigit digits -> Js.allDigits 10 (map (Z.add 48) digits) = Some digits.
Proof.
  induction 1 as [|d ds Hd _ IH]; [reflexivity|].
  cbn [map Js.allDigits]. rewrite digitValue_digit by exact Hd. now rewrite IH.
Qed.

Lemma isWhiteSpace_printable (c : Z) : 33 <= c <= 126 -> Js.isWhiteSpace c = false.
Proof.
  intros Hc. unfold Js.isWhiteSpace. cbn [existsb].
  repeat match goal with
         | |- context [?x =? ?y] => destruct (Z.eqb_spec x y); [lia|]
         end.
  cbn [orb]. destruct (Z.leb_spec 8192 c); [lia | reflexivity].
Qed.

Lemma decimalText_printable negative digits :
  Forall isDigit digits ->
  Forall (fun c => 33 <= c <= 126) (decimalText negative digits).
Proof.
  intros Hd. unfold decimalText. apply Forall_app. split.
  - destruct negative; constructor; [lia | constructor].
  - apply Forall_map. eapply Forall_impl; [|exact Hd].
    unfold isDigit. intros; lia.
Qed.

Lemma trimStart_printable (s : text) :
  match s with c :: _ => 33 <= c <= 126 | [] => True end -> Js.trimStart s = s.
Proof.
  destruct s as [|c rest]; [reflexivity|]. intros Hc. cbn [Js.trimStart].
  now rewrite isWhiteSpace_printable.
Qed.

Lemma trim_printable (s : text) :
  Forall (fun c => 33 <= c <= 126) s -> Js.trim s = s.
Proof.
  intros Hs. unfold Js.trim.
  rewrite (trimStart_printable s) by (destruct Hs; auto).
  rewrite trimStart_printable, rev_involutive; [reflexivity|].
  apply Forall_rev in Hs. destruct Hs; auto.
Qed.

Lemma splitSign_decimalText negative digits :
  Forall isDigit digits -> digits <> [] ->
  Js.splitSign (decimalText negative digits) =
    (if negative then -1 else 1, map (Z.add 48) digits).
Proof.
  intros Hd Hne. unfold decimalText.
  destruct negative; [reflexivity|]. cbn [app].
  destruct Hd as [|d ds Hd _]; [congruence|].
  cbn [map Js.splitSign]. unfold isDigit in Hd.
  destruct (Z.eqb_spec (48 + d) 45); [lia|].
  destruct (Z.eqb_spec (48 + d) 43); [lia|]. reflexivity.
Qed.

Lemma nonDecimalRadix_decimalText negative digits :
  Forall isDigit digits -> Js.nonDecimalRadix (decimalText negative digits) = None.
Proof.
  intros Hd. unfold decimalText.
  destruct negative.
  - cbn [app]. destruct digits; reflexivity.
  - cbn [app]. destruct Hd as [|d ds Hd Hds]; [reflexivity|].
    destruct Hds as [|p ps Hp _]; [reflexivity|].
    cbn [map Js.nonDecimalRadix]. unfold isDigit in Hp.
    destruct (negb (48 + d =? 48)); [reflexivity|].
    repeat match goal with
           | |- context [?x =? ?y] => destruct (Z.eqb_spec x y); [lia|]
           end.
    reflexivity.
Qed.

Lemma parseInt10_decimalText negative digits :
  Forall isDigit digits -> digits <> [] ->
  Js.parseInt10 (decimalText negative digits) =
    VNumber (decimalValue negative digits).
Proof.
  intros Hd Hne. unfold Js.parseInt10.
  rewrite trimStart_printable.
  - rewrite splitSign_decimalText, takeDigits_digits by assumption.
    destruct digits; [congruence | reflexivity].
  - pose proof (decimalText_printable negative digits Hd) as Hp.
    destruct Hp; auto.
Qed.

Lemma toBigInt_decimalText negative digits :
  Forall isDigit digits -> digits <> [] ->
  Js.toBigInt (decimalText negative digits) =
    Ok (VBigInt (decimalValue negative digits)).
Proof.
  intros Hd Hne. unfold Js.toBigInt.
  rewrite trim_printable by now apply decimalText_printable.
  destruct (decimalText negative digits) as [|c rest] eqn:E.
  - unfold decimalText in E. destruct negative, digits; discriminate || congruence.
  - rewrite <- E.
    rewrite nonDecimalRadix_decimalText, splitSign_decimalText by assumption.
    unfold Js.literalValue. rewrite allDigits_digits by assumption.
    destruct digits; [congruence | reflexivity].
Qed.

Lemma fold_digits_bound digits :
  Forall isDigit digits -> forall acc, 0 <= acc ->
  0 <= fold_left (fun a d => a * 10 + d) digits acc
    < (acc + 1) * 10 ^ Z.of_nat (List.length digits).
Proof.
  induction 1 as [|d ds Hd _ IH]; intros acc Hacc.
  - cbn. lia.
  - cbn [fold_left List.length]. unfold isDigit in Hd.
    specialize (IH (acc * 10 + d) ltac:(lia)).
    rewrite Nat2Z.inj_succ, Z.pow_succ_r by lia.
    assert (0 < 10 ^ Z.of_nat (List.length ds)) by (apply Z.pow_pos_nonneg; lia).
    nia.
Qed.

Lemma valueOf_bound digits :
  Forall isDigit digits ->
  0 <= Js.valueOf 10 digits < 10 ^ Z.of_nat (List.length digits).
Proof.
  intros Hd. pose proof (fold_digits_bound digits Hd 0 ltac:(lia)) as H.
  unfold Js.valueOf. lia.
Qed.

Lemma length_decimalBytes negative digits :
  Buffer.length (decimalBytes negative digits) =
    (if negative then 1 else 0) + Z.of_nat (List.length digits).
Proof.
  unfold Buffer.length, decimalBytes. rewrite length_app, length_map.
  destruct negative; cbn [List.length]; lia.
Qed.

Lemma decimalValue_short negative digits :
  Forall isDigit digits ->
  Buffer.length (decimalBytes negative digits) <= 8 ->
  - 2 ^ 63 < decimalValue negative digits < 2 ^ 63.
Proof.
  intros Hd Hlen. rewrite length_decimalBytes in Hlen.
  pose proof (valueOf_bound digits Hd) as Hv.
  assert (10 ^ Z.of_nat (List.length digits) <= 10 ^ 8)
    by (apply Z.pow_le_mono_r; destruct negative; lia).
  change (10 ^ 8) with 100000000 in *. change (2 ^ 63) with 9223372036854775808.
  unfold decimalValue. destruct negative; lia.
Qed.

End DecimalText.

Section ColumnReaders.

Import Wire.

Variables (before value after : list byte) (tag : byte).
Hypothesis Hlen : Buffer.length value < 2 ^ 32.

Let buffer := before ++ column tag value ++ after.
Let pos := Buffer.length before.
Let next := pos + 5 + Buffer.length value.

Lemma next_offset (p len : Z) :
  Offset.add (Offset.addInt32 (Offset.addInt8 p)) len = p + 5 + len.
Proof.
  unfold Offset.add, Offset.addInt32, Offset.addInt8, Offset.add,
    Bytes.Int8, Bytes.Int32. lia.
Qed.

Ltac open_column :=
  unfold Offset.value; fold pos; fold buffer;
  unfold buffer, pos; rewrite framed_tag; cbn [bind];
  rewrite framed_length by exact Hlen; cbn [bind].

Lemma rejected_tag (H : tag <> "t"%byte) :
  isText (Js.fromCharCode (Buffer.signed 8 (Buffer.u8 tag))) = false.
Proof.
  destruct (isText _) eqn:E; [|reflexivity].
  apply isText_tag in E. contradiction.
Qed.

Lemma readBigInt_rejects :
  tag <> "t"%byte ->
  readBigInt buffer pos = Throw (AssertionError "readUInt.columnType").
Proof.
  intros H. unfold readBigInt. open_column. now rewrite rejected_tag.
Qed.

Lemma readUInt_rejects :
  tag <> "t"%byte ->
  readUInt buffer pos = Throw (AssertionError "readUInt.columnType").
Proof.
  intros H. unfold readUInt. open_column. now rewrite rejected_tag.
Qed.

Lemma readText_rejects :
  tag <> "t"%byte ->
  readText buffer pos = Throw (AssertionError "readText.columnType").
Proof.
  intros H. unfold readText. open_column. now rewrite rejected_tag.
Qed.

Lemma readJsonb_rejects :
  tag <> "t"%byte ->
  readJsonb buffer pos = Throw (AssertionError "readText.readJsonb").
Proof.
  intros H. unfold readJsonb. open_column. now rewrite rejected_tag.
Qed.

Lemma readText_accepts :
  tag = "t"%byte ->
  readText buffer pos = Ok (VString (Buffer.toString value), next).
Proof.
  intros H. unfold readText. open_column.
  rewrite (proj2 (isText_tag tag) H). cbn [assert bind].
  rewrite next_offset.
  replace (Buffer.length before + 5 + Buffer.length value)
    with (Offset.addInt32 (Offset.addInt8 (Buffer.length before)) + Buffer.length value)
    by (unfold Offset.addInt32, Offset.addInt8, Offset.add, Bytes.Int8, Bytes.Int32; lia).
  rewrite framed_value.
  unfold next, pos, Offset.addInt32, Offset.addInt8, Offset.add, Bytes.Int8, Bytes.Int32.
  do 2 f_equal. lia.
Qed.

Lemma readJsonb_accepts :
  tag = "t"%byte ->
  readJsonb buffer pos = Ok (VString (Buffer.toString value), next).
Proof.
  intros H. unfold readJsonb. open_column.
  rewrite (proj2 (isText_tag tag) H). cbn [assert bind].
  rewrite next_offset.
  replace (Buffer.length before + 5 + Buffer.length value)
    with (Offset.addInt32 (Offset.addInt8 (Buffer.length before)) + Buffer.length value)
    by (unfold Offset.addInt32, Offset.addInt8, Offset.add, Bytes.Int8, Bytes.Int32; lia).
  rewrite framed_value.
  unfold next, pos, Offset.addInt32, Offset.addInt8, Offset.add, Bytes.Int8, Bytes.Int32.
  do 2 f_equal. lia.
Qed.

Lemma readBigInt_accepts negative digits :
  tag = "t"%byte ->
  digits <> [] -> Forall isDigit digits ->
  value = decimalBytes negative digits ->
  readBigInt buffer pos =
    Ok (if Buffer.length value <=? 8
        then VNumber (decimalValue negative digits)
        else VBigInt (decimalValue negative digits), next).
Proof.
  intros H Hne Hd Hv. unfold readBigInt. open_column.
  rewrite (proj2 (isText_tag tag) H). cbn [assert bind].
  unfold Offset.value. rewrite framed_value, next_offset.
  replace (Buffer.toString value) with (decimalText negative digits)
    by (rewrite Hv; symmetry; now apply toString_decimalBytes).
  rewrite Z.gtb_ltb.
  destruct (Z.ltb_spec 8 (Buffer.length value)) as [Hl|Hl];
    destruct (Z.leb_spec (Buffer.length value) 8) as [Hl'|Hl']; try lia.
  - now rewrite toBigInt_decimalText.
  - now rewrite parseInt10_decimalText.
Qed.

End ColumnReaders.

(** C8. In an Insert tuple every column is a one-byte format tag, a
    big-endian 32-bit length and then the value bytes. On such a column
    (anywhere in the buffer) every reader asserts the tag: with a tag other
    than 't' the read fails with the reader's assertion; with 't', the text
    and jsonb readers return the UTF-8 text of the value bytes and move the
    cursor just past them, and the bigint reader parses the decimal text
    as a Number when the length field is at most 8 (the value then fits in
    a signed 64-bit integer) and as a BigInt when it is longer. *)
Theorem insert_column_decoding
  (before value after : list byte) (tag : byte)
  (Hlen : Buffer.length value < 2 ^ 32) :
  let buffer := before ++ Wire.column tag value ++ after in
  let pos := Buffer.length before in
  let next := pos + 5 + Buffer.length value in
  Buffer.readInt8 buffer pos = Ok (Buffer.signed 8 (Buffer.u8 tag)) /\
  Buffer.readUInt32BE buffer (pos + 1) = Ok (Buffer.length value) /\
  (tag <> "t"%byte ->
     Wire.readBigInt buffer pos = Throw (AssertionError "readUInt.columnType") /\
     Wire.readUInt buffer pos = Throw (AssertionError "readUInt.columnType") /\
     Wire.readText buffer pos = Throw (AssertionError "readText.columnType") /\
     Wire.readJsonb buffer pos = Throw (AssertionError "readText.readJsonb")) /\
  (tag = "t"%byte ->
     Wire.readText buffer pos = Ok (VString (Buffer.toString value), next) /\
     Wire.readJsonb buffer pos = Ok (VString (Buffer.toString value), next) /\
     forall negative digits,
       digits <> [] -> Forall isDigit digits ->
       value = Wire.decimalBytes negative digits ->
       Wire.readBigInt buffer pos =
         Ok (if Buffer.length value <=? 8
             then VNumber (Wire.decimalValue negative digits)
             else VBigInt (Wire.decimalValue negative digits), next) /\
       (Buffer.length value <= 8 ->
        - 2 ^ 63 < Wire.decimalValue negative digits < 2 ^ 63)).
Proof.
  intros buffer pos next. split; [|split; [|split]].
  - apply framed_tag.
  - apply (framed_length before value after tag Hlen).
  - intros H. repeat split.
    + now apply readBigInt_rejects.
    + now apply readUInt_rejects.
    + now apply readText_rejects.
    + now apply readJsonb_rejects.
  - intros H. split; [|split].
    + now apply readText_accepts.
    + now apply readJsonb_accepts.
    + intros negative digits Hne Hd Hv. split.
      * now apply readBigInt_accepts.
      * subst value. intros Hl. now apply decimalValue_short.
Qed.

(** The theorem at two concrete columns: the position column "42" after
    the two bytes of the column count, and a null column ('n'). *)
Lemma insert_column_decoding_witness :
  Wire.readBigInt
    ([x00; x05] ++ Wire.column "t" (Wire.decimalBytes false [4; 2]) ++ [x74]) 2
    = Ok (VNumber 42, 9) /\
  Wire.readText
    ([x00; x05] ++ Wire.column "n" (Wire.decimalBytes false [4; 2]) ++ [x74]) 2
    = Throw (AssertionError "readText.columnType").
Proof.
  split.
  - pose proof (insert_column_decoding [x00; x05] (Wire.decimalBytes false [4; 2])
                  [x74] "t" ltac:(vm_compute; reflexivity)) as H.
    cbv zeta in H. destruct H as (_ & _ & _ & H).
    destruct (H eq_refl) as (_ & _ & Hbig).
    destruct (Hbig false [4; 2]) as [Hread _].
    + discriminate.
    + repeat constructor; unfold isDigit; lia.
    + reflexivity.
    + exact Hread.
  - pose proof (insert_column_decoding [x00; x05] (Wire.decimalBytes false [4; 2])
                  [x74] "n" ltac:(vm_compute; reflexivity)) as H.
    cbv zeta in H. destruct H as (_ & _ & H & _).
    destruct H as (_ & _ & Htext & _); [discriminate | exact Htext].
Defined.

(** * The auxiliary polling consumer *)

Section PollingSelection.

Import Polling.

Definition byAddedAt (a b : Row) : Prop := addedAt a <= addedAt b.

Lemma insertByAddedAt_In (r x : Row) (rows : list Row) :
  In x (insertByAddedAt r rows) <-> x = r \/ In x rows.
Proof.
  induction rows as [|y rest IH]; cbn [insertByAddedAt].
  - cbn. intuition.
  - destruct (addedAt r <=? addedAt y); cbn [In]; rewrite ?IH; intuition.
Qed.

Lemma insertByAddedAt_sorted (r : Row) (rows : list Row) :
  StronglySorted byAddedAt rows ->
  StronglySorted byAddedAt (insertByAddedAt r rows).
Proof.
  induction 1 as [|y rest Hs IH Hy]; cbn [insertByAddedAt].
  - repeat constructor.
  - destruct (Z.leb_spec (addedAt r) (addedAt y)) as [Hle|Hgt].
    + constructor; [now constructor|].
      constructor; [exact Hle|].
      eapply Forall_impl; [|exact Hy]. unfold byAddedAt. intros; lia.
    + constructor; [exact IH|].
      apply Forall_forall. intros x Hx. apply insertByAddedAt_In in Hx.
      destruct Hx as [->|Hx].
      * unfold byAddedAt. lia.
      * rewrite Forall_forall in Hy. now apply Hy.
Qed.

Lemma orderByAddedAt_In (x : Row) (rows : list Row) :
  In x (orderByAddedAt rows) <-> In x rows.
Proof.
  induction rows as [|y rest IH]; cbn [orderByAddedAt fold_right]; [tauto|].
  fold (orderByAddedAt rest). rewrite insertByAddedAt_In, IH. cbn. intuition.
Qed.

Lemma orderByAddedAt_sorted (rows : list Row) :
  StronglySorted byAddedAt (orderByAddedAt rows).
Proof.
  induction rows as [|y rest IH]; cbn [orderByAddedAt fold_right].
  - constructor.
  - now apply insertByAddedAt_sorted.
Qed.

Lemma sorted_app (a b : list Row) :
  StronglySorted byAddedAt (a ++ b) ->
  StronglySorted byAddedAt a /\
  forall x y, In x a -> In y b -> byAddedAt x y.
Proof.
  induction a as [|h a IH]; cbn [app]; intros Hs.
  - split; [constructor | intros x y []].
  - apply StronglySorted_inv in Hs. destruct Hs as [Hs Hh].
    destruct (IH Hs) as [Ha Hab]. rewrite Forall_app in Hh.
    destruct Hh as [Hha Hhb]. split.
    + now constructor.
    + intros x y [<-|Hx] Hy.
      * rewrite Forall_forall in Hhb. now apply Hhb.
      * now apply Hab.
Qed.

Lemma In_firstn (n : nat) (x : Row) (rows : list Row) :
  In x (firstn n rows) -> In x rows.
Proof.
  intros H. rewrite <- (firstn_skipn n rows). apply in_or_app. now left.
Qed.

(** The rows a tick selects: at most ten, all of them undelivered rows of
    the table, in ascending [addedAt] order, and no undelivered row left
    behind was added before a selected one. *)
Lemma selectPending_spec (rows : list Row) :
  (List.length (selectPending rows) <= 10)%nat /\
  Forall (fun r => In r rows /\ delivered r = false) (selectPending rows) /\
  StronglySorted byAddedAt (selectPending rows) /\
  (forall r r', In r (selectPending rows) ->
                In r' rows -> delivered r' = false ->
                ~ In r' (selectPending rows) ->
                addedAt r <= addedAt r').
Proof.
  unfold selectPending.
  set (pending := orderByAddedAt (filter (fun r => negb (delivered r)) rows)).
  assert (Hsorted : StronglySorted byAddedAt (firstn 10 pending ++ skipn 10 pending)).
  { rewrite firstn_skipn. apply orderByAddedAt_sorted. }
  apply sorted_app in Hsorted. destruct Hsorted as [Hfirst Hrest].
  repeat split.
  - apply firstn_le_length.
  - apply Forall_forall. intros r Hr. apply In_firstn in Hr.
    apply orderByAddedAt_In, filter_In in Hr. destruct Hr as [Hin Hd].
    split; [exact Hin | now apply negb_true_iff].
  - exact Hfirst.
  - intros r r' Hr Hin Hd Hout. apply Hrest; [exact Hr|].
    assert (Hp : In r' pending).
    { apply orderByAddedAt_In, filter_In. split; [exact Hin | now rewrite Hd]. }
    rewrite <- (firstn_skipn 10 pending) in Hp. apply in_app_or in Hp.
    destruct Hp; [contradiction | assumption].
Qed.

End PollingSelection.

Section PollingTick.

Import Polling.

Variable publish : list Call -> Envelope -> outcome.
Variable sqlOk : nat -> bool.
Variable checkInterval : option Z.

Lemma orZero_coalesce (x : option Z) : orZero x = coalesce x.
Proof.
  destruct x as [n|]; cbn; [|reflexivity].
  destruct (Z.eqb_spec n 0); congruence.
Qed.



Lemma tick_selects (st : State) :
  _isProcessing st = false -> sqlOk (statements st) = true ->
  let st' := _processUndeliveredMessages sqlOk st in
  running st' =
    match selectPending (table st) with [] => None | rows => Some rows end /\
  _isProcessing st' =
    match selectPending (table st) with [] => false | _ => true end /\
  table st' = table st /\ calls st' = calls st.
Proof.
  intros Hidle Hok. unfold _processUndeliveredMessages. rewrite Hidle.
  cbn [withProcessing statements table]. rewrite Hok.
  destruct (selectPending (table st)); cbn; auto.
Qed.



Lemma resume_handles (st : State) (message : Row) (rest : list Row) :
  running st = Some (message :: rest) ->
  sqlOk (statements st) = true ->
  let o := publish (calls st) (envelopeOf message) in
  let st' := resume publish sqlOk st in
  calls st' = calls st ++ [{| envelope := envelopeOf message; answer := o |}] /\
  table st' =
    match o with
    | Returns => markDelivered (position message) (now st) (table st)
    | Throws => countFailure (position message) (table st)
    end /\
  running st' = match rest with [] => None | _ => Some rest end /\
  _isProcessing st' = match rest with [] => false | _ => true end.
Proof.
  intros Hrun Hok. unfold resume. rewrite Hrun.
  unfold handleMessage, onCatch, execute.
  destruct (publish (calls st) (envelopeOf message)) eqn:Ho;
    cbn [called statements table now]; rewrite Hok;
    destruct rest; cbn; auto.
Qed.

End PollingTick.


(** ** The failure count across ticks *)


Section PollingCounter.

Import Polling.

Variable publish : list Call -> Envelope -> outcome.
Variable sqlOk : nat -> bool.
Hypothesis database_up : forall n, sqlOk n = true.

(** Every call carried, as its redelivery count, the number of failed
    calls made before it for the same row. *)
Definition consistent (log : list Call) : Prop :=
  forall pre c post, log = pre ++ c :: post ->
    redeliveryCount (envelope c) = failures (env_position (envelope c)) pre.

Record Inv (st : State) : Prop := {
  inv_nodup : NoDup (map position (table st));
  inv_fresh : forall r, In r (table st) -> position r < nextPosition st;
  inv_count : forall r, In r (table st) ->
              coalesce (failsCount r) = failures (position r) (calls st);
  inv_calls : forall c, In c (calls st) ->
              env_position (envelope c) < nextPosition st;
  inv_log : consistent (calls st);
  inv_running : forall rows, running st = Some rows ->
                NoDup (map position rows) /\
                forall m, In m rows ->
                  exists r, In r (table st) /\ position r = position m /\
                            failsCount r = failsCount m
}.

Lemma failures_snoc (p : Z) (log : list Call) (c : Call) :
  failures p (log ++ [c]) =
    failures p log +
    (if (env_position (envelope c) =? p) && negb (returned (answer c)) then 1 else 0).
Proof.
  unfold failures. rewrite filter_app, length_app. cbn [filter].
  destruct ((env_position (envelope c) =? p) && negb (returned (answer c)));
    cbn [List.length]; lia.
Qed.

Lemma failures_nonneg (p : Z) (log : list Call) : 0 <= failures p log.
Proof. unfold failures. lia. Qed.

Lemma failures_absent (p : Z) (log : list Call) :
  (forall c, In c log -> env_position (envelope c) <> p) -> failures p log = 0.
Proof.
  intros H. unfold failures.
  replace (filter _ log) with (@nil Call); [reflexivity|].
  symmetry. induction log as [|c log IH]; [reflexivity|].
  cbn [filter]. destruct (Z.eqb_spec (env_position (envelope c)) p) as [E|_].
  - exfalso. apply (H c); [now left | exact E].
  - cbn [andb]. apply IH. intros c' Hc'. apply H. now right.
Qed.

Lemma consistent_snoc (log : list Call) (c : Call) :
  consistent log ->
  redeliveryCount (envelope c) = failures (env_position (envelope c)) log ->
  consistent (log ++ [c]).
Proof.
  intros Hlog Hc pre c' post. revert pre c'.
  destruct post as [|x post'] using rev_ind; intros pre c' E.
  - apply app_inj_tail in E. destruct E as [-> ->]. exact Hc.
  - clear IHpost'. rewrite app_comm_cons, app_assoc in E.
    apply app_inj_tail in E. destruct E as [E _].
    now apply (Hlog pre c' post').
Qed.

Lemma position_setDelivered p t r : position (setDelivered p t r) = position r.
Proof. unfold setDelivered. now destruct (position r =? p). Qed.

Lemma failsCount_setDelivered p t r : failsCount (setDelivered p t r) = failsCount r.
Proof. unfold setDelivered. now destruct (position r =? p). Qed.

Lemma position_setFailed p r : position (setFailed p r) = position r.
Proof. unfold setFailed. now destruct (position r =? p). Qed.

Lemma failsCount_setFailed p r :
  failsCount (setFailed p r) =
    if position r =? p then Some (coalesce (failsCount r) + 1) else failsCount r.
Proof. unfold setFailed. now destruct (position r =? p). Qed.

Lemma position_markDelivered (p t : Z) (rows : list Row) :
  map position (markDelivered p t rows) = map position rows.
Proof.
  unfold markDelivered. rewrite map_map. apply map_ext.
  intros r. apply position_setDelivered.
Qed.

Lemma position_countFailure (p : Z) (rows : list Row) :
  map position (countFailure p rows) = map position rows.
Proof.
  unfold countFailure. rewrite map_map. apply map_ext.
  intros r. apply position_setFailed.
Qed.

Lemma insertByAddedAt_perm (r : Row) (rows : list Row) :
  Permutation (insertByAddedAt r rows) (r :: rows).
Proof.
  induction rows as [|x rest IH]; cbn [insertByAddedAt]; [reflexivity|].
  destruct (addedAt r <=? addedAt x); [reflexivity|].
  rewrite IH. apply perm_swap.
Qed.

Lemma orderByAddedAt_perm (rows : list Row) : Permutation (orderByAddedAt rows) rows.
Proof.
  induction rows as [|x rest IH]; cbn [orderByAddedAt fold_right]; [reflexivity|].
  fold (orderByAddedAt rest). rewrite insertByAddedAt_perm. now constructor.
Qed.

Lemma nodup_positions_filter (f : Row -> bool) (rows : list Row) :
  NoDup (map position rows) -> NoDup (map position (filter f rows)).
Proof.
  induction rows as [|x rest IH]; cbn [map filter]; [auto|].
  intros H. apply NoDup_cons_iff in H. destruct H as [Hx Hrest].
  destruct (f x); [|now apply IH].
  cbn [map]. constructor; [|now apply IH].
  intros Hin. apply Hx. apply in_map_iff in Hin.
  destruct Hin as (y & Hy & Hin). apply filter_In in Hin.
  apply in_map_iff. exists y. tauto.
Qed.

Lemma nodup_positions_selectPending (rows : list Row) :
  NoDup (map position rows) -> NoDup (map position (selectPending rows)).
Proof.
  intros H. unfold selectPending.
  set (pending := orderByAddedAt (filter (fun r => negb (delivered r)) rows)).
  assert (Hp : NoDup (map position pending)).
  { eapply Permutation_NoDup.
    - apply Permutation_map. symmetry. apply orderByAddedAt_perm.
    - now apply nodup_positions_filter. }
  rewrite <- (firstn_skipn 10 pending), map_app in Hp.
  now apply NoDup_app_remove_r in Hp.
Qed.

Lemma resume_nextPosition (st : State) :
  nextPosition (resume publish sqlOk st) = nextPosition st.
Proof.
  unfold resume. destruct (running st) as [[|m rest]|]; try reflexivity.
  unfold handleMessage, onCatch, execute.
  destruct (publish _ _); cbn [called statements];
    repeat (destruct (sqlOk _); cbn); destruct rest; reflexivity.
Qed.

Lemma Inv_tick (st : State) : Inv st -> Inv (_processUndeliveredMessages sqlOk st).
Proof.
  intros I. unfold _processUndeliveredMessages.
  destruct (_isProcessing st); [exact I|].
  cbn [withProcessing statements table]. rewrite database_up.
  destruct I as [Hnd Hfr Hct Hcl Hlog Hrun].
  destruct (selectPending (table st)) as [|m sel] eqn:Hsel;
    constructor; cbn; try assumption; intros rows [=]; subst rows.
  split.
  - rewrite <- Hsel. now apply nodup_positions_selectPending.
  - intros m' Hm'. exists m'. repeat split.
    destruct (selectPending_spec (table st)) as (_ & Hall & _).
    rewrite Hsel in Hall. rewrite Forall_forall in Hall. now apply Hall.
Qed.

Lemma Inv_resume (st : State) : Inv st -> Inv (resume publish sqlOk st).
Proof.
  intros I.
  destruct (running st) as [[|m rest]|] eqn:Hrunning;
    try (unfold resume; rewrite Hrunning; exact I).
  pose proof (resume_handles publish sqlOk st m rest Hrunning (database_up _))
    as (Hcalls & Htable & Hrun' & _).
  pose proof (resume_nextPosition st) as Hnext.
  destruct I as [Hnd Hfr Hct Hcl Hlog Hrun].
  destruct (Hrun _ Hrunning) as [Hndrun Hsnap].
  destruct (Hsnap m (or_introl eq_refl)) as (rm & Hrm & Hpm & Hfm).
  set (st' := resume publish sqlOk st) in *.
  set (o := publish (calls st) (envelopeOf m)) in *.
  assert (Hpos : map position (table st') = map position (table st)).
  { rewrite Htable. destruct o;
      [apply position_markDelivered | apply position_countFailure]. }
  constructor.
  - now rewrite Hpos.
  - intros r' Hr'. rewrite Hnext.
    assert (Hin : In (position r') (map position (table st)))
      by (rewrite <- Hpos; now apply in_map).
    apply in_map_iff in Hin. destruct Hin as (r & <- & Hr). now apply Hfr.
  - intros r' Hr'. rewrite Hcalls, failures_snoc. cbn [envelope answer].
    change (env_position (envelopeOf m)) with (position m).
    rewrite Htable in Hr'. destruct o; cbn [returned negb].
    + apply in_map_iff in Hr'. destruct Hr' as (r & <- & Hr).
      rewrite position_setDelivered, failsCount_setDelivered, andb_false_r.
      rewrite (Hct r Hr). lia.
    + apply in_map_iff in Hr'. destruct Hr' as (r & <- & Hr).
      rewrite position_setFailed, failsCount_setFailed, andb_true_r.
      rewrite (Z.eqb_sym (position m)).
      destruct (position r =? position m); cbn [coalesce]; rewrite (Hct r Hr); lia.
  - intros c Hc. rewrite Hnext. rewrite Hcalls in Hc. apply in_app_or in Hc.
    destruct Hc as [Hc|[<-|[]]]; [now apply Hcl|].
    cbn. rewrite <- Hpm. now apply Hfr.
  - rewrite Hcalls. apply consistent_snoc; [exact Hlog|].
    cbn [envelope]. change (env_position (envelopeOf m)) with (position m).
    change (redeliveryCount (envelopeOf m)) with (orZero (failsCount m)).
    rewrite orZero_coalesce, <- Hfm, <- Hpm. now apply Hct.
  - intros rows Hrows. rewrite Hrun' in Hrows.
    destruct rest as [|m2 rest2]; [discriminate|]. injection Hrows as <-.
    cbn [map] in Hndrun. apply NoDup_cons_iff in Hndrun.
    destruct Hndrun as [Hfirst Hndrest]. split; [exact Hndrest|].
    intros m' Hm'.
    destruct (Hsnap m' (or_intror Hm')) as (r & Hr & Hp & Hf).
    assert (Hne : position r <> position m).
    { intros E. apply Hfirst. rewrite <- E, Hp.
      change (In (position m') (map position (m2 :: rest2))). now apply in_map. }
    rewrite Htable. destruct o.
    + exists (setDelivered (position m) (now st) r).
      rewrite position_setDelivered, failsCount_setDelivered.
      repeat split; try assumption. now apply in_map.
    + exists (setFailed (position m) r).
      rewrite position_setFailed, failsCount_setFailed.
      rewrite (proj2 (Z.eqb_neq _ _) Hne).
      repeat split; try assumption. now apply in_map.
Qed.

Lemma Inv_send (st : State) name mId mType payload :
  Inv st -> Inv (send name mId mType payload st).
Proof.
  intros [Hnd Hfr Hct Hcl Hlog Hrun]. constructor; cbn.
  - rewrite map_app. cbn [map position].
    apply NoDup_app; [exact Hnd | repeat constructor; intros [] |].
    intros p Hp [<-|[]]. apply in_map_iff in Hp.
    destruct Hp as (r & E & Hr). specialize (Hfr r Hr). lia.
  - intros r Hr. apply in_app_or in Hr. destruct Hr as [Hr|[<-|[]]].
    + specialize (Hfr r Hr). lia.
    + cbn. lia.
  - intros r Hr. apply in_app_or in Hr. destruct Hr as [Hr|[<-|[]]].
    + now apply Hct.
    + cbn. symmetry. apply failures_absent.
      intros c Hc. specialize (Hcl c Hc). lia.
  - intros c Hc. specialize (Hcl c Hc). lia.
  - exact Hlog.
  - intros rows Hrows. destruct (Hrun rows Hrows) as [Hndr Hsnap].
    split; [exact Hndr|]. intros m Hm.
    destruct (Hsnap m Hm) as (r & Hr & Hp & Hf).
    exists r. repeat split; try assumption. apply in_or_app. now left.
Qed.



Lemma Inv_init : Inv init.
Proof.
  constructor; cbn.
  - constructor.
  - intros r [].
  - intros r [].
  - intros c [].
  - intros pre c post E. destruct pre; discriminate.
  - discriminate.
Qed.

End PollingCounter.

(** * Transactions *)

Section StoreFacts.

Import Store.

Variable Row : Type.
Variable sqlOk : nat -> bool.

Local Abbreviation execute' := (execute Row sqlOk).
Local Abbreviation insertEach' := (insertEach Row sqlOk).
Local Abbreviation lookup' := (lookup Row).

(** The transaction [id] is open, healthy, and holds these writes. *)
Definition inTx (id : nat) (db : t Row) (P : list Row) (B : list Z) : Prop :=
  lookup' id (open db) =
    Some {| pendingRows := P; pendingBusiness := B; aborted := false |}.

(** The committed tables. *)
Definition sameCommitted (db db' : t Row) : Prop :=
  rows db' = rows db /\ business db' = business db.

Lemma sameCommitted_refl db : sameCommitted db db.
Proof. split; reflexivity. Qed.

Lemma sameCommitted_trans db1 db2 db3 :
  sameCommitted db1 db2 -> sameCommitted db2 db3 -> sameCommitted db1 db3.
Proof. unfold sameCommitted. intros [] []. split; congruence. Qed.

Lemma lookup_replace (id : nat) (tx tx0 : Tx Row) (txs : list (nat * Tx Row)) :
  lookup' id txs = Some tx0 -> lookup' id (replace Row id tx txs) = Some tx.
Proof.
  induction txs as [|[i old] rest IH]; cbn [lookup replace]; [discriminate|].
  destruct (Nat.eqb i id) eqn:E; cbn [lookup]; rewrite E; auto.
Qed.

Lemma execute_tx_frame (id : nat) newRows newBusiness db :
  sameCommitted db (snd (execute' (Transaction id) newRows newBusiness db)).
Proof.
  unfold execute. destruct (lookup' id (open db)) as [tx|]; [|split; reflexivity].
  destruct (aborted tx); [split; reflexivity|].
  destruct (sqlOk (statements db)); split; reflexivity.
Qed.

Lemma execute_tx_ok (id : nat) newRows newBusiness db db' P B u :
  inTx id db P B ->
  execute' (Transaction id) newRows newBusiness db = (Ok u, db') ->
  inTx id db' (P ++ newRows (sequence db)) (B ++ newBusiness) /\
  sequence db' = sequence db + Z.of_nat (List.length (newRows (sequence db))).
Proof.
  unfold inTx, execute. intros Hin. rewrite Hin. cbn [aborted pendingRows pendingBusiness].
  destruct (sqlOk (statements db)); [|discriminate].
  intros [= _ <-]. cbn [open sequence]. split; [|reflexivity].
  eapply lookup_replace. exact Hin.
Qed.

Lemma insertEach_tx_frame (id : nat) (makers : list (Z -> Row)) :
  forall db, sameCommitted db (snd (insertEach' (Transaction id) makers db)).
Proof.
  induction makers as [|make rest IH]; intros db; cbn [insertEach].
  - apply sameCommitted_refl.
  - pose proof (execute_tx_frame id (fun seq => [make seq]) [] db) as H.
    destruct (execute' (Transaction id) (fun seq => [make seq]) [] db) as [[u|e] db1];
      cbn [snd] in *; [|exact H].
    eapply sameCommitted_trans; [exact H | apply IH].
Qed.

Lemma insertEach_tx_ok (id : nat) (makers : list (Z -> Row)) :
  forall db db' P B u,
    inTx id db P B ->
    insertEach' (Transaction id) makers db = (Ok u, db') ->
    inTx id db' (P ++ assign (sequence db) makers) B /\
    sequence db' = sequence db + Z.of_nat (List.length makers).
Proof.
  induction makers as [|make rest IH]; intros db db' P B u Hin; cbn [insertEach assign].
  - intros [= _ <-]. rewrite app_nil_r. split; [exact Hin | cbn; lia].
  - destruct (execute' (Transaction id) (fun seq => [make seq]) [] db) as [[u1|e] db1] eqn:E;
      [|discriminate].
    destruct (execute_tx_ok _ _ _ _ _ _ _ _ Hin E) as [Hin1 Hseq1].
    rewrite app_nil_r in Hin1. cbn [List.length] in Hseq1.
    intros E2. destruct (IH _ _ _ _ _ Hin1 E2) as [Hin2 Hseq2].
    rewrite Hseq1 in Hin2. rewrite <- app_assoc in Hin2. cbn [app] in Hin2.
    split; [exact Hin2|]. cbn [List.length]. lia.
Qed.

(** ** The host's code inside a transaction *)

Section HostCode.

Variable Msg : Type.
Variable enqueue : Sql -> Msg -> t Row -> result unit * t Row.
Variable makers : Msg -> list (Z -> Row).

Hypothesis enqueue_frame : forall id m db,
    sameCommitted db (snd (enqueue (Transaction id) m db)).
Hypothesis enqueue_ok : forall id m db db' P B u,
    inTx id db P B -> enqueue (Transaction id) m db = (Ok u, db') ->
    inTx id db' (P ++ assign (sequence db) (makers m)) B /\
    sequence db' = sequence db + Z.of_nat (List.length (makers m)).

Local Abbreviation hostCode' := (hostCode Row sqlOk enqueue).





End HostCode.

(** A transaction is all or nothing: when its body throws, the committed
    tables are as they were; when it returns, what the body wrote is
    committed together. *)
Lemma withTransaction_atomic (fn : Sql -> t Row -> result unit * t Row)
  (R : Z -> list Row) (W : list Z) :
  (forall id db, sameCommitted db (snd (fn (Transaction id) db))) ->
  (forall id db db' P B u,
      inTx id db P B -> fn (Transaction id) db = (Ok u, db') ->
      inTx id db' (P ++ R (sequence db)) (B ++ W)) ->
  forall db,
    match withTransaction Row fn db with
    | (Ok _, db') =>
        rows db' = rows db ++ R (sequence db) /\ business db' = business db ++ W
    | (Throw _, db') => sameCommitted db db'
    end.
Proof.
  intros Hframe Hok db. unfold withTransaction, begin.
  set (db0 := {| rows := rows db; business := business db; open := _;
                 nextTx := S (nextTx db); sequence := sequence db;
                 statements := statements db |}).
  assert (Hin : inTx (nextTx db) db0 [] []).
  { unfold inTx. subst db0. cbn. now rewrite Nat.eqb_refl. }
  pose proof (Hframe (nextTx db) db0) as [Hr Hb].
  destruct (fn (Transaction (nextTx db)) db0) as [[u|e] db1] eqn:E; cbn [snd] in *.
  - specialize (Hok _ _ _ _ _ _ Hin E). cbn [app] in Hok.
    unfold commit. unfold inTx in Hok. rewrite Hok. cbn.
    rewrite Hr, Hb. subst db0. cbn. auto.
  - split; cbn; [exact Hr | exact Hb].
Qed.

End StoreFacts.

(** * The document backend consumer *)

Section Traces.

Context {A : Type}.








End Traces.

Section MongoSegments.

Import Mongo.

Variable publish : list action -> Event -> outcome.
Variable onFailedPublish : list action -> outcome.
Variable stopped : list action -> bool.
Variable dbOk : list action -> bool.
Variable now : list action -> option Z.
Variable saveTimestamps : bool.

(** Actions that neither deliver nor write. *)
Definition idle (a : action) : Prop :=
  match a with
  | FailedPublish | Waited | DbError | Closed => True
  | _ => False
  end.

(** The actions of the attempts to deliver [event]. *)
Definition attempt (event : Event) (a : action) : Prop :=
  match a with
  | Published e _ => e = event
  | a => idle a
  end.












Definition acked (doc : ChangeStreamDocument) : action :=
  Acked (documentKey doc) (resumeToken doc).





(** ** One run of the loop *)

















Local Abbreviation iteration' := (iteration publish onFailedPublish stopped dbOk now saveTimestamps).
Local Abbreviation watch' := (watch publish onFailedPublish stopped dbOk now saveTimestamps).









End MongoSegments.

(** * The log backend consumer: delivery and acknowledgement *)

Section PgDelivery.

Import Pg.

Variable publish : list action -> list HermesMessageEnvelope -> outcome.















End PgDelivery.

(** * Atomic enqueue *)

Section PgEnqueue.

Import Store.

Variable sqlOk : nat -> bool.

Definition pgMessage : Type := (Pg.MessageEnvelope + list Pg.MessageEnvelope) * option string.

Definition pgMakers (m : pgMessage) : list (Z -> Pg.InsertResult) :=
  Pg.makersOf (fst m) (snd m).

(** [queue] given [{ tx }]: every insert goes to that transaction. *)
Definition queueOn (sql : Sql) (m : pgMessage) (db : Pg.Db) : result unit * Pg.Db :=
  match sql with
  | Transaction id =>
      Pg.queue sqlOk (Some Connection) (fst m)
        (Some {| Pg.tx := Some id; Pg.optionsPartitionKey := snd m |}) db
  | Connection =>
      Pg.queue sqlOk (Some Connection) (fst m)
        (Some {| Pg.tx := None; Pg.optionsPartitionKey := snd m |}) db
  end.


Lemma queueOn_ok (id : nat) (m : pgMessage) (db db' : Pg.Db) P B u :
  inTx Pg.InsertResult id db P B ->
  queueOn (Transaction id) m db = (Ok u, db') ->
  inTx Pg.InsertResult id db' (P ++ assign (sequence db) (pgMakers m)) B /\
  sequence db' = sequence db + Z.of_nat (List.length (pgMakers m)).
Proof.
  destruct m as [[m|ms] pKey]; unfold queueOn, Pg.queue, pgMakers, Pg.makersOf;
    cbn [fst snd Pg.tx Pg.optionsPartitionKey hasSavepoint]; intros Hin E.
  - unfold Pg._publishOne in E.
    destruct (execute_tx_ok _ _ _ _ _ _ _ _ _ _ Hin E) as [H1 H2].
    rewrite app_nil_r in H1. split; assumption.
  - unfold Pg.publishEach in E.
    destruct (insertEach_tx_ok _ _ _ _ _ _ _ _ _ Hin E) as [H1 H2]. split; assumption.
Qed.


(** Without a transaction [queue] is still all or nothing: one statement
    for one message, a transaction of its own for an array. *)
Lemma queue_alone (message : Pg.MessageEnvelope + list Pg.MessageEnvelope)
  (pKey : option string) (db : Pg.Db) :
  match Pg.queue sqlOk (Some Connection) message
          (Some {| Pg.tx := None; Pg.optionsPartitionKey := pKey |}) db with
  | (Ok _, db') =>
      rows db' = rows db ++ assign (sequence db) (Pg.makersOf message pKey) /\
      business db' = business db
  | (Throw _, db') => rows db' = rows db /\ business db' = business db
  end.
Proof.
  destruct message as [m|ms]; cbn [Pg.queue Pg.tx Pg.optionsPartitionKey hasSavepoint].
  - unfold Pg._publishOne, execute.
    destruct (sqlOk (statements db)); cbn; rewrite ?app_nil_r; auto.
  - pose proof (withTransaction_atomic Pg.InsertResult
                  (fun sql => Pg.publishEach sqlOk sql ms (Pg.orDefault pKey))
                  (fun seq => assign seq (Pg.makersOf (inr ms) pKey)) []) as H.
    specialize (H (fun id db0 => insertEach_tx_frame _ _ _ _ db0)).
    assert (Hok : forall (id : nat) (db0 db' : Pg.Db) P B u,
               inTx Pg.InsertResult id db0 P B ->
               Pg.publishEach sqlOk (Transaction id) ms (Pg.orDefault pKey) db0 = (Ok u, db') ->
               inTx Pg.InsertResult id db' (P ++ assign (sequence db0) (Pg.makersOf (inr ms) pKey))
                 (B ++ [])).
    { intros id db0 db' P B u Hin E. rewrite app_nil_r.
      exact (proj1 (insertEach_tx_ok _ _ _ _ _ _ _ _ _ Hin E)). }
    specialize (H Hok db).
    destruct (withTransaction _ _ db) as [[u|e] db']; [|exact H].
    now rewrite app_nil_r in H.
Qed.

End PgEnqueue.

Section MongoEnqueue.

Import Store.

Variable sqlOk : nat -> bool.
Variable pKey : string.
Variable today : Z.

Local Abbreviation Doc := Mongo.OutboxMessageModel.
Local Abbreviation makers := (Mongo.makersOf pKey today).
Local Abbreviation addMessage' := (Mongo.addMessage sqlOk pKey today).








End MongoEnqueue.



(** * Acknowledgement follows delivery *)




(** * Stopping *)

Section StopHandle.

Import Lifecycle.

Variable driver : list driverCall -> driverCall -> option (list Z).

(** A step of the teardown keeps the consumer and adds its calls. *)
Definition extends (h h' : Handle) (added : list driverCall) : Prop :=
  slotName h' = slotName h /\ hasAsyncOutbox h' = hasAsyncOutbox h /\
  driverCalls h' = driverCalls h ++ added.

Lemma extends_refl h : extends h h [].
Proof. unfold extends. now rewrite app_nil_r. Qed.

Lemma extends_trans h1 h2 h3 a b :
  extends h1 h2 a -> extends h2 h3 b -> extends h1 h3 (a ++ b).
Proof.
  unfold extends. intros (S1 & A1 & C1) (S2 & A2 & C2).
  rewrite S2, S1, A2, A1, C2, C1, app_assoc. auto.
Qed.

Lemma call_extends c h : extends h (snd (call driver c h)) [c].
Proof. unfold extends. cbn. auto. Qed.

Lemma attempt_extends c h : extends h (swallow (attempt driver c) h) [c].
Proof.
  unfold swallow, attempt. pose proof (call_extends c h) as H.
  destruct (call driver c h) as [[rows|] h']; exact H.
Qed.

Lemma terminateAll_extends pids :
  forall h, exists ks, extends h (snd (terminateAll driver pids h)) ks /\
                       forallb isKill ks = true.
Proof.
  induction pids as [|pid rest IH]; intros h; cbn [terminateAll].
  - exists []. split; [apply extends_refl | reflexivity].
  - pose proof (call_extends (TerminateBackend pid) h) as H.
    destruct (call driver (TerminateBackend pid) h) as [[rows|] h1]; cbn [snd] in *.
    + destruct (IH h1) as (ks & Hks & Hall).
      exists ([TerminateBackend pid] ++ ks). split.
      * eapply extends_trans; eassumption.
      * cbn. exact Hall.
    + exists [TerminateBackend pid]. split; [exact H | reflexivity].
Qed.

Lemma killMatching_extends select h :
  isKill select = true ->
  extends h (swallow (killMatching driver select) h) [select] \/
  exists ks, extends h (swallow (killMatching driver select) h) (select :: ks) /\
             forallb isKill ks = true.
Proof.
  intros Hsel. unfold swallow, killMatching.
  pose proof (call_extends select h) as H.
  destruct (call driver select h) as [[pids|] h1]; cbn [snd] in *.
  - right. destruct (terminateAll_extends pids h1) as (ks & Hks & Hall).
    exists ks. split; [|exact Hall].
    exact (extends_trans _ _ _ [select] ks H Hks).
  - now left.
Qed.

Lemma kill_extends (h : Handle) :
  exists kills,
    forallb isKill kills = true /\
    hd_error kills = Some (SelectStreaming (slotName h)) /\
    extends h (swallow (killReplicationProcesses driver) h) kills.
Proof.
  unfold swallow at 1. unfold killReplicationProcesses. cbn [snd].
  set (h1 := swallow (killMatching driver (SelectStreaming (slotName h))) h).
  assert (H1 : exists k1, extends h h1 (SelectStreaming (slotName h) :: k1) /\
                          forallb isKill k1 = true).
  { destruct (killMatching_extends (SelectStreaming (slotName h)) h eq_refl)
      as [H|(ks & H & Hall)]; [exists [] | exists ks]; auto. }
  destruct H1 as (k1 & He1 & Hk1).
  assert (H2 : exists k2,
             extends h1 (swallow (killMatching driver (SelectIdle (slotName h1))) h1)
               (SelectIdle (slotName h1) :: k2) /\
             forallb isKill k2 = true).
  { destruct (killMatching_extends (SelectIdle (slotName h1)) h1 eq_refl)
      as [H|(ks & H & Hall)]; [exists [] | exists ks]; auto. }
  destruct H2 as (k2 & He2 & Hk2).
  exists ((SelectStreaming (slotName h) :: k1) ++ SelectIdle (slotName h1) :: k2).
  split; [|split].
  - rewrite forallb_app. cbn [forallb isKill]. now rewrite Hk1, Hk2.
  - reflexivity.
  - exact (extends_trans _ _ _ _ _ He1 He2).
Qed.

(** One call of the handle: it returns normally, having first tried to
    terminate the backends on the slot, then asked to end the query
    connection, to end the replication connection, set the timer the
    latter is raced against, and stopped the auxiliary consumer when
    there is one; [_state] is cleared. *)
Lemma stop_once (h : Handle) :
  fst (stop driver h) = Ok tt /\
  _state (snd (stop driver h)) = None /\
  exists kills,
    forallb isKill kills = true /\
    hd_error kills = Some (SelectStreaming (slotName h)) /\
    extends h (snd (stop driver h))
      (kills ++
       [EndQueryConnection 1000; EndReplicationConnection 1000; SetTimeout 1000] ++
       (if hasAsyncOutbox h then [StopAsyncOutbox] else [])).
Proof.
  unfold stop. change (ofSeconds 1) with (@Ok Z 1000). cbv zeta.
  set (h1 := swallow (killReplicationProcesses driver) h).
  set (h2 := swallow (attempt driver (EndQueryConnection 1000)) h1).
  set (h3 := swallow (attempt driver (EndReplicationConnection 1000)) h2).
  set (h4 := snd (call driver (SetTimeout 1000) h3)).
  set (h5 := if hasAsyncOutbox h4 then swallow (attempt driver StopAsyncOutbox) h4 else h4).
  cbn [fst snd _state].
  split; [reflexivity|]. split; [reflexivity|].
  destruct (kill_extends h) as (kills & Hkills & Hhd & He1). fold h1 in He1.
  pose proof (attempt_extends (EndQueryConnection 1000) h1) as He2. fold h2 in He2.
  pose proof (attempt_extends (EndReplicationConnection 1000) h2) as He3. fold h3 in He3.
  pose proof (call_extends (SetTimeout 1000) h3) as He4. fold h4 in He4.
  assert (He5 : extends h4 h5 (if hasAsyncOutbox h then [StopAsyncOutbox] else [])).
  { assert (Ha : hasAsyncOutbox h4 = hasAsyncOutbox h).
    { destruct He1 as (_ & A1 & _), He2 as (_ & A2 & _), He3 as (_ & A3 & _),
        He4 as (_ & A4 & _). congruence. }
    subst h5. rewrite Ha. destruct (hasAsyncOutbox h).
    - apply attempt_extends.
    - apply extends_refl. }
  exists kills. split; [exact Hkills|]. split; [exact Hhd|].
  pose proof (extends_trans _ _ _ _ _ He1
                (extends_trans _ _ _ _ _ He2
                   (extends_trans _ _ _ _ _ He3
                      (extends_trans _ _ _ _ _ He4 He5)))) as H.
  unfold extends in *. cbn [slotName hasAsyncOutbox driverCalls].
  destruct H as (Hs & Ha & Hc). split; [exact Hs|]. split; [exact Ha|].
  exact Hc.
Qed.

Lemma teardowns_app (a b : list driverCall) : teardowns (a ++ b) = (teardowns a + teardowns b)%nat.
Proof. unfold teardowns. now rewrite filter_app, length_app. Qed.

Lemma teardowns_kills (ks : list driverCall) : forallb isKill ks = true -> teardowns ks = 0%nat.
Proof.
  unfold teardowns. induction ks as [|k ks IH]; [reflexivity|].
  cbn [forallb]. intros H. apply andb_true_iff in H. destruct H as [Hk Hks].
  cbn [filter]. destruct k; try discriminate; now apply IH.
Qed.

(** The handle called [n] times returns normally [n] times, and goes
    through the teardown each time. *)
Lemma stop_many (n : nat) :
  forall h,
    fst (stopTimes driver n h) = repeat (Ok tt) n /\
    teardowns (driverCalls (snd (stopTimes driver n h))) =
      (teardowns (driverCalls h) + n)%nat.
Proof.
  induction n as [|n IH]; intros h; cbn [stopTimes repeat].
  - cbn. split; [reflexivity | lia].
  - destruct (stop_once h) as (Hok & _ & kills & Hkills & _ & (Hs & Ha & Hc)).
    destruct (stop driver h) as [r h1]. cbn [fst snd] in *.
    destruct (IH h1) as [Hrs Ht].
    destruct (stopTimes driver n h1) as [rs h2]. cbn [fst snd] in *.
    split; [now rewrite Hok, Hrs|].
    rewrite Ht, Hc, !teardowns_app, (teardowns_kills kills Hkills).
    destruct (hasAsyncOutbox h); cbn; lia.
Qed.

End StopHandle.

Lemma mongo_stop_once (n : nat) (st : Mongo.State) :
  Mongo.closed st = false -> Mongo.stopTimes (S n) st = Mongo.close st.
Proof.
  intros H. cbn [Mongo.stopTimes]. unfold Mongo.stop at 1. rewrite H. cbn [negb].
  assert (Hc : Mongo.closed (Mongo.close st) = true) by reflexivity.
  generalize dependent (Mongo.close st). clear H st.
  induction n as [|n IH]; intros st Hc; cbn [Mongo.stopTimes]; [reflexivity|].
  unfold Mongo.stop at 1. rewrite Hc. cbn [negb]. now apply IH.
Qed.

Lemma mongo_stop_closed (n : nat) (st : Mongo.State) :
  Mongo.closed st = true -> Mongo.stopTimes n st = st.
Proof.
  revert st. induction n as [|n IH]; intros st Hc; cbn [Mongo.stopTimes]; [reflexivity|].
  unfold Mongo.stop at 1. rewrite Hc. cbn [negb]. now apply IH.
Qed.

(** C7, as the code has it. The stop handle called [n] times returns
    normally each of the [n] times. On the log backend every call goes
    through the teardown again, each step with its failure swallowed:
    first the best-effort termination of the backend sessions on the slot,
    then the calls that end the query connection and the replication
    connection (both with a timeout of 1000 ms, the latter raced against a
    timer) and the stop of the auxiliary consumer, which are started
    together in that order. On the document backend the handle closes the
    change stream on its first call and does nothing afterwards. *)
Theorem stop_handle_repeated :
  (forall driver n h,
     fst (Lifecycle.stopTimes driver n h) = repeat (Ok tt) n /\
     Lifecycle.teardowns (Lifecycle.driverCalls (snd (Lifecycle.stopTimes driver n h))) =
       (Lifecycle.teardowns (Lifecycle.driverCalls h) + n)%nat) /\
  (forall driver h,
     fst (Lifecycle.stop driver h) = Ok tt /\
     Lifecycle._state (snd (Lifecycle.stop driver h)) = None /\
     exists kills,
       forallb Lifecycle.isKill kills = true /\
       hd_error kills = Some (Lifecycle.SelectStreaming (Lifecycle.slotName h)) /\
       Lifecycle.driverCalls (snd (Lifecycle.stop driver h)) =
         Lifecycle.driverCalls h ++ kills ++
         [Lifecycle.EndQueryConnection 1000; Lifecycle.EndReplicationConnection 1000;
          Lifecycle.SetTimeout 1000] ++
         (if Lifecycle.hasAsyncOutbox h then [Lifecycle.StopAsyncOutbox] else [])) /\
  (forall n st, Mongo.closed st = false ->
     Mongo.stopTimes (S n) st = Mongo.close st /\
     Mongo.trace (Mongo.stopTimes (S n) st) = Mongo.trace st ++ [Mongo.Closed]) /\
  (forall n st, Mongo.closed st = true -> Mongo.stopTimes n st = st).
Proof.
  split; [intros driver n h; apply stop_many|].
  split.
  { intros driver h. destruct (stop_once driver h) as (H1 & H2 & kills & H3 & H4 & _ & _ & H5).
    split; [exact H1|]. split; [exact H2|]. exists kills. auto. }
  split.
  - intros n st H. rewrite (mongo_stop_once n st H). split; reflexivity.
  - intros n st H. now apply mongo_stop_closed.
Qed.

(** * Starting twice *)

Section TwoStarts.

Import Lifecycle.

Variable consumerName partitionKey : string.

Local Abbreviation resume' := (resume consumerName partitionKey).
Local Abbreviation interleave' := (interleave consumerName partitionKey).

Definition taken : js_error := HermesConsumerAlreadyTakenError consumerName partitionKey.

Definition rank (p : Phase) : nat :=
  match p with
  | Unstarted => 3
  | Migrated => 2
  | Loaded => 1
  | _ => 0
  end.

Definition waiting (c : ConsumerObject) : Prop := (0 < rank (phase c))%nat.

Definition opened (c : ConsumerObject) : Prop :=
  phase c = Unstarted \/ (_sql c = Some Store.Connection /\ consumerState c <> None).

(** Who holds the slot is the one consumer that runs. *)
Definition exclusive (w : World) : Prop :=
  opened (first w) /\ opened (second w) /\
  match slotActiveFor (engine w) with
  | None => waiting (first w) /\ waiting (second w)
  | Some true =>
      phase (first w) = Running /\ (waiting (second w) \/ phase (second w) = Failed taken)
  | Some false =>
      phase (second w) = Running /\ (waiting (first w) \/ phase (first w) = Failed taken)
  end.

Lemma onStartError_taken :
  onStartError consumerName partitionKey (PostgresError "ReplicationSlotAcquire" "55006")
  = taken.
Proof. reflexivity. Qed.

Lemma exclusive_initial : exclusive initial.
Proof.
  unfold exclusive, opened, waiting. cbn. repeat split; auto; lia.
Qed.

Lemma exclusive_resume (w : World) (who : bool) : exclusive w -> exclusive (resume' w who).
Proof.
  destruct w as [[holder exists_ row] [sql1 st1 p1] [sql2 st2 p2]].
  unfold exclusive, opened, waiting, resume, startStep, createOrLoad,
    startLogicalReplication, migrate.
  cbn [engine first second phase _sql consumerState slotActiveFor slotExists stateRow].
  intros (O1 & O2 & H).
  destruct who; [destruct p1 | destruct p2];
    destruct holder as [[|]|]; destruct row as [r|];
    cbn [engine first second phase _sql consumerState slotActiveFor slotExists stateRow
         rank fst snd];
    repeat match goal with
           | H : _ /\ _ |- _ => destruct H
           | H : (0 < 0)%nat |- _ => inversion H
           | H : Running = _ |- _ => discriminate H
           | H : _ = Running |- _ => discriminate H
           | H : Unstarted = _ |- _ => discriminate H
           | H : Migrated = _ |- _ => discriminate H
           | H : Loaded = _ |- _ => discriminate H
           | H : Failed _ = _ |- _ => discriminate H
           end;
    try (repeat split; auto; try lia;
         try (right; split; [reflexivity | try discriminate]);
         try (destruct st1; right; split; [reflexivity | discriminate]);
         try (destruct st2; right; split; [reflexivity | discriminate]);
         intuition (try discriminate; try lia; auto));
    try congruence;
    try (destruct st1; discriminate); try (destruct st2; discriminate).
Qed.

Definition turns (who : bool) (schedule : list bool) : nat :=
  count_occ Bool.bool_dec schedule who.

Lemma rank_resume (w : World) (who : bool) :
  rank (phase (first (resume' w who))) =
    (if who then pred (rank (phase (first w))) else rank (phase (first w))) /\
  rank (phase (second (resume' w who))) =
    (if who then rank (phase (second w)) else pred (rank (phase (second w)))).
Proof.
  destruct w as [[holder exists_ row] [sql1 st1 p1] [sql2 st2 p2]].
  unfold resume, startStep, createOrLoad, startLogicalReplication.
  cbn [engine first second phase slotActiveFor stateRow].
  destruct who; [destruct p1 | destruct p2];
    destruct holder as [[|]|]; destruct row; cbn; auto.
Qed.

Lemma rank_interleave (schedule : list bool) :
  forall w,
    rank (phase (first (interleave' schedule w))) =
      (rank (phase (first w)) - turns true schedule)%nat /\
    rank (phase (second (interleave' schedule w))) =
      (rank (phase (second w)) - turns false schedule)%nat.
Proof.
  unfold interleave, turns.
  induction schedule as [|who rest IH]; intros w; cbn [fold_left count_occ].
  - split; lia.
  - destruct (IH (resume' w who)) as [H1 H2].
    destruct (rank_resume w who) as [R1 R2].
    rewrite H1, H2, R1, R2.
    destruct who;
      repeat match goal with
             | |- context [Bool.bool_dec ?a ?b] =>
                 destruct (Bool.bool_dec a b); try discriminate; try congruence
             end;
      split; lia.
Qed.

Lemma exclusive_interleave (schedule : list bool) :
  forall w, exclusive w -> exclusive (interleave' schedule w).
Proof.
  unfold interleave.
  induction schedule as [|who rest IH]; intros w H; cbn [fold_left]; [exact H|].
  apply IH. now apply exclusive_resume.
Qed.

(** The failing step: the engine refuses the slot and the call fails
    with [ConsumerAlreadyTaken], the engine left as it was. *)
Lemma refused (me : bool) (e : Engine) (c : ConsumerObject) :
  phase c = Loaded -> slotActiveFor e <> None ->
  startStep consumerName partitionKey me e c =
    (e, {| _sql := _sql c; consumerState := consumerState c; phase := Failed taken |}).
Proof.
  intros Hp Hs. unfold startStep, startLogicalReplication. rewrite Hp.
  destruct (slotActiveFor e); [reflexivity | congruence].
Qed.

End TwoStarts.

(** C4, as the code has it. Of two [start()] calls for the same consumer
    name and partition key, however their awaits interleave, exactly one
    returns and holds the slot, and the other fails with
    [ConsumerAlreadyTaken], which is what the engine's refusal of the slot
    is turned into. The refused step leaves the engine and the running
    consumer as they are; by then the failing call has opened its
    connection and set its state object, and has run the migration and the
    load-or-create of the consumer-state row. *)
Theorem one_start_wins (consumerName partitionKey : string) (schedule : list bool)
  (Hfirst : (3 <= turns true schedule)%nat) (Hsecond : (3 <= turns false schedule)%nat) :
  let w := Lifecycle.interleave consumerName partitionKey schedule Lifecycle.initial in
  let takenError := HermesConsumerAlreadyTakenError consumerName partitionKey in
  ((Lifecycle.phase (Lifecycle.first w) = Lifecycle.Running /\
    Lifecycle.phase (Lifecycle.second w) = Lifecycle.Failed takenError /\
    Lifecycle.slotActiveFor (Lifecycle.engine w) = Some true) \/
   (Lifecycle.phase (Lifecycle.second w) = Lifecycle.Running /\
    Lifecycle.phase (Lifecycle.first w) = Lifecycle.Failed takenError /\
    Lifecycle.slotActiveFor (Lifecycle.engine w) = Some false)) /\
  Lifecycle._sql (Lifecycle.first w) = Some Store.Connection /\
  Lifecycle._sql (Lifecycle.second w) = Some Store.Connection /\
  Lifecycle.consumerState (Lifecycle.first w) <> None /\
  Lifecycle.consumerState (Lifecycle.second w) <> None /\
  (forall me e c,
     Lifecycle.phase c = Lifecycle.Loaded -> Lifecycle.slotActiveFor e <> None ->
     Lifecycle.startStep consumerName partitionKey me e c =
       (e, {| Lifecycle._sql := Lifecycle._sql c;
              Lifecycle.consumerState := Lifecycle.consumerState c;
              Lifecycle.phase := Lifecycle.Failed takenError |})) /\
  Lifecycle.onStartError consumerName partitionKey
    (PostgresError "ReplicationSlotAcquire" "55006") = takenError.
Proof.
  intros w takenError.
  pose proof (exclusive_interleave consumerName partitionKey schedule Lifecycle.initial
                (exclusive_initial consumerName partitionKey)) as (O1 & O2 & H).
  destruct (rank_interleave consumerName partitionKey schedule Lifecycle.initial) as [R1 R2].
  fold w in O1, O2, H, R1, R2. cbn [Lifecycle.initial Lifecycle.first Lifecycle.second
                                    Lifecycle.fresh Lifecycle.phase rank] in R1, R2.
  assert (D1 : rank (Lifecycle.phase (Lifecycle.first w)) = 0%nat) by lia.
  assert (D2 : rank (Lifecycle.phase (Lifecycle.second w)) = 0%nat) by lia.
  assert (N1 : Lifecycle.phase (Lifecycle.first w) <> Lifecycle.Unstarted)
    by (intros E; rewrite E in D1; discriminate).
  assert (N2 : Lifecycle.phase (Lifecycle.second w) <> Lifecycle.Unstarted)
    by (intros E; rewrite E in D2; discriminate).
  unfold opened in O1, O2. unfold waiting in H.
  destruct O1 as [O1|[O1 S1]]; [contradiction|].
  destruct O2 as [O2|[O2 S2]]; [contradiction|].
  split; [|repeat split; auto using refused].
  destruct (Lifecycle.slotActiveFor (Lifecycle.engine w)) as [[|]|].
  - left. destruct H as [Hr [Hw|Hf]]; [lia|]. auto.
  - right. destruct H as [Hr [Hw|Hf]]; [lia|]. auto.
  - lia.
Qed.

(** Two [start()] calls, the second of which migrates and loads its state
    before the first runs to the end and takes the slot: the second fails
    with [ConsumerAlreadyTaken], yet it has created the consumer-state row,
    opened its connection and set its state object. *)
Lemma losing_start_has_written :
  let schedule := [false; false; true; true; true; false] in
  let w := Lifecycle.interleave "orders" "default" schedule Lifecycle.initial in
  let early := Lifecycle.interleave "orders" "default" [false; false] Lifecycle.initial in
  Lifecycle.phase (Lifecycle.second w) =
    Lifecycle.Failed (HermesConsumerAlreadyTakenError "orders" "default") /\
  Lifecycle.phase (Lifecycle.first w) = Lifecycle.Running /\
  Lifecycle.phase (Lifecycle.first early) = Lifecycle.Unstarted /\
  Lifecycle.stateRow (Lifecycle.engine Lifecycle.initial) = None /\
  Lifecycle.stateRow (Lifecycle.engine early) <> None /\
  Lifecycle.slotExists (Lifecycle.engine Lifecycle.initial) = false /\
  Lifecycle.slotExists (Lifecycle.engine early) = true /\
  Lifecycle._sql (Lifecycle.second Lifecycle.initial) = None /\
  Lifecycle._sql (Lifecycle.second w) <> None /\
  Lifecycle.consumerState (Lifecycle.second Lifecycle.initial) = None /\
  Lifecycle.consumerState (Lifecycle.second w) <> None.
Proof.
  cbn. repeat split; try reflexivity; discriminate.
Qed.

Lemma one_start_wins_witness :
  let w := Lifecycle.interleave "orders" "default"
             [true; false; false; true; false; true] Lifecycle.initial in
  Lifecycle.phase (Lifecycle.second w) = Lifecycle.Running /\
  Lifecycle.phase (Lifecycle.first w) =
    Lifecycle.Failed (HermesConsumerAlreadyTakenError "orders" "default") /\
  Lifecycle.slotActiveFor (Lifecycle.engine w) = Some false.
Proof.
  intros w.
  destruct (one_start_wins "orders" "default" [true; false; false; true; false; true])
    as [[(H1 & _ & H3)|Hw] _]; [cbn; lia | cbn; lia | | exact Hw].
  cbn in H3. discriminate H3.
Defined.

(** A handle called twice on a consumer without auxiliary outbox, the
    drivers answering every call and finding no session on the slot: the
    teardown is gone through twice, and each time the query connection is
    asked to end before the replication connection. *)
Lemma stop_twice_tears_down_twice :
  let driver := fun (_ : list Lifecycle.driverCall) (_ : Lifecycle.driverCall) =>
                  Some (@nil Z) in
  let h := {| Lifecycle.slotName := "hermes_slot"; Lifecycle.hasAsyncOutbox := false;
              Lifecycle._state := Some {| Pg.lastProcessedLsn := 0;
                                          Pg.stateRedeliveryCount := 0 |};
              Lifecycle.driverCalls := [] |} in
  let once :=
    [Lifecycle.SelectStreaming "hermes_slot"; Lifecycle.SelectIdle "hermes_slot";
     Lifecycle.EndQueryConnection 1000; Lifecycle.EndReplicationConnection 1000;
     Lifecycle.SetTimeout 1000] in
  fst (Lifecycle.stopTimes driver 2 h) = [Ok tt; Ok tt] /\
  Lifecycle.driverCalls (snd (Lifecycle.stopTimes driver 1 h)) = once /\
  Lifecycle.driverCalls (snd (Lifecycle.stopTimes driver 2 h)) = once ++ once /\
  Lifecycle.teardowns (Lifecycle.driverCalls (snd (Lifecycle.stopTimes driver 2 h))) <> 1%nat.
Proof.
  cbn. repeat split; try reflexivity. discriminate.
Qed.

Lemma stop_handle_repeated_witness :
  let st := {| Mongo.messages := [];
               Mongo.consumer :=
                 {| Mongo.lastProcessedId := None; Mongo.consumerResumeToken := None;
                    Mongo.consumerPartitionKey := "default";
                    Mongo.lastUpdatedAt := None; Mongo.createdAt := 0 |};
               Mongo.closed := false; Mongo.trace := [] |} in
  Mongo.stopTimes 3 st = Mongo.close st /\
  Mongo.trace (Mongo.stopTimes 3 st) = Mongo.trace st ++ [Mongo.Closed].
Proof.
  intros st.
  exact (proj1 (proj2 (proj2 stop_handle_repeated)) 2%nat st eq_refl).
Defined.

(** * The pipelined publishing queue *)

Section PipelinedFacts.

Import Pipelined.

(** What [drain] does: it moves one common prefix of the outstanding
    batches and of the heap to the acknowledgements, and stops where the
    two differ. *)
Lemma drain_spec (waiting : list Z) :
  forall heap done,
    exists popped,
      waiting = popped ++ fst (fst (drain waiting heap done)) /\
      heap = popped ++ snd (fst (drain waiting heap done)) /\
      snd (drain waiting heap done) = done ++ popped /\
      match fst (fst (drain waiting heap done)), snd (fst (drain waiting heap done)) with
      | p :: _, least :: _ => least <> p
      | _, _ => True
      end.
Proof.
  induction waiting as [|p rest IH]; intros heap done; cbn [drain].
  - exists []. cbn. rewrite app_nil_r. auto.
  - destruct heap as [|least heap'].
    + exists []. cbn. rewrite app_nil_r. auto.
    + destruct (Z.eqb_spec least p) as [->|Hne].
      * destruct (IH heap' (done ++ [p])) as (popped & H1 & H2 & H3 & H4).
        exists (p :: popped). cbn [app].
        rewrite <- H1, <- H2, H3, <- app_assoc. auto.
      * exists []. cbn. rewrite app_nil_r. auto.
Qed.

Lemma heapInsert_In (p x : Z) (heap : list Z) :
  In x (heapInsert p heap) <-> x = p \/ In x heap.
Proof.
  induction heap as [|y rest IH]; cbn [heapInsert In]; [intuition|].
  destruct (Z.ltb_spec p y); [cbn [In]; intuition|].
  destruct (Z.eqb_spec p y); cbn [In]; [subst; intuition|].
  rewrite IH. intuition.
Qed.

Lemma heapInsert_sorted (p : Z) (heap : list Z) :
  StronglySorted Z.lt heap -> StronglySorted Z.lt (heapInsert p heap).
Proof.
  induction 1 as [|y rest Hs IH Hy]; cbn [heapInsert].
  - repeat constructor.
  - destruct (Z.ltb_spec p y) as [Hlt|Hge].
    + constructor; [now constructor|]. constructor; [exact Hlt|].
      eapply Forall_impl; [|exact Hy]. intros; lia.
    + destruct (Z.eqb_spec p y) as [->|Hne]; [now constructor|].
      constructor; [exact IH|].
      apply Forall_forall. intros x Hx. apply heapInsert_In in Hx.
      destruct Hx as [->|Hx]; [lia|].
      rewrite Forall_forall in Hy. now apply Hy.
Qed.

Lemma sorted_NoDup (l : list Z) : StronglySorted Z.lt l -> NoDup l.
Proof.
  induction 1 as [|x l Hs IH Hx]; constructor; [|exact IH].
  intros Hin. rewrite Forall_forall in Hx. specialize (Hx x Hin). lia.
Qed.

Lemma sorted_suffix (a b : list Z) :
  StronglySorted Z.lt (a ++ b) -> StronglySorted Z.lt b.
Proof.
  induction a as [|x a IH]; cbn [app]; [auto|].
  intros H. apply StronglySorted_inv in H. now apply IH.
Qed.

Lemma NoDup_app_disjoint (a b : list Z) (x : Z) :
  NoDup (a ++ b) -> In x a -> In x b -> False.
Proof.
  induction a as [|y a IH]; cbn [app In]; [tauto|].
  intros H [->|Ha] Hb; apply NoDup_cons_iff in H; destruct H as [Hy Hnd].
  - apply Hy. apply in_or_app. now right.
  - now apply IH.
Qed.

(** ** Safety, for any events *)

(** The heap is ascending and holds outstanding batches only; the bound
    on the outstanding batches is kept. *)
Definition tidy (q : Queue) : Prop :=
  StronglySorted Z.lt (ready q) /\ incl (ready q) (outstanding q) /\
  (List.length (outstanding q) <= maxOutstanding q)%nat.


Lemma complete_spec (p : Z) (q : Queue) :
  exists popped,
    outstanding q = popped ++ outstanding (complete p q) /\
    acked (complete p q) = acked q ++ popped /\
    maxOutstanding (complete p q) = maxOutstanding q /\
    (existsb (Z.eqb p) (outstanding q) = false ->
     popped = [] /\ ready (complete p q) = ready q) /\
    (existsb (Z.eqb p) (outstanding q) = true ->
     heapInsert p (ready q) = popped ++ ready (complete p q) /\
     match outstanding (complete p q), ready (complete p q) with
     | oldest :: _, least :: _ => least <> oldest
     | _, _ => True
     end).
Proof.
  unfold complete. destruct (existsb (Z.eqb p) (outstanding q)) eqn:E.
  - destruct (drain_spec (outstanding q) (heapInsert p (ready q)) (acked q))
      as (popped & H1 & H2 & H3 & H4).
    destruct (drain _ _ _) as [[waiting heap] done]. cbn in *.
    exists popped. repeat split; try assumption; discriminate.
  - exists []. cbn. rewrite app_nil_r. repeat split; try reflexivity; discriminate.
Qed.

Lemma tidy_complete (p : Z) (q : Queue) : tidy q -> tidy (complete p q).
Proof.
  intros (Hs & Hin & Hb).
  destruct (complete_spec p q) as (popped & H1 & H2 & H3 & Hno & Hyes).
  destruct (existsb (Z.eqb p) (outstanding q)) eqn:E.
  - destruct (Hyes eq_refl) as [Hheap _].
    assert (Hsorted : StronglySorted Z.lt (popped ++ ready (complete p q)))
      by (rewrite <- Hheap; now apply heapInsert_sorted).
    split; [now apply sorted_suffix in Hsorted|]. split.
    + intros x Hx.
      assert (Hq : In x (outstanding q)).
      { assert (Hx' : In x (heapInsert p (ready q)))
          by (rewrite Hheap; apply in_or_app; now right).
        apply heapInsert_In in Hx'. destruct Hx' as [->|Hx']; [|now apply Hin].
        apply existsb_exists in E. destruct E as (y & Hy & Hpy).
        apply Z.eqb_eq in Hpy. now subst. }
      rewrite H1 in Hq. apply in_app_or in Hq. destruct Hq as [Hq|Hq]; [|exact Hq].
      exfalso. apply (NoDup_app_disjoint popped (ready (complete p q)) x); auto.
      now apply sorted_NoDup.
    + rewrite H3. rewrite H1, length_app in Hb. lia.
  - destruct (Hno eq_refl) as [-> Hr]. cbn in H1.
    unfold tidy. rewrite Hr, <- H1, H3. auto.
Qed.





(** ** Every completion order acknowledges everything *)

(** The oldest outstanding batch is not ready: it would have been
    acknowledged. *)
Definition drained (q : Queue) : Prop :=
  match outstanding q, ready q with
  | oldest :: _, least :: _ => least <> oldest
  | _, _ => True
  end.

(** The batches of [finished] that are still outstanding are ready. *)
Definition held (finished : list Z) (q : Queue) : Prop :=
  forall x, In x finished -> In x (outstanding q) -> In x (ready q).

Lemma drained_oldest (q : Queue) (oldest : Z) (rest : list Z) :
  StronglySorted Z.lt (outstanding q) -> tidy q -> drained q ->
  outstanding q = oldest :: rest -> ~ In oldest (ready q).
Proof.
  intros Hso (Hsr & Hin & _) Hd Ho Hready. unfold drained in Hd. rewrite Ho in *.
  destruct (ready q) as [|least heap] eqn:Hr; [destruct Hready|].
  apply StronglySorted_inv in Hsr. destruct Hsr as [_ Hleast].
  apply StronglySorted_inv in Hso. destruct Hso as [_ Holdest].
  rewrite Forall_forall in Hleast, Holdest.
  assert (Hl : In least (oldest :: rest)) by (apply Hin; now left).
  destruct Hl as [Hl|Hl]; [congruence|]. specialize (Holdest _ Hl).
  destruct Hready as [Hready|Hready]; [congruence|].
  specialize (Hleast _ Hready). lia.
Qed.

Lemma complete_held (p : Z) (q : Queue) (finished : list Z) :
  StronglySorted Z.lt (outstanding q) -> tidy q -> drained q -> held finished q ->
  StronglySorted Z.lt (outstanding (complete p q)) /\
  drained (complete p q) /\ held (p :: finished) (complete p q).
Proof.
  intros Hso Ht Hd Hh.
  destruct (complete_spec p q) as (popped & H1 & H2 & H3 & Hno & Hyes).
  destruct (existsb (Z.eqb p) (outstanding q)) eqn:E.
  - destruct (Hyes eq_refl) as [Hheap Hdr].
    split; [rewrite H1 in Hso; now apply sorted_suffix in Hso|].
    split; [exact Hdr|].
    intros x Hx Hout.
    assert (Hq : In x (outstanding q)) by (rewrite H1; apply in_or_app; now right).
    assert (Hx' : In x (heapInsert p (ready q))).
    { apply heapInsert_In. destruct Hx as [->|Hx]; [now left|]. right. now apply Hh. }
    rewrite Hheap in Hx'. apply in_app_or in Hx'. destruct Hx' as [Hx'|Hx']; [|exact Hx'].
    exfalso. apply (NoDup_app_disjoint popped (outstanding (complete p q)) x); auto.
    rewrite <- H1. now apply sorted_NoDup.
  - destruct (Hno eq_refl) as [-> Hr]. cbn in H1.
    unfold drained, held. rewrite Hr, <- H1.
    split; [exact Hso|]. split; [exact Hd|].
    intros x [->|Hx] Hout; [|now apply Hh].
    exfalso. assert (Hex : existsb (Z.eqb x) (outstanding q) = true).
    { apply existsb_exists. exists x. split; [exact Hout | apply Z.eqb_refl]. }
    congruence.
Qed.

Lemma completions_held (completions : list Z) :
  forall q finished,
    StronglySorted Z.lt (outstanding q) -> tidy q -> drained q -> held finished q ->
    let q' := run (map Complete completions) q in
    StronglySorted Z.lt (outstanding q') /\ tidy q' /\ drained q' /\
    (forall x, In x finished \/ In x completions ->
               In x (outstanding q') -> In x (ready q')) /\
    exists popped,
      outstanding q = popped ++ outstanding q' /\ acked q' = acked q ++ popped.
Proof.
  induction completions as [|p completions IH]; intros q finished Hso Ht Hd Hh; cbn zeta.
  - cbn [map run fold_left].
    split; [exact Hso|]. split; [exact Ht|]. split; [exact Hd|]. split.
    + intros x [Hx|[]]. now apply Hh.
    + exists []. rewrite app_nil_r. auto.
  - cbn [map run fold_left step].
    change (fold_left step (map Complete completions) (complete p q))
      with (run (map Complete completions) (complete p q)).
    destruct (complete_held p q finished Hso Ht Hd Hh) as (Hso' & Hd' & Hh').
    pose proof (tidy_complete p q Ht) as Ht'.
    destruct (IH (complete p q) (p :: finished) Hso' Ht' Hd' Hh')
      as (Hs2 & Ht2 & Hd2 & Hall & popped2 & Hp1 & Hp2).
    destruct (complete_spec p q) as (popped1 & H1 & H2 & _).
    split; [exact Hs2|]. split; [exact Ht2|]. split; [exact Hd2|]. split.
    + intros x Hx. apply Hall. cbn [In] in *. tauto.
    + exists (popped1 ++ popped2). rewrite Hp2, H2, H1, Hp1, !app_assoc. auto.
Qed.

(** Once every outstanding batch has completed, in whatever order, all
    of them are acknowledged, in the order they were submitted. *)
Lemma completions_acknowledge (completions : list Z) (q : Queue) :
  StronglySorted Z.lt (outstanding q) ->
  (List.length (outstanding q) <= maxOutstanding q)%nat ->
  ready q = [] ->
  incl (outstanding q) completions ->
  let q' := run (map Complete completions) q in
  outstanding q' = [] /\ ready q' = [] /\ acked q' = acked q ++ outstanding q.
Proof.
  intros Hso Hb Hr Hall q'.
  assert (Ht : tidy q).
  { unfold tidy. rewrite Hr. split; [constructor|]. split; [intros x []|exact Hb]. }
  assert (Hd : drained q) by (unfold drained; rewrite Hr; now destruct (outstanding q)).
  assert (Hh : held [] q) by (intros x []).
  destruct (completions_held completions q [] Hso Ht Hd Hh)
    as (Hs' & Ht' & Hd' & Hheld & popped & Hp1 & Hp2).
  fold q' in Hs', Ht', Hd', Hheld, Hp1, Hp2.
  assert (Hnil : outstanding q' = []).
  { pose proof (drained_oldest q') as Hold.
    destruct (outstanding q') as [|oldest rest]; [reflexivity|].
    exfalso. apply (Hold oldest rest Hs' Ht' Hd' eq_refl).
    apply Hheld; [right; apply Hall; rewrite Hp1; apply in_or_app; right; now left|].
    now left. }
  split; [exact Hnil|]. split.
  - destruct Ht' as (_ & Hin & _). rewrite Hnil in Hin.
    destruct (ready q') as [|x l]; [reflexivity|]. destruct (Hin x). now left.
  - rewrite Hp2, Hp1, Hnil, app_nil_r. reflexivity.
Qed.



End PipelinedFacts.



(** * The Stop handle of the polling consumer *)

(** C10. Under Node.js, the handle returned by [start()] of the polling
    consumer does not stop it: calling the handle throws a
    [ReferenceError] for the unbound identifier [stop] and leaves the
    consumer as it was, so its interval stays registered and, once a
    message is sent, the next firing of the timer begins a tick that
    selects it. The [stop()] method called directly would have cleared
    the interval, after which a firing changes nothing. *)
Theorem stop_handle_leaves_interval
  (publish : list Polling.Call -> Polling.Envelope -> outcome)
  (sqlOk : nat -> bool) (checkInterval : option Z)
  (name mId mType payload : string) :
  exists st id,
    Polling.start checkInterval Polling.init = Ok st /\
    Polling._intervalId st = Some id /\
    (* the handle *)
    Polling.stopHandle Polling.nodeGlobals st = (Throw (ReferenceError "stop"), st) /\
    let st' := snd (Polling.stopHandle Polling.nodeGlobals st) in
    Polling._started st' = true /\
    Polling.intervals st' = [(id, Polling._checkInterval checkInterval)] /\
    (let later :=
       Polling.run publish sqlOk
         [Polling.Send name mId mType payload; Polling.TimerFires id] st' in
     Polling.statements later = 1%nat /\
     (sqlOk 0%nat = true ->
      Polling._isProcessing later = true /\
      exists row,
        Polling.running later = Some [row] /\ Polling.messageId row = mId)) /\
    (* the method *)
    Polling._intervalId (Polling.stop st) = None /\
    Polling.intervals (Polling.stop st) = [] /\
    forall events,
      Forall (fun e => exists i, e = Polling.TimerFires i) events ->
      Polling.run publish sqlOk events (Polling.stop st) = Polling.stop st.
Proof.
  eexists. exists 0%nat. split; [reflexivity|]. split; [reflexivity|].
  split; [reflexivity|]. cbn zeta. split; [reflexivity|]. split; [reflexivity|].
  split.
  - split.
    + cbn. unfold Polling.onInterval, Polling._processUndeliveredMessages. cbn.
      destruct (sqlOk 0%nat); reflexivity.
    + intros Hok. cbn. unfold Polling.onInterval, Polling._processUndeliveredMessages.
      cbn. rewrite Hok. cbn. split; [reflexivity|]. eexists. split; reflexivity.
  - split; [reflexivity|]. split; [reflexivity|].
    intros events Hall. induction Hall as [|e events [i ->] _ IH]; [reflexivity|].
    cbn [Polling.run fold_left Polling.step]. exact IH.
Qed.

(** The handle of a consumer started with the default interval, a
    database that answers and a callback that returns. *)
Lemma stop_handle_leaves_interval_witness :
  exists st,
    Polling.start None Polling.init = Ok st /\
    Polling.stopHandle Polling.nodeGlobals st = (Throw (ReferenceError "stop"), st) /\
    Polling.intervals (snd (Polling.stopHandle Polling.nodeGlobals st)) = [(0%nat, 15000)] /\
    Polling._isProcessing
      (Polling.run (fun _ _ => Returns) (fun _ => true)
         [Polling.Send "orders" "m-1" "OrderPlaced" "{}"; Polling.TimerFires 0]
         (snd (Polling.stopHandle Polling.nodeGlobals st))) = true.
Proof.
  destruct (stop_handle_leaves_interval (fun _ _ => Returns) (fun _ => true) None
              "orders" "m-1" "OrderPlaced" "{}")
    as (st & id & Hstart & Hid & Hhandle & _ & Hint & [_ Hlater] & _).
  exists st. split; [exact Hstart|]. split; [exact Hhandle|].
  injection Hstart as <-. injection Hid as <-.
  split; [exact Hint|]. exact (proj1 (Hlater eq_refl)).
Defined.

(** * What happens to an outbox row after it is written *)

Section Grows.

Import Store.

Variable Row : Type.
Variable sqlOk : nat -> bool.










End Grows.





Section MongoStamps.

Import Mongo.

Variable publish : list action -> Event -> outcome.
Variable onFailedPublish : list action -> outcome.
Variable stopped : list action -> bool.
Variable dbOk : list action -> bool.
Variable now : list action -> option Z.
Variable saveTimestamps : bool.













End MongoStamps.




(** * The redelivery count *)

Section PgRedelivery.

Import Pg.

Variable publish : list action -> list HermesMessageEnvelope -> outcome.



End PgRedelivery.

Section MongoRedelivery.

Import Mongo.

Variable publish : list action -> Event -> outcome.
Variable onFailedPublish : list action -> outcome.
Variable stopped : list action -> bool.



End MongoRedelivery.





(** * The decoder on whole columns and whole messages *)

Section UIntRange.

Lemma bigEndian_range (bytes : list byte) :
  0 <= Buffer.bigEndian bytes < 256 ^ Buffer.length bytes.
Proof.
  unfold Buffer.bigEndian, Buffer.length.
  assert (H : forall acc n, 0 <= acc < 256 ^ Z.of_nat n ->
            0 <= fold_left (fun a b => a * 256 + Buffer.u8 b) bytes acc
              < 256 ^ Z.of_nat (n + List.length bytes)).
  { induction bytes as [|b bytes IH]; intros acc n Hacc; cbn [fold_left List.length].
    - now rewrite Nat.add_0_r.
    - replace (n + S (List.length bytes))%nat with (S n + List.length bytes)%nat by lia.
      apply IH. pose proof (u8_range b).
      rewrite Nat2Z.inj_succ, Z.pow_succ_r by lia. lia. }
  apply (H 0 0%nat). cbn. lia.
Qed.

End UIntRange.

Section UIntColumn.

Import Wire.

Variables (before value after : list byte).
Hypothesis Hlen : Buffer.length value < 2 ^ 32.

Let buffer := before ++ column "t"%byte value ++ after.
Let pos := Buffer.length before.

Lemma framed_bytes :
  Buffer.bytesAt buffer (Offset.addInt32 (Offset.addInt8 pos)) (List.length value) =
    Some value.
Proof.
  unfold buffer, pos, column.
  unfold Offset.addInt32, Offset.addInt8, Offset.add, Bytes.Int8, Bytes.Int32.
  replace (before ++ ("t"%byte :: be32 (Buffer.length value) ++ value) ++ after)
    with ((before ++ "t"%byte :: be32 (Buffer.length value)) ++ value ++ after)
    by (rewrite <- !app_assoc; reflexivity).
  replace (Buffer.length before + 1 + 4)
    with (Buffer.length (before ++ "t"%byte :: be32 (Buffer.length value)))
    by (unfold Buffer.length; rewrite length_app; cbn [List.length];
        rewrite length_be32; lia).
  apply bytesAt_middle.
Qed.

Lemma readUInt_column :
  readUInt buffer pos =
    if existsb (Z.eqb (Buffer.length value)) [1; 2; 4; 8]
    then Ok (if Buffer.length value =? 8
             then VBigInt (Buffer.bigEndian value)
             else VNumber (Buffer.bigEndian value),
             pos + 5 + Buffer.length value)
    else Throw (AssertionError "readUInt.columnLength").
Proof.
  unfold readUInt, Offset.value. fold pos. fold buffer. unfold buffer, pos.
  rewrite framed_tag. cbn [bind]. rewrite framed_length by exact Hlen. cbn [bind].
  rewrite (proj2 (isText_tag "t"%byte) eq_refl). cbn [assert bind].
  destruct (existsb (Z.eqb (Buffer.length value)) [1; 2; 4; 8]) eqn:E;
    cbn [assert bind]; [|reflexivity].
  rewrite (next_offset [] []).
  assert (Hn : Z.to_nat (Buffer.length value) = List.length value)
    by (unfold Buffer.length; lia).
  destruct (Z.eqb_spec (Buffer.length value) 8) as [H8|H8].
  - unfold Buffer.readBigUInt64BE, Buffer.readUIntBE.
    replace 8%nat with (List.length value) by (unfold Buffer.length in H8; lia).
    fold pos. fold buffer. rewrite framed_bytes. reflexivity.
  - unfold Buffer.readUIntBE. rewrite Hn. fold pos. fold buffer.
    rewrite framed_bytes. reflexivity.
Qed.

End UIntColumn.

Section InsertMessage.

Import Wire.

Lemma readUIntBE_inside (n : nat) (buffer : Buffer.t) (offset : Z) :
  0 <= offset -> offset + Z.of_nat n <= Buffer.length buffer ->
  exists v, Buffer.readUIntBE n buffer offset = Ok v.
Proof.
  intros H0 H1. unfold Buffer.readUIntBE, Buffer.bytesAt.
  destruct (Z.leb_spec 0 offset); [|lia].
  destruct (Z.leb_spec (offset + Z.of_nat n) (Buffer.length buffer)); [|lia].
  cbn [andb]. eexists. reflexivity.
Qed.

Lemma readUIntBE_outside (n : nat) (buffer : Buffer.t) (offset : Z) :
  Buffer.length buffer < offset + Z.of_nat n ->
  Buffer.readUIntBE n buffer offset = Throw RangeError.
Proof.
  intros H. unfold Buffer.readUIntBE, Buffer.bytesAt.
  destruct (Z.leb_spec (offset + Z.of_nat n) (Buffer.length buffer)); [lia|].
  now rewrite andb_false_r.
Qed.

Lemma length_column (tag : byte) (value : list byte) :
  Buffer.length (column tag value) = 5 + Buffer.length value.
Proof.
  unfold column, Buffer.length. cbn [List.length].
  rewrite length_app, length_be32. lia.
Qed.

Lemma length_append (a b : list byte) :
  Buffer.length (a ++ b) = Buffer.length a + Buffer.length b.
Proof. unfold Buffer.length. rewrite length_app. lia. Qed.

Lemma subarray_rest (a b : list byte) :
  Buffer.subarray (a ++ b) (Buffer.length a) (Buffer.length (a ++ b)) = b.
Proof.
  rewrite length_append.
  replace (a ++ b) with (a ++ b ++ []) at 1 by now rewrite app_nil_r.
  apply subarray_middle.
Qed.

(** The first four columns of an outbox row, each framed as text. *)
Definition outboxPrefix (position idBytes typeBytes keyBytes : list byte)
  : list byte :=
  column "t"%byte position ++ column "t"%byte idBytes ++
  column "t"%byte typeBytes ++ column "t"%byte keyBytes.

Variables (header count : list byte).
Variables (negative : bool) (digits : list Z).
Variables (idBytes typeBytes keyBytes : list byte).

Hypothesis Hheader : Buffer.length header = 6.
Hypothesis Hcount : Buffer.length count = 2.
Hypothesis Hdigits : digits <> [] /\ Forall isDigit digits.
Hypothesis Hposition : Buffer.length (decimalBytes negative digits) < 2 ^ 32.
Hypothesis HmessageId : Buffer.length idBytes < 2 ^ 32.
Hypothesis HmessageType : Buffer.length typeBytes < 2 ^ 32.
Hypothesis HpartitionKey : Buffer.length keyBytes < 2 ^ 32.

Let position := decimalBytes negative digits.
Let prefix := outboxPrefix position idBytes typeBytes keyBytes.

(** The row read so far when the reader of the last column starts. *)
Definition outboxFields (negative : bool) (digits : list Z)
  (idBytes typeBytes keyBytes : list byte) : InsertResult :=
  [("position"%string,
    if Buffer.length (decimalBytes negative digits) <=? 8
    then VNumber (decimalValue negative digits)
    else VBigInt (decimalValue negative digits));
   ("messageId"%string, VString (Buffer.toString idBytes));
   ("messageType"%string, VString (Buffer.toString typeBytes));
   ("partitionKey"%string, VString (Buffer.toString keyBytes))].

Lemma readTuple_prefix (rest : list byte) :
  forall readers,
    readersOf outboxColumns = Ok readers ->
    readTuple readers (Offset.offset Bytes.Int16) (count ++ prefix ++ rest) [] =
    ('(value, _) <- readJsonb (count ++ prefix ++ rest) (Buffer.length (count ++ prefix)) ;;
     Ok (outboxFields negative digits idBytes typeBytes keyBytes ++
         [("payload"%string, value)])).
Proof.
  intros readers [= <-]. destruct Hdigits as [Hne Hall].
  unfold prefix, outboxPrefix. rewrite <- !app_assoc. cbn [readTuple].
  replace (Offset.offset Bytes.Int16) with (Buffer.length count)
    by (rewrite Hcount; reflexivity).
  rewrite (readBigInt_accepts count position _ "t"%byte Hposition negative digits
             eq_refl Hne Hall eq_refl).
  cbn [bind app].
  set (c1 := column "t"%byte position).
  replace (Buffer.length count + 5 + Buffer.length position)
    with (Buffer.length (count ++ c1))
    by (subst c1; rewrite length_append, length_column; lia).
  rewrite (app_assoc count c1).
  rewrite (readText_accepts (count ++ c1) idBytes _ "t"%byte HmessageId eq_refl).
  cbn [bind app].
  set (c2 := column "t"%byte idBytes).
  replace (Buffer.length (count ++ c1) + 5 + Buffer.length idBytes)
    with (Buffer.length ((count ++ c1) ++ c2))
    by (subst c2; rewrite (length_append (count ++ c1)), length_column; lia).
  rewrite (app_assoc (count ++ c1) c2).
  rewrite (readText_accepts ((count ++ c1) ++ c2) typeBytes _ "t"%byte HmessageType eq_refl).
  cbn [bind app].
  set (c3 := column "t"%byte typeBytes).
  replace (Buffer.length ((count ++ c1) ++ c2) + 5 + Buffer.length typeBytes)
    with (Buffer.length (((count ++ c1) ++ c2) ++ c3))
    by (subst c3; rewrite (length_append ((count ++ c1) ++ c2)), length_column; lia).
  rewrite (app_assoc ((count ++ c1) ++ c2) c3).
  rewrite (readText_accepts (((count ++ c1) ++ c2) ++ c3) keyBytes _ "t"%byte
             HpartitionKey eq_refl).
  cbn [bind app].
  set (c4 := column "t"%byte keyBytes).
  replace (Buffer.length (((count ++ c1) ++ c2) ++ c3) + 5 + Buffer.length keyBytes)
    with (Buffer.length ((((count ++ c1) ++ c2) ++ c3) ++ c4))
    by (subst c4; rewrite (length_append (((count ++ c1) ++ c2) ++ c3)), length_column; lia).
  rewrite (app_assoc (((count ++ c1) ++ c2) ++ c3) c4).
  rewrite <- !app_assoc.
  destruct (readJsonb _ _) as [[value pos']|e]; reflexivity.
Qed.

(** What [processInsertMessage] does before it reads the tuple. *)
Lemma processInsertMessage_tuple (rest : list byte) :
  processInsertMessage outboxColumns (header ++ count ++ prefix ++ rest) =
    (readers <- readersOf outboxColumns ;;
     row <- readTuple readers (Offset.offset Bytes.Int16) (count ++ prefix ++ rest) [] ;;
     Ok {| topLevelType := XLogData; messageType := Insert; result_ := row |}).
Proof.
  unfold processInsertMessage.
  destruct (readersOf outboxColumns) as [readers|e]; [|reflexivity]. cbn [bind].
  set (data := header ++ count ++ prefix ++ rest).
  assert (Hdata : 8 <= Buffer.length data).
  { subst data. rewrite !length_append, Hheader, Hcount.
    unfold Buffer.length. lia. }
  unfold Buffer.readUInt32BE.
  destruct (readUIntBE_inside 4 data Bytes.Int8) as [relationId ->];
    [unfold Bytes.Int8; lia | unfold Bytes.Int8; lia |]. cbn [bind].
  unfold Buffer.readInt8.
  destruct (readUIntBE_inside 1 data (Bytes.Int8 + Bytes.Int32)) as [newMessageId ->];
    [unfold Bytes.Int8, Bytes.Int32; lia | unfold Bytes.Int8, Bytes.Int32; lia |].
  cbn [bind].
  replace (Bytes.Int8 + Bytes.Int32 + Bytes.Int8) with (Buffer.length header)
    by (rewrite Hheader; reflexivity).
  subst data. rewrite subarray_rest.
  unfold Buffer.readInt16BE.
  destruct (readUIntBE_inside 2 (count ++ prefix ++ rest) 0) as [columnsCount ->];
    [lia | rewrite length_append, Hcount; unfold Buffer.length; lia |].
  reflexivity.
Qed.

End InsertMessage.

(** X1. [readUInt] on a column framed as text: a value of 1, 2 or 4 bytes
    is returned as the unsigned big-endian number it spells, a value of 8
    bytes as the unsigned 64-bit big integer, and the cursor ends right
    after the value; a value of any other length fails the length
    assertion. *)
Theorem readUInt_decoding (before value after : list byte)
  (Hlen : Buffer.length value < 2 ^ 32) :
  let buffer := before ++ Wire.column "t"%byte value ++ after in
  let pos := Buffer.length before in
  let next := pos + 5 + Buffer.length value in
  0 <= Buffer.bigEndian value < 256 ^ Buffer.length value /\
  (Buffer.length value = 1 \/ Buffer.length value = 2 \/ Buffer.length value = 4 ->
   Wire.readUInt buffer pos = Ok (VNumber (Buffer.bigEndian value), next)) /\
  (Buffer.length value = 8 ->
   Wire.readUInt buffer pos = Ok (VBigInt (Buffer.bigEndian value), next)) /\
  (Buffer.length value <> 1 -> Buffer.length value <> 2 ->
   Buffer.length value <> 4 -> Buffer.length value <> 8 ->
   Wire.readUInt buffer pos = Throw (AssertionError "readUInt.columnLength")).
Proof.
  intros buffer pos next. split; [apply bigEndian_range|].
  subst buffer pos next. rewrite (readUInt_column before value after Hlen).
  cbn [existsb]. split; [|split].
  - intros [H|[H|H]]; rewrite H; reflexivity.
  - intros H. rewrite H. reflexivity.
  - intros H1 H2 H4 H8.
    destruct (Z.eqb_spec (Buffer.length value) 1); [contradiction|].
    destruct (Z.eqb_spec (Buffer.length value) 2); [contradiction|].
    destruct (Z.eqb_spec (Buffer.length value) 4); [contradiction|].
    destruct (Z.eqb_spec (Buffer.length value) 8); [contradiction|].
    reflexivity.
Qed.

(** The 16-bit value 0x0102 after one byte of something else. *)
Lemma readUInt_decoding_witness :
  Wire.readUInt ([x2a] ++ Wire.column "t"%byte [x01; x02] ++ [x2a]) 1 =
    Ok (VNumber 258, 8).
Proof.
  exact (proj1 (proj2 (readUInt_decoding [x2a] [x01; x02] [x2a] ltac:(vm_compute; reflexivity)))
           (or_intror (or_introl eq_refl))).
Defined.

(** X2. [processInsertMessage] with the column configuration of the outbox,
    on an Insert message whose tuple is the five columns framed as text:
    the row has the five fields in the order of the configuration, the
    position as a number when its decimal text has at most 8 bytes and as a
    big integer otherwise, the others as the UTF-8 text of their bytes.
    Neither the six header bytes (message tag, relation id, tuple tag) nor
    the column count of the tuple has any part in it. A message that ends
    after the fourth column fails with a [RangeError]. *)
Theorem insert_message_decoding
  (header count : list byte) (negative : bool) (digits : list Z)
  (idBytes typeBytes keyBytes payload : list byte)
  (Hheader : Buffer.length header = 6) (Hcount : Buffer.length count = 2)
  (Hdigits : digits <> [] /\ Forall isDigit digits)
  (Hposition : Buffer.length (Wire.decimalBytes negative digits) < 2 ^ 32)
  (HmessageId : Buffer.length idBytes < 2 ^ 32)
  (HmessageType : Buffer.length typeBytes < 2 ^ 32)
  (HpartitionKey : Buffer.length keyBytes < 2 ^ 32)
  (Hpayload : Buffer.length payload < 2 ^ 32) :
  let prefix := outboxPrefix (Wire.decimalBytes negative digits) idBytes typeBytes keyBytes in
  Wire.processInsertMessage Wire.outboxColumns
    (header ++ count ++ prefix ++ Wire.column "t"%byte payload) =
    Ok {| Wire.topLevelType := Wire.XLogData; Wire.messageType := Wire.Insert;
          Wire.result_ :=
            outboxFields negative digits idBytes typeBytes keyBytes ++
            [("payload"%string, VString (Buffer.toString payload))] |} /\
  Wire.processInsertMessage Wire.outboxColumns (header ++ count ++ prefix) =
    Throw RangeError.
Proof.
  intros prefix. split.
  - subst prefix.
    rewrite (processInsertMessage_tuple header count negative digits idBytes typeBytes
               keyBytes Hheader Hcount).
    destruct (Wire.readersOf Wire.outboxColumns) as [readers|e] eqn:E; [|discriminate E].
    cbn [bind].
    rewrite (readTuple_prefix count negative digits idBytes typeBytes keyBytes
               Hcount Hdigits Hposition HmessageId HmessageType HpartitionKey _ readers E).
    set (prefix := outboxPrefix _ _ _ _).
    rewrite (app_assoc count prefix).
    replace (Wire.column "t"%byte payload) with (Wire.column "t"%byte payload ++ [])
      by apply app_nil_r.
    rewrite (readJsonb_accepts (count ++ prefix) payload [] "t"%byte Hpayload eq_refl).
    reflexivity.
  - replace (header ++ count ++ prefix) with (header ++ count ++ prefix ++ [])
      by now rewrite app_nil_r.
    subst prefix.
    rewrite (processInsertMessage_tuple header count negative digits idBytes typeBytes
               keyBytes Hheader Hcount).
    destruct (Wire.readersOf Wire.outboxColumns) as [readers|e] eqn:E; [|discriminate E].
    cbn [bind].
    rewrite (readTuple_prefix count negative digits idBytes typeBytes keyBytes
               Hcount Hdigits Hposition HmessageId HmessageType HpartitionKey _ readers E).
    set (prefix := outboxPrefix _ _ _ _).
    rewrite app_nil_r.
    unfold Wire.readJsonb, Buffer.readInt8, Wire.Offset.value.
    rewrite readUIntBE_outside by lia. reflexivity.
Qed.

(** The row at position 42 with one-letter fields and the payload [{}]. *)
Lemma insert_message_decoding_witness :
  outboxFields false [4; 2] [x61] [x62] [x63] =
    [("position"%string, VNumber 42); ("messageId"%string, VString [97]);
     ("messageType"%string, VString [98]); ("partitionKey"%string, VString [99])] /\
  Wire.processInsertMessage Wire.outboxColumns
    ([x49; x00; x00; x40; x01; x4e] ++ [x00; x05] ++
     outboxPrefix (Wire.decimalBytes false [4; 2]) [x61] [x62] [x63] ++
     Wire.column "t"%byte [x7b; x7d]) =
    Ok {| Wire.topLevelType := Wire.XLogData; Wire.messageType := Wire.Insert;
          Wire.result_ :=
            outboxFields false [4; 2] [x61] [x62] [x63] ++
            [("payload"%string, VString (Buffer.toString [x7b; x7d]))] |}.
Proof.
  split; [vm_compute; reflexivity|].
  refine (proj1 (insert_message_decoding [x49; x00; x00; x40; x01; x4e] [x00; x05]
                   false [4; 2] [x61] [x62] [x63] [x7b; x7d] _ _ _ _ _ _ _ _)).
  - reflexivity.
  - reflexivity.
  - split; [discriminate | repeat constructor; unfold isDigit; lia].
  - vm_compute; reflexivity.
  - vm_compute; reflexivity.
  - vm_compute; reflexivity.
  - vm_compute; reflexivity.
  - vm_compute; reflexivity.
Defined.

(** * The polling consumer over its life *)

Section PollingTimers.

Import Polling PollingCalls.

Variable publish : list Call -> Envelope -> outcome.
Variable sqlOk : nat -> bool.
Variable checkInterval : option Z.

(** The consumer has a timer exactly while it is started, and then only
    that one. *)
Definition oneTimer (st : State) : Prop :=
  match _intervalId st with
  | Some id =>
      _started st = true /\ intervals st = [(id, _checkInterval checkInterval)] /\
      (id < nextTimer st)%nat
  | None => _started st = false /\ intervals st = []
  end.

Lemma step_timers (st : State) (e : event) :
  let st' := step publish sqlOk st e in
  _started st' = _started st /\ _intervalId st' = _intervalId st /\
  intervals st' = intervals st /\ nextTimer st' = nextTimer st.
Proof.
  destruct e as [id| |t|name mId mType payload]; cbn [step].
  - unfold onInterval, _processUndeliveredMessages.
    destruct (existsb _ _); [|auto].
    destruct (_isProcessing st); [auto|]. cbn [withProcessing statements table].
    destruct (sqlOk (statements st)); [|cbn; auto].
    destruct (selectPending (table st)); cbn; auto.
  - unfold resume. destruct (running st) as [[|m rest]|]; auto.
    unfold handleMessage, onCatch, execute.
    destruct (publish (calls st) (envelopeOf m));
      cbn [called statements table now];
      repeat match goal with
             | |- context [if sqlOk ?n then _ else _] => destruct (sqlOk n)
             end;
      destruct rest; cbn; auto.
  - cbn. auto.
  - cbn. auto.
Qed.

Lemma oneTimer_perform (st : State) (c : call) :
  oneTimer st -> oneTimer (perform publish sqlOk checkInterval st c).
Proof.
  unfold oneTimer. intros H. destruct c as [| |e]; cbn [perform].
  - unfold start. destruct (_intervalId st) as [id|] eqn:Hid.
    + pose proof H as (Hs & _). rewrite Hs, Hid. exact H.
    + destruct H as (Hs & Hi). rewrite Hs. cbn. rewrite Hi. cbn. auto.
  - unfold stop. destruct (_intervalId st) as [id|] eqn:Hid; cbn.
    + destruct H as (_ & Hi & _). rewrite Hi. unfold clearInterval. cbn.
      now rewrite Nat.eqb_refl.
    + rewrite Hid. tauto.
  - destruct (step_timers st e) as (H1 & H2 & H3 & H4).
    rewrite H1, H2, H3, H4. exact H.
Qed.

Lemma oneTimer_performAll (calls : list call) :
  forall st, oneTimer st -> oneTimer (performAll publish sqlOk checkInterval calls st).
Proof.
  induction calls as [|c calls IH]; intros st H; [exact H|].
  apply IH. now apply oneTimer_perform.
Qed.

End PollingTimers.

(** X3. Whatever sequence of [start()] and [stop()] calls, timer firings
    and other events a polling consumer goes through, it has an interval
    timer exactly while it is started, and never more than one: [start()]
    on a started consumer throws and registers nothing, [stop()] clears
    the timer, and a later [start()] registers a fresh one. *)
Theorem polling_one_timer
  (publish : list Polling.Call -> Polling.Envelope -> outcome)
  (sqlOk : nat -> bool) (checkInterval : option Z)
  (calls : list PollingCalls.call) :
  let st := PollingCalls.performAll publish sqlOk checkInterval calls Polling.init in
  oneTimer checkInterval st /\
  (Polling._started st = true ->
   Polling.start checkInterval st =
     Throw (JsError "AsyncOutboxConsumer is already started") /\
   PollingCalls.perform publish sqlOk checkInterval st PollingCalls.CallStart = st /\
   Polling.intervals (Polling.stop st) = []) /\
  (Polling._started st = false ->
   exists st', Polling.start checkInterval st = Ok st' /\
               Polling.intervals st' =
                 [(Polling.nextTimer st, Polling._checkInterval checkInterval)]).
Proof.
  intros st.
  assert (H : oneTimer checkInterval st).
  { apply oneTimer_performAll. cbn. auto. }
  split; [exact H|]. split.
  - intros Hs. unfold Polling.start, PollingCalls.perform, Polling.start. rewrite Hs.
    split; [reflexivity|]. split; [reflexivity|].
    unfold oneTimer in H. unfold Polling.stop.
    destruct (Polling._intervalId st) as [id|]; cbn.
    + destruct H as (_ & Hi & _). rewrite Hi. unfold Polling.clearInterval. cbn.
      now rewrite Nat.eqb_refl.
    + tauto.
  - intros Hs. unfold Polling.start. rewrite Hs. eexists. split; [reflexivity|].
    unfold oneTimer in H. destruct (Polling._intervalId st) as [id|].
    + destruct H as (Hs' & _). congruence.
    + destruct H as (_ & Hi). cbn. now rewrite Hi.
Qed.

(** A consumer started, stopped and started again, with a second
    [start()] in between: one timer, the second one registered. *)
Lemma polling_one_timer_witness :
  let st := PollingCalls.performAll (fun _ _ => Returns) (fun _ => true) None
              [PollingCalls.CallStart; PollingCalls.CallStart; PollingCalls.CallStop;
               PollingCalls.CallStart] Polling.init in
  Polling.intervals st = [(1%nat, 15000)] /\
  Polling.intervals (Polling.stop st) = [].
Proof.
  intros st. split; [reflexivity|].
  exact (proj2 (proj2 (proj1 (proj2 (polling_one_timer (fun _ _ => Returns) (fun _ => true)
                                       None
                                       [PollingCalls.CallStart; PollingCalls.CallStart;
                                        PollingCalls.CallStop; PollingCalls.CallStart]))
                               eq_refl))).
Defined.

Section PollingTickRun.

Import Polling PollingCalls.

Variable publish : list Call -> Envelope -> outcome.
Variable sqlOk : nat -> bool.

Local Abbreviation run' := (run publish sqlOk).
Local Abbreviation resume' := (resume publish sqlOk).

Lemma run_cons (e : event) (events : list event) (st : State) :
  run' (e :: events) st = run' events (step publish sqlOk st e).
Proof. reflexivity. Qed.

Lemma resume_idle (st : State) : running st = None -> resume' st = st.
Proof. intros H. unfold resume. now rewrite H. Qed.

Lemma resumes_idle (n : nat) (st : State) :
  running st = None -> run' (repeat Resume n) st = st.
Proof.
  intros H. induction n as [|n IH]; [reflexivity|].
  cbn [repeat]. rewrite run_cons. cbn [step]. rewrite resume_idle by exact H. exact IH.
Qed.

(** One turn of the loop, whatever the database does: one call of the
    callback for the row at the head, and the loop either goes on with
    the rest or is over with the flag cleared. *)
Lemma resume_turn (st : State) (message : Row) (rest : list Row) :
  running st = Some (message :: rest) ->
  let st' := resume' st in
  calls st' =
    calls st ++ [{| envelope := envelopeOf message;
                    answer := publish (calls st) (envelopeOf message) |}] /\
  ((running st' = Some rest /\ rest <> []) \/
   (running st' = None /\ _isProcessing st' = false)).
Proof.
  intros Hrun. unfold resume. rewrite Hrun.
  unfold handleMessage, onCatch, execute.
  destruct (publish (calls st) (envelopeOf message));
    cbn [called statements table now];
    repeat match goal with
           | |- context [if sqlOk ?n then _ else _] => destruct (sqlOk n)
           end;
    destruct rest; cbn; split; try reflexivity;
    try (right; split; reflexivity); left; split; try reflexivity; discriminate.
Qed.

(** The calls a list of rows gets, the first one after the calls of
    [log]. *)
Fixpoint callsFor (log : list Call) (rows : list Row) : list Call :=
  match rows with
  | [] => []
  | r :: rest =>
      let c := {| envelope := envelopeOf r; answer := publish log (envelopeOf r) |} in
      c :: callsFor (log ++ [c]) rest
  end.

Lemma callsFor_envelopes (log : list Call) (rows : list Row) :
  map envelope (callsFor log rows) = map envelopeOf rows.
Proof.
  revert log. induction rows as [|r rest IH]; intros log; cbn; [reflexivity|].
  now rewrite IH.
Qed.

Lemma resumes_finish (rows : list Row) :
  forall (st : State) (n : nat),
    running st = Some rows -> rows <> [] -> (List.length rows <= n)%nat ->
    let st' := run' (repeat Resume n) st in
    running st' = None /\ _isProcessing st' = false /\
    exists k, calls st' = calls st ++ callsFor (calls st) (firstn k rows) /\
              ((forall i, sqlOk i = true) -> firstn k rows = rows).
Proof.
  induction rows as [|m rest IH]; intros st n Hrun Hne Hn; [congruence|].
  destruct n as [|n]; [cbn in Hn; lia|].
  cbn [repeat]. rewrite run_cons. cbn [step].
  destruct (resume_turn st m rest Hrun) as (Hcalls & [[Hnext Hrest]|[Hdone Hflag]]).
  - destruct (IH (resume' st) n Hnext Hrest ltac:(cbn in Hn; lia))
      as (H1 & H2 & k & Hk & Hall).
    split; [exact H1|]. split; [exact H2|]. exists (S k). split.
    + rewrite Hk, Hcalls, <- app_assoc. reflexivity.
    + intros Hup. cbn [firstn]. now rewrite (Hall Hup).
  - rewrite resumes_idle by exact Hdone.
    split; [exact Hdone|]. split; [exact Hflag|]. exists 1%nat. split.
    + rewrite Hcalls. destruct rest; reflexivity.
    + intros Hup. cbn [firstn]. f_equal.
      destruct rest as [|m' rest']; [reflexivity|]. exfalso.
      pose proof (resume_handles publish sqlOk st m (m' :: rest') Hrun (Hup _))
        as (_ & _ & Hr & _).
      fold (resume' st) in Hr. congruence.
Qed.

End PollingTickRun.

(** X4. A tick of the polling consumer comes to an end: once the timer has
    fired on an idle consumer and the loop has had a turn for each of the
    at most ten rows it selected, the consumer is idle again with its
    processing flag cleared, whatever the callback and the database did.
    The callback was called for a leading part of the selected rows, once
    each, in the order of selection, with the envelopes of the rows as
    selected; with a database that answers, for all of them. *)
Theorem polling_tick_completes
  (publish : list Polling.Call -> Polling.Envelope -> outcome)
  (sqlOk : nat -> bool) (st : Polling.State) (id : nat)
  (Hidle : Polling._isProcessing st = false)
  (Htimer : In id (map fst (Polling.intervals st))) :
  let rows := Polling.selectPending (Polling.table st) in
  let st' := Polling.run publish sqlOk
               (Polling.TimerFires id :: repeat Polling.Resume 10) st in
  Polling._isProcessing st' = false /\
  exists k,
    Polling.calls st' =
      Polling.calls st ++ callsFor publish (Polling.calls st) (firstn k rows) /\
    map Polling.envelope (callsFor publish (Polling.calls st) (firstn k rows)) =
      map Polling.envelopeOf (firstn k rows) /\
    ((forall i, sqlOk i = true) -> firstn k rows = rows /\ Polling.running st' = None).
Proof.
  intros rows st'.
  assert (Hfire : Polling.step publish sqlOk st (Polling.TimerFires id) =
                  Polling._processUndeliveredMessages sqlOk st).
  { cbn [Polling.step]. unfold Polling.onInterval.
    replace (existsb _ (Polling.intervals st)) with true; [reflexivity|].
    symmetry. apply existsb_exists. apply in_map_iff in Htimer.
    destruct Htimer as (t & Ht & Hin). exists t. split; [exact Hin|].
    rewrite Ht. apply Nat.eqb_refl. }
  subst st'. rewrite run_cons, Hfire.
  destruct (sqlOk (Polling.statements st)) eqn:Hok.
  - destruct (tick_selects sqlOk st Hidle Hok) as (Hrun & Hflag & _ & Hcalls).
    fold rows in Hrun, Hflag.
    destruct rows as [|m rest] eqn:Hrows.
    + rewrite resumes_idle by exact Hrun. split; [exact Hflag|].
      exists 0%nat. cbn. rewrite app_nil_r. auto.
    + assert (Hlen : (List.length (m :: rest) <= 10)%nat).
      { rewrite <- Hrows. apply selectPending_spec. }
      destruct (resumes_finish publish sqlOk (m :: rest) _ 10 Hrun ltac:(discriminate) Hlen)
        as (H1 & H2 & k & Hk & Hall).
      split; [exact H2|]. exists k. rewrite Hcalls in Hk.
      split; [exact Hk|]. split; [apply callsFor_envelopes|].
      intros Hup. split; [now apply Hall | exact H1].
  - assert (Hst : Polling._processUndeliveredMessages sqlOk st =
                  Polling.withProcessing false None
                    (Polling.issued (Polling.withProcessing true None st))).
    { unfold Polling._processUndeliveredMessages. rewrite Hidle.
      cbn [Polling.withProcessing Polling.statements]. now rewrite Hok. }
    rewrite Hst. rewrite resumes_idle by reflexivity.
    split; [reflexivity|]. exists 0%nat. cbn. rewrite app_nil_r.
    split; [reflexivity|]. split; [reflexivity|].
    intros Hup. rewrite Hup in Hok. discriminate.
Qed.

(** Two messages sent to a started consumer, the callback refusing the
    first call it gets: both are published, in the order they were sent,
    and the consumer is idle afterwards. *)
Lemma polling_tick_completes_witness :
  let publish := fun (log : list Polling.Call) (_ : Polling.Envelope) =>
                   match log with [] => Throws | _ => Returns end in
  let st := Polling.run publish (fun _ => true)
              [Polling.Send "orders" "m-1" "A" "{}"; Polling.Send "orders" "m-2" "B" "{}"]
              (PollingCalls.perform publish (fun _ => true) None Polling.init
                 PollingCalls.CallStart) in
  let st' := Polling.run publish (fun _ => true)
               (Polling.TimerFires 0 :: repeat Polling.Resume 10) st in
  Polling._isProcessing st' = false /\
  map (fun c => Polling.env_messageId (Polling.envelope c)) (Polling.calls st') =
    ["m-1"; "m-2"]%string.
Proof.
  intros publish st st'.
  destruct (polling_tick_completes publish (fun _ => true) st 0%nat eq_refl
              ltac:(cbn; now left)) as (Hflag & k & Hcalls & _ & _).
  split; [exact Hflag | reflexivity].
Defined.

Section PollingOnce.

Import Polling PollingCalls.

Variable publish : list Call -> Envelope -> outcome.
Variable sqlOk : nat -> bool.
Variable checkInterval : option Z.
Hypothesis database_up : forall n, sqlOk n = true.

(** A row the callback has returned for is marked delivered; a row the
    running tick still has to handle is not; and the callback has returned
    at most once for each position. *)
Record Once (st : State) : Prop := {
  once_inv : Inv st;
  once_delivered : forall c r,
      In c (calls st) -> returned (answer c) = true ->
      In r (table st) -> position r = env_position (envelope c) ->
      Polling.delivered r = true;
  once_pending : forall rows m r,
      running st = Some rows -> In m rows ->
      In r (table st) -> position r = position m ->
      Polling.delivered r = false;
  once_unique : NoDup (PollingCalls.delivered (calls st))
}.

Lemma same_position (rows : list Row) (a b : Row) :
  NoDup (map position rows) -> In a rows -> In b rows ->
  position a = position b -> a = b.
Proof.
  induction rows as [|x rows IH]; cbn [map In]; [tauto|].
  intros Hnd Ha Hb E. apply NoDup_cons_iff in Hnd. destruct Hnd as [Hx Hnd].
  destruct Ha as [<-|Ha], Hb as [<-|Hb]; auto.
  - exfalso. apply Hx. rewrite E. now apply in_map.
  - exfalso. apply Hx. rewrite <- E. now apply in_map.
Qed.

Lemma delivered_snoc (log : list Call) (c : Call) :
  PollingCalls.delivered (log ++ [c]) =
    PollingCalls.delivered log ++
    (if returned (answer c) then [env_position (envelope c)] else []).
Proof.
  unfold PollingCalls.delivered. rewrite filter_app, map_app. cbn [filter].
  now destruct (returned (answer c)).
Qed.

Lemma Once_init : Once init.
Proof.
  constructor; cbn.
  - apply Inv_init.
  - intros c r [].
  - discriminate.
  - constructor.
Qed.

Lemma Once_tick (st : State) : Once st -> Once (_processUndeliveredMessages sqlOk st).
Proof.
  intros [I Hd Hp Hu].
  pose proof (Inv_tick sqlOk database_up st I) as I'.
  destruct (_isProcessing st) eqn:Hflag.
  { unfold _processUndeliveredMessages in *. rewrite Hflag in *.
    constructor; assumption. }
  destruct (tick_selects sqlOk st Hflag (database_up _)) as (Hrun & _ & Ht & Hc).
  constructor; [exact I' | | |].
  - rewrite Ht, Hc. exact Hd.
  - rewrite Ht, Hrun. intros rows m r Hrows Hm Hr E.
    destruct (selectPending_spec (table st)) as (_ & Hall & _).
    rewrite Forall_forall in Hall.
    assert (Hsel : In m (selectPending (table st))).
    { destruct (selectPending (table st)); [discriminate|].
      injection Hrows as <-. exact Hm. }
    destruct (Hall m Hsel) as [Hin Hund].
    rewrite (same_position (table st) r m (inv_nodup _ I) Hr Hin E). exact Hund.
  - rewrite Hc. exact Hu.
Qed.

Lemma Once_resume (st : State) : Once st -> Once (resume publish sqlOk st).
Proof.
  intros [I Hd Hp Hu].
  pose proof (Inv_resume publish sqlOk database_up st I) as I'.
  assert (Hcase : (exists m rest, running st = Some (m :: rest)) \/
                  resume publish sqlOk st = st).
  { unfold resume. destruct (running st) as [[|m rest]|]; eauto. }
  destruct Hcase as [(m & rest & Hrunning)|Hsame];
    [|rewrite Hsame; constructor; assumption].
  pose proof (resume_handles publish sqlOk st m rest Hrunning (database_up _))
    as (Hcalls & Htable & Hrun' & _).
  destruct (inv_running _ I _ Hrunning) as [Hndrun Hsnap].
  destruct (Hsnap m (or_introl eq_refl)) as (rm & Hrm & Hpm & _).
  assert (Hfresh : ~ In (position m) (PollingCalls.delivered (calls st))).
  { intros Hin. unfold PollingCalls.delivered in Hin. apply in_map_iff in Hin.
    destruct Hin as (c & Hc & Hin). apply filter_In in Hin. destruct Hin as [Hin Hret].
    assert (H1 : Polling.delivered rm = true) by (apply (Hd c rm); congruence).
    assert (H2 : Polling.delivered rm = false)
      by (apply (Hp _ m rm Hrunning); [now left | exact Hrm | exact Hpm]).
    congruence. }
  set (st' := resume publish sqlOk st) in *.
  set (o := publish (calls st) (envelopeOf m)) in *.
  constructor; [exact I' | | |].
  - intros c r' Hc Hret Hr' E. rewrite Hcalls in Hc. rewrite Htable in Hr'.
    apply in_app_or in Hc.
    destruct o.
    + apply in_map_iff in Hr'. destruct Hr' as (r & <- & Hr).
      rewrite position_setDelivered in E. unfold setDelivered.
      destruct Hc as [Hc|[<-|[]]].
      * destruct (position r =? position m); [reflexivity|]. now apply (Hd c r).
      * cbn [envelope envelopeOf env_position] in E. rewrite E, Z.eqb_refl. reflexivity.
    + apply in_map_iff in Hr'. destruct Hr' as (r & <- & Hr).
      rewrite position_setFailed in E.
      destruct Hc as [Hc|[<-|[]]]; [|discriminate Hret].
      unfold setFailed. destruct (position r =? position m); cbn; now apply (Hd c r).
  - intros rows m' r' Hrows Hm' Hr' E. rewrite Hrun' in Hrows.
    change (map position (m :: rest)) with (position m :: map position rest) in Hndrun.
    apply NoDup_cons_iff in Hndrun. destruct Hndrun as [Hfirst _].
    assert (Hrest : In m' rest).
    { destruct rest as [|m2 rest2]; [discriminate|]. injection Hrows as <-. exact Hm'. }
    assert (Hne : position m' <> position m).
    { intros E'. apply Hfirst. rewrite <- E'. now apply in_map. }
    rewrite Htable in Hr'.
    assert (Hold : exists r, In r (table st) /\ position r = position m' /\
                             Polling.delivered r' = Polling.delivered r).
    { destruct o; apply in_map_iff in Hr'; destruct Hr' as (r & <- & Hr);
        exists r; (split; [exact Hr|]).
      - rewrite position_setDelivered in E. split; [exact E|].
        unfold setDelivered. destruct (Z.eqb_spec (position r) (position m)); [congruence|].
        reflexivity.
      - rewrite position_setFailed in E. split; [exact E|].
        unfold setFailed. now destruct (position r =? position m). }
    destruct Hold as (r & Hr & Hpos & ->).
    apply (Hp _ m' r Hrunning (or_intror Hrest) Hr Hpos).
  - rewrite Hcalls, delivered_snoc. cbn [answer envelope].
    destruct o; cbn [returned]; [|now rewrite app_nil_r].
    apply NoDup_app; [exact Hu | repeat constructor; intros [] |].
    intros p Hp' [<-|[]]. now apply Hfresh.
Qed.

Lemma Once_send (st : State) name mId mType payload :
  Once st -> Once (send name mId mType payload st).
Proof.
  intros [I Hd Hp Hu].
  pose proof (Inv_send st name mId mType payload I) as I'.
  constructor; [exact I' | | | exact Hu]; cbn.
  - intros c r Hc Hret Hr E. apply in_app_or in Hr. destruct Hr as [Hr|[<-|[]]].
    + now apply (Hd c r).
    + cbn in E. pose proof (inv_calls _ I c Hc). lia.
  - intros rows m r Hrows Hm Hr E. apply in_app_or in Hr. destruct Hr as [Hr|[<-|[]]].
    + now apply (Hp rows m r).
    + cbn in E. destruct (inv_running _ I _ Hrows) as [_ Hsnap].
      destruct (Hsnap m Hm) as (r0 & Hr0 & Hp0 & _).
      pose proof (inv_fresh _ I r0 Hr0). lia.
Qed.

Lemma Once_perform (st : State) (c : call) :
  Once st -> Once (perform publish sqlOk checkInterval st c).
Proof.
  intros O. destruct c as [| |e]; cbn [perform].
  - unfold start. destruct (_started st); [exact O|].
    destruct O as [[Hnd Hfr Hct Hcl Hlog Hrun] Hd Hp Hu].
    constructor; [constructor|..]; assumption.
  - unfold stop. destruct O as [[Hnd Hfr Hct Hcl Hlog Hrun] Hd Hp Hu].
    destruct (_intervalId st); (constructor; [constructor|..]; assumption).
  - destruct e as [id| |t|name mId mType payload]; cbn [step].
    + unfold onInterval. destruct (existsb _ _); [now apply Once_tick | exact O].
    + now apply Once_resume.
    + destruct O as [[Hnd Hfr Hct Hcl Hlog Hrun] Hd Hp Hu].
      constructor; [constructor|..]; assumption.
    + now apply Once_send.
Qed.

Lemma Once_performAll (calls : list call) :
  forall st, Once st -> Once (performAll publish sqlOk checkInterval calls st).
Proof.
  induction calls as [|c calls IH]; intros st O; [exact O|].
  apply IH. now apply Once_perform.
Qed.

End PollingOnce.

(** X5. With a database that answers, over any life of a polling consumer
    (starts, stops, timer firings, turns of the loop, messages sent): the
    callback never returns normally twice for the same row, and every row
    it has returned for is marked delivered. *)
Theorem polling_delivers_once
  (publish : list Polling.Call -> Polling.Envelope -> outcome)
  (sqlOk : nat -> bool) (checkInterval : option Z)
  (calls : list PollingCalls.call)
  (database_up : forall n, sqlOk n = true) :
  let st := PollingCalls.performAll publish sqlOk checkInterval calls Polling.init in
  NoDup (PollingCalls.delivered (Polling.calls st)) /\
  forall c r,
    In c (Polling.calls st) -> Polling.answer c = Returns ->
    In r (Polling.table st) ->
    Polling.position r = Polling.env_position (Polling.envelope c) ->
    Polling.delivered r = true.
Proof.
  intros st.
  assert (O : Once st).
  { apply Once_performAll; [exact database_up | apply Once_init]. }
  split; [exact (once_unique _ O)|].
  intros c r Hc Hret. apply (once_delivered _ O c r Hc). now rewrite Hret.
Qed.

(** One message, two ticks: the second finds nothing to deliver. *)
Lemma polling_delivers_once_witness :
  let tick := PollingCalls.Happens (Polling.TimerFires 0) in
  let turn := PollingCalls.Happens Polling.Resume in
  let st := PollingCalls.performAll (fun _ _ => Returns) (fun _ => true) None
              [PollingCalls.CallStart;
               PollingCalls.Happens (Polling.Send "orders" "m-1" "A" "{}");
               tick; turn; tick; turn] Polling.init in
  PollingCalls.delivered (Polling.calls st) = [1] /\
  NoDup (PollingCalls.delivered (Polling.calls st)).
Proof.
  intros tick turn st. split; [reflexivity|].
  exact (proj1 (polling_delivers_once (fun _ _ => Returns) (fun _ => true) None
                  [PollingCalls.CallStart;
                   PollingCalls.Happens (Polling.Send "orders" "m-1" "A" "{}");
                   tick; turn; tick; turn] (fun _ => eq_refl))).
Defined.

Section PollingAnyConsumer.

Import Polling PollingCalls.

Variable f : string -> string.

Lemma insertByAddedAt_renamed (r : Row) (rows : list Row) :
  insertByAddedAt (renamed f r) (map (renamed f) rows) =
    map (renamed f) (insertByAddedAt r rows).
Proof.
  induction rows as [|x rest IH]; cbn [map insertByAddedAt]; [reflexivity|].
  change (addedAt (renamed f r)) with (addedAt r).
  change (addedAt (renamed f x)) with (addedAt x).
  destruct (addedAt r <=? addedAt x); cbn [map]; [reflexivity|].
  now rewrite IH.
Qed.

Lemma orderByAddedAt_renamed (rows : list Row) :
  orderByAddedAt (map (renamed f) rows) = map (renamed f) (orderByAddedAt rows).
Proof.
  induction rows as [|x rest IH]; cbn [map orderByAddedAt fold_right]; [reflexivity|].
  fold (orderByAddedAt (map (renamed f) rest)). fold (orderByAddedAt rest).
  rewrite IH. apply insertByAddedAt_renamed.
Qed.

Lemma pending_renamed (rows : list Row) :
  filter (fun r => negb (Polling.delivered r)) (map (renamed f) rows) =
    map (renamed f) (filter (fun r => negb (Polling.delivered r)) rows).
Proof.
  induction rows as [|x rest IH]; cbn [map filter]; [reflexivity|].
  change (Polling.delivered (renamed f x)) with (Polling.delivered x).
  destruct (negb (Polling.delivered x)); cbn [map]; now rewrite IH.
Qed.

End PollingAnyConsumer.

(** X6. The rows a tick selects do not depend on who they were sent by:
    with the consumer names of the rows changed in any way, the selection
    is the same rows with the names changed, and the envelopes given to the
    callback are the same. The SELECT of the tick has no condition on
    [consumerName], so a polling consumer delivers the undelivered rows of
    every consumer that shares the table. *)
Theorem polling_selects_any_consumer (f : string -> string) (rows : list Polling.Row) :
  Polling.selectPending (map (PollingCalls.renamed f) rows) =
    map (PollingCalls.renamed f) (Polling.selectPending rows) /\
  map Polling.envelopeOf (Polling.selectPending (map (PollingCalls.renamed f) rows)) =
    map Polling.envelopeOf (Polling.selectPending rows).
Proof.
  assert (H : Polling.selectPending (map (PollingCalls.renamed f) rows) =
              map (PollingCalls.renamed f) (Polling.selectPending rows)).
  { unfold Polling.selectPending.
    now rewrite pending_renamed, orderByAddedAt_renamed, firstn_map. }
  split; [exact H|]. rewrite H, map_map. apply map_ext. reflexivity.
Qed.

Section AsyncSend.

Import Store.

Variable sqlOk : nat -> bool.
Variable consumerName : string.
Variable today : Z.

Local Abbreviation send' := (AsyncOutbox.send sqlOk consumerName today).
Local Abbreviation makers := (AsyncOutbox.makersOf consumerName today).

Lemma send_alone (connection : Sql) message (db : AsyncOutbox.Db) :
  hasSavepoint connection = false ->
  match send' (Ok (Some connection)) message None db with
  | (Ok _, db') =>
      rows db' = rows db ++ assign (sequence db) (makers message) /\
      business db' = business db
  | (Throw _, db') => rows db' = rows db /\ business db' = business db
  end.
Proof.
  intros Hplain. destruct connection as [|id]; [|discriminate].
  destruct message as [m|ms]; cbn [AsyncOutbox.send hasSavepoint AsyncOutbox.makersOf].
  - unfold AsyncOutbox._publishOne, execute.
    destruct (sqlOk (statements db)); cbn; rewrite ?app_nil_r; auto.
  - pose proof (withTransaction_atomic Polling.Row
                  (fun sql => AsyncOutbox.publishEach sqlOk consumerName today sql ms)
                  (fun seq => assign seq (makers (inr ms))) []) as H.
    specialize (H (fun id db0 => insertEach_tx_frame _ _ _ _ db0)).
    assert (Hok : forall (id : nat) (db0 db' : AsyncOutbox.Db) P B u,
               inTx Polling.Row id db0 P B ->
               AsyncOutbox.publishEach sqlOk consumerName today (Transaction id) ms db0 =
                 (Ok u, db') ->
               inTx Polling.Row id db' (P ++ assign (sequence db0) (makers (inr ms)))
                 (B ++ [])).
    { intros id db0 db' P B u Hin E. rewrite app_nil_r.
      exact (proj1 (insertEach_tx_ok _ _ _ _ _ _ _ _ _ Hin E)). }
    specialize (H Hok db).
    destruct (withTransaction _ _ db) as [[u|e] db']; [|exact H].
    now rewrite app_nil_r in H.
Qed.

Lemma send_on_tx (connection : Sql) message (id : nat) (db : AsyncOutbox.Db) :
  sameCommitted Polling.Row db (snd (send' (Ok (Some connection)) message (Some id) db)).
Proof.
  destruct message as [m|ms]; cbn [AsyncOutbox.send hasSavepoint].
  - apply execute_tx_frame.
  - apply insertEach_tx_frame.
Qed.

End AsyncSend.

(** X7. [send] of the polling outbox. On the plain connection it is all or
    nothing: one message is one statement, an array goes into a
    transaction of its own, so either every row is committed, in the order
    given and with consecutive positions, or none is. Given [{ tx }] it
    commits nothing itself: the rows wait in that transaction. Without a
    connection it throws before any statement is sent. *)
Theorem async_send_atomic (sqlOk : nat -> bool) (consumerName : string) (today : Z)
  (message : Pg.MessageEnvelope + list Pg.MessageEnvelope) (db : AsyncOutbox.Db) :
  match AsyncOutbox.send sqlOk consumerName today (Ok (Some Store.Connection))
          message None db with
  | (Ok _, db') =>
      Store.rows db' =
        Store.rows db ++
        Store.assign (Store.sequence db) (AsyncOutbox.makersOf consumerName today message)
  | (Throw _, db') => Store.rows db' = Store.rows db
  end /\
  (forall connection id,
     Store.rows (snd (AsyncOutbox.send sqlOk consumerName today (Ok (Some connection))
                        message (Some id) db)) = Store.rows db) /\
  (forall tx,
     AsyncOutbox.send sqlOk consumerName today (Ok None) message tx db =
       (Throw (JsError "Database connection not established. Call start() first."), db)) /\
  (forall e tx,
     AsyncOutbox.send sqlOk consumerName today (Throw e) message tx db = (Throw e, db)).
Proof.
  split; [|split; [|split]].
  - pose proof (send_alone sqlOk consumerName today Store.Connection message db eq_refl) as H.
    destruct (AsyncOutbox.send _ _ _ _ message None db) as [[u|e] db']; tauto.
  - intros connection id.
    exact (proj1 (send_on_tx sqlOk consumerName today connection message id db)).
  - reflexivity.
  - reflexivity.
Qed.

(** * The document backend consumer: what the loop passes over, and how
      failures are reported *)

Section MongoLoop.

Import Mongo MongoTrace.

Variable publish : list action -> Event -> outcome.
Variable onFailedPublish : list action -> outcome.
Variable stopped : list action -> bool.
Variable dbOk : list action -> bool.
Variable now : list action -> option Z.
Variable saveTimestamps : bool.

Local Abbreviation watch' := (watch publish onFailedPublish stopped dbOk now saveTimestamps).
Local Abbreviation iteration' :=
  (iteration publish onFailedPublish stopped dbOk now saveTimestamps).
Local Abbreviation deliver' :=
  (deliver publish onFailedPublish stopped dbOk now saveTimestamps).

Lemma watch_closed (fuel : nat) (cursor : list cursorStep) (st : State) :
  closed st = true -> watch' fuel cursor st = (Break, st).
Proof. intros H. destruct cursor; cbn [watch]; now rewrite H. Qed.

Lemma watch_open (fuel : nat) (step : cursorStep) (rest : list cursorStep) (st : State) :
  closed st = false ->
  watch' fuel (step :: rest) st =
    match iteration' fuel step st with
    | (Continue, st') => watch' fuel rest st'
    | other => other
    end.
Proof. intros H. cbn [watch]. now rewrite H. Qed.

Lemma watch_skips (fuel : nat) (cursor : list cursorStep) :
  forall st, watch' fuel cursor st = watch' fuel (filter relevant cursor) st.
Proof.
  induction cursor as [|step rest IH]; intros st; [reflexivity|].
  destruct (closed st) eqn:Hc; [now rewrite !watch_closed|].
  cbn [filter]. destruct (relevant step) eqn:Hr.
  - rewrite !watch_open by exact Hc.
    destruct (iteration' fuel step st) as [[| |] st']; [apply IH | reflexivity | reflexivity].
  - rewrite watch_open by exact Hc. rewrite <- IH.
    destruct step as [| | |doc]; try discriminate; cbn [iteration]; [reflexivity|].
    cbn [relevant] in Hr. now rewrite Hr.
Qed.

(** ** Failures are reported *)

Definition reports (st st' : State) : Prop :=
  exists seg, trace st' = trace st ++ seg /\ paired false seg = true.

Lemma paired_app (s1 s2 : list action) :
  forall owed, paired owed s1 = true -> paired false s2 = true ->
               paired owed (s1 ++ s2) = true.
Proof.
  induction s1 as [|a s1 IH]; intros owed H1 H2; cbn [app].
  - destruct owed; [discriminate | exact H2].
  - cbn [paired] in *. destruct owed.
    + destruct a; try discriminate. now apply IH.
    + destruct a as [e [|]| | | | | |]; try discriminate; now apply IH.
Qed.

Lemma reports_refl st : reports st st.
Proof. exists []. now rewrite app_nil_r. Qed.

Lemma reports_trans st1 st2 st3 : reports st1 st2 -> reports st2 st3 -> reports st1 st3.
Proof.
  intros (s1 & T1 & P1) (s2 & T2 & P2). exists (s1 ++ s2).
  split; [now rewrite T2, T1, app_assoc | now apply paired_app].
Qed.

Lemma reports_log (a : action) (st : State) :
  paired false [a] = true -> reports st (log a st).
Proof. intros H. exists [a]. now split. Qed.

Lemma wait_reports st : reports st (wait stopped st).
Proof.
  unfold wait. destruct (_ && _).
  - exists [Waited; Closed]. cbn. now rewrite <- app_assoc.
  - now apply reports_log.
Qed.

Lemma onError_reports st : reports st (onError stopped st).
Proof.
  unfold onError. eapply reports_trans; [|apply wait_reports].
  now apply reports_log.
Qed.

Lemma acknowledge_reports doc st : reports st (acknowledge stopped dbOk now doc st).
Proof.
  unfold acknowledge. destruct (dbOk (trace st)); [|apply onError_reports].
  exists [Acked (documentKey doc) (resumeToken doc)]. now split.
Qed.

Lemma waitUntil_reports (fuel : nat) (event : Event) :
  forall st,
    reports st (snd (_waitUntilEventIsSent publish onFailedPublish stopped fuel event st)).
Proof.
  induction fuel as [|fuel IH]; intros st; cbn [_waitUntilEventIsSent];
    destruct (closed st); cbn [snd]; try apply reports_refl.
  destruct (publish (trace st) event); cbn [snd].
  - now apply reports_log.
  - set (st1 := log FailedPublish (log (Published event Throws) st)).
    assert (H1 : reports st st1).
    { exists [Published event Throws; FailedPublish]. subst st1. cbn.
      now rewrite <- app_assoc. }
    destruct (onFailedPublish _); cbn [snd]; [|exact H1].
    eapply reports_trans; [exact H1|].
    eapply reports_trans; [apply wait_reports | apply IH].
Qed.

Lemma deliver_reports (fuel : nat) doc st : reports st (snd (deliver' fuel doc st)).
Proof.
  unfold deliver.
  pose proof (waitUntil_reports fuel (data (fullDocument doc)) st) as H.
  destruct (_waitUntilEventIsSent _ _ _ fuel _ st) as [[[|]| |] st1]; cbn [snd] in *;
    try exact H.
  - destruct saveTimestamps.
    + destruct (now (trace st1)) as [t|]; cbn [snd].
      * destruct (dbOk (trace st1)); cbn [snd].
        -- eapply reports_trans; [exact H|].
           eapply reports_trans; [|apply acknowledge_reports].
           exists [Stamped (_id (fullDocument doc)) t]. now split.
        -- eapply reports_trans; [exact H | apply onError_reports].
      * eapply reports_trans; [exact H | apply onError_reports].
    + cbn [snd]. eapply reports_trans; [exact H | apply acknowledge_reports].
  - eapply reports_trans; [exact H | apply onError_reports].
Qed.

Lemma iteration_reports (fuel : nat) step st : reports st (snd (iteration' fuel step st)).
Proof.
  destruct step as [| | |doc]; cbn [iteration snd].
  - exists [Closed]. now split.
  - apply reports_refl.
  - apply onError_reports.
  - destruct (isInsert (operationType doc)); [apply deliver_reports | apply reports_refl].
Qed.

Lemma watch_reports (fuel : nat) (cursor : list cursorStep) :
  forall st, reports st (snd (watch' fuel cursor st)).
Proof.
  induction cursor as [|step rest IH]; intros st; cbn [watch].
  - destruct (closed st); apply reports_refl.
  - destruct (closed st); [apply reports_refl|].
    pose proof (iteration_reports fuel step st) as H.
    destruct (iteration' fuel step st) as [[| |] st1]; cbn [snd] in *; try exact H.
    eapply reports_trans; [exact H | apply IH].
Qed.

End MongoLoop.

Section MongoCounts.

Import Mongo MongoTrace.

(** The number of [onFailedPublish] calls of a trace, and the number of
    publish calls that threw. *)
Definition reported (seg : list action) : nat :=
  List.length (filter (fun a => match a with FailedPublish => true | _ => false end) seg).

Definition failed (calls : list (Event * outcome)) : nat :=
  List.length (filter (fun p => negb (returned (snd p))) calls).

Lemma paired_count (seg : list action) :
  forall owed, paired owed seg = true ->
    reported seg = ((if owed then 1 else 0) + failed (publishes seg))%nat.
Proof.
  unfold reported, failed.
  induction seg as [|a seg IH]; intros owed Hp; cbn [paired] in Hp.
  - destruct owed; [discriminate | reflexivity].
  - destruct owed.
    + destruct a; try discriminate.
      cbn [filter List.length publishes flat_map app]. fold (publishes seg).
      rewrite (IH false Hp). reflexivity.
    + destruct a as [e [|]| | | | | |]; try discriminate;
        cbn [filter List.length publishes flat_map app snd returned negb];
        fold (publishes seg); rewrite (IH _ Hp); lia.
Qed.

End MongoCounts.

(** X8. The loop of the document backend passes over what is not an
    insert: a cursor with its empty polls and its changes of other
    operation types (update, replace, delete, invalidate) taken out gives
    the same result, state and trace as the cursor itself. *)
Theorem watch_ignores_other_changes
  (publish : list Mongo.action -> Mongo.Event -> outcome)
  (onFailedPublish : list Mongo.action -> outcome)
  (stopped dbOk : list Mongo.action -> bool) (now : list Mongo.action -> option Z)
  (saveTimestamps : bool) (fuel : nat) (cursor : list Mongo.cursorStep)
  (st : Mongo.State) :
  Mongo.watch publish onFailedPublish stopped dbOk now saveTimestamps fuel cursor st =
  Mongo.watch publish onFailedPublish stopped dbOk now saveTimestamps fuel
    (filter MongoTrace.relevant cursor) st.
Proof. apply watch_skips. Qed.

(** X9. In what the loop of the document backend does, every publish call
    that throws is followed at once by a call of [onFailedPublish], before
    any wait, retry or write, and [onFailedPublish] is called at no other
    time; so there are as many [onFailedPublish] calls as failed publish
    calls. *)
Theorem failed_publish_is_reported
  (publish : list Mongo.action -> Mongo.Event -> outcome)
  (onFailedPublish : list Mongo.action -> outcome)
  (stopped dbOk : list Mongo.action -> bool) (now : list Mongo.action -> option Z)
  (saveTimestamps : bool) (fuel : nat) (cursor : list Mongo.cursorStep)
  (st : Mongo.State) :
  exists seg,
    Mongo.trace (snd (Mongo.watch publish onFailedPublish stopped dbOk now
                        saveTimestamps fuel cursor st)) = Mongo.trace st ++ seg /\
    MongoTrace.paired false seg = true /\
    reported seg = failed (MongoTrace.publishes seg).
Proof.
  destruct (watch_reports publish onFailedPublish stopped dbOk now saveTimestamps
              fuel cursor st) as (seg & Ht & Hp).
  exists seg. split; [exact Ht|]. split; [exact Hp|].
  now rewrite (paired_count seg false Hp).
Qed.

Section MongoSmooth.

Import Mongo MongoTrace.

Variable publish : list action -> Event -> outcome.
Variable onFailedPublish : list action -> outcome.
Variable stopped : list action -> bool.
Variable dbOk : list action -> bool.
Variable now : list action -> option Z.
Variable saveTimestamps : bool.

Hypothesis publish_returns : forall t e, publish t e = Returns.
Hypothesis database_up : forall t, dbOk t = true.
Hypothesis clock_ok : saveTimestamps = true -> forall t, now t <> None.

Local Abbreviation watch' := (watch publish onFailedPublish stopped dbOk now saveTimestamps).
Local Abbreviation deliver' :=
  (deliver publish onFailedPublish stopped dbOk now saveTimestamps).




End MongoSmooth.



(** * The log backend consumer: the pieces around the stream *)

Section KillPhases.

Import Lifecycle.

Variable driver : list driverCall -> driverCall -> option (list Z).

(** The sessions a select finds, none when the select is rejected. *)
Definition found (calls : list driverCall) (select : driverCall) : list Z :=
  match driver calls select with Some pids => pids | None => [] end.

Lemma terminateAll_prefix (pids : list Z) :
  forall h,
    slotName (snd (terminateAll driver pids h)) = slotName h /\
    exists k,
      driverCalls (snd (terminateAll driver pids h)) =
        driverCalls h ++ map TerminateBackend (firstn k pids) /\
      ((forall calls c, driver calls c <> None) -> firstn k pids = pids).
Proof.
  induction pids as [|pid rest IH]; intros h; cbn [terminateAll].
  - split; [reflexivity|]. exists 0%nat. cbn. rewrite app_nil_r. auto.
  - unfold call. destruct (driver (driverCalls h) (TerminateBackend pid)) eqn:E.
    + set (h1 := {| slotName := slotName h; hasAsyncOutbox := _; _state := _;
                    driverCalls := driverCalls h ++ [TerminateBackend pid] |}).
      destruct (IH h1) as (Hs & k & Hk & Hall).
      split; [exact Hs|]. exists (S k). split.
      * rewrite Hk. subst h1. cbn. now rewrite <- app_assoc.
      * intros Hup. cbn [firstn]. now rewrite (Hall Hup).
    + cbn [snd slotName driverCalls]. split; [reflexivity|].
      exists 1%nat. split; [destruct rest; reflexivity|].
      intros Hup. now destruct (Hup (driverCalls h) (TerminateBackend pid)).
Qed.

Lemma killMatching_phase (select : driverCall) (h : Handle) :
  let h' := swallow (killMatching driver select) h in
  slotName h' = slotName h /\
  exists k,
    driverCalls h' =
      driverCalls h ++ select ::
      map TerminateBackend (firstn k (found (driverCalls h) select)) /\
    ((forall calls c, driver calls c <> None) ->
     firstn k (found (driverCalls h) select) = found (driverCalls h) select).
Proof.
  unfold swallow, killMatching, call, found.
  destruct (driver (driverCalls h) select) as [pids|] eqn:E; cbn [snd].
  - set (h1 := {| slotName := slotName h; hasAsyncOutbox := _; _state := _;
                  driverCalls := driverCalls h ++ [select] |}).
    destruct (terminateAll_prefix pids h1) as (Hs & k & Hk & Hall).
    split; [exact Hs|]. exists k. split; [|exact Hall].
    rewrite Hk. subst h1. cbn. now rewrite <- app_assoc.
  - split; [reflexivity|]. exists 0%nat. cbn. auto.
Qed.

End KillPhases.

(** X11. [killReplicationProcesses] always goes through both of its
    phases and never throws: it asks for the sessions streaming from the
    slot and terminates them one by one, then asks for the idle sessions
    of the slot and terminates those. A select or a termination that is
    rejected ends its own phase only; with drivers that answer, every
    session found is terminated, in the order found. *)
Theorem kill_goes_through_both_phases
  (driver : list Lifecycle.driverCall -> Lifecycle.driverCall -> option (list Z))
  (h : Lifecycle.Handle) :
  let slot := Lifecycle.slotName h in
  let r := Lifecycle.killReplicationProcesses driver h in
  fst r = Ok tt /\
  exists streaming idle : list Z,
    let first :=
      Lifecycle.driverCalls h ++ Lifecycle.SelectStreaming slot ::
      map Lifecycle.TerminateBackend streaming in
    Lifecycle.driverCalls (snd r) =
      first ++ Lifecycle.SelectIdle slot :: map Lifecycle.TerminateBackend idle /\
    (exists k, streaming =
       firstn k (found driver (Lifecycle.driverCalls h) (Lifecycle.SelectStreaming slot))) /\
    (exists k, idle = firstn k (found driver first (Lifecycle.SelectIdle slot))) /\
    ((forall calls c, driver calls c <> None) ->
     streaming = found driver (Lifecycle.driverCalls h) (Lifecycle.SelectStreaming slot) /\
     idle = found driver first (Lifecycle.SelectIdle slot)).
Proof.
  intros slot r. split; [reflexivity|].
  subst r. unfold Lifecycle.killReplicationProcesses. cbn [snd].
  destruct (killMatching_phase driver (Lifecycle.SelectStreaming slot) h)
    as (Hs1 & k1 & Hk1 & Hall1).
  fold slot. set (h1 := Lifecycle.swallow _ h) in *.
  destruct (killMatching_phase driver (Lifecycle.SelectIdle (Lifecycle.slotName h1)) h1)
    as (Hs2 & k2 & Hk2 & Hall2).
  rewrite Hs1 in Hk2, Hall2. fold slot in Hk2, Hall2. rewrite Hs1. fold slot.
  rewrite Hk1 in Hk2, Hall2.
  eexists. eexists. cbn zeta. split; [exact Hk2|].
  split; [now exists k1|]. split; [now exists k2|].
  intros Hup. split; [now apply Hall1 | now apply Hall2].
Qed.

(** Drivers that find one streaming session and, afterwards, one idle
    one. *)
Lemma kill_goes_through_both_phases_witness :
  let driver := fun (calls : list Lifecycle.driverCall) (c : Lifecycle.driverCall) =>
                  match c with
                  | Lifecycle.SelectStreaming _ => Some [41]
                  | Lifecycle.SelectIdle _ => Some [52]
                  | _ => Some []
                  end in
  let h := {| Lifecycle.slotName := "hermes_slot"; Lifecycle.hasAsyncOutbox := false;
              Lifecycle._state := None; Lifecycle.driverCalls := [] |} in
  Lifecycle.driverCalls (snd (Lifecycle.killReplicationProcesses driver h)) =
    [Lifecycle.SelectStreaming "hermes_slot"; Lifecycle.TerminateBackend 41;
     Lifecycle.SelectIdle "hermes_slot"; Lifecycle.TerminateBackend 52].
Proof.
  intros driver h.
  destruct (kill_goes_through_both_phases driver h)
    as (_ & streaming & idle & Hcalls & _ & _ & Hall).
  destruct (Hall ltac:(intros calls []; discriminate)) as [-> ->].
  exact Hcalls.
Defined.

Section QueueKey.

Import Store.

Variable sqlOk : nat -> bool.

Lemma orDefault_filled (pKey : option string) : Pg.orDefault pKey <> ""%string.
Proof. destruct pKey as [[|a s]|]; cbn; discriminate. Qed.

Lemma assign_keyed (pKey : string) (ms : list Pg.MessageEnvelope) :
  forall seq,
    Forall (fun row => Pg.partitionKey row = pKey)
           (assign seq (map (fun m => Pg.rowOf m pKey) ms)).
Proof.
  induction ms as [|m ms IH]; intros seq; cbn [map assign]; constructor; auto.
Qed.

Lemma makers_keyed (message : Pg.MessageEnvelope + list Pg.MessageEnvelope)
  (pKey : option string) (seq : Z) :
  Forall (fun row => Pg.partitionKey row = Pg.orDefault pKey)
         (assign seq (Pg.makersOf message pKey)).
Proof.
  destruct message as [m|ms]; cbn [Pg.makersOf].
  - apply (assign_keyed (Pg.orDefault pKey) [m]).
  - apply assign_keyed.
Qed.

End QueueKey.

(** X12. [queue] never stores an empty partition key. The rows a call
    adds carry the key of its options, and the key is ["default"] when
    the options are missing, name no key or name the empty string; this
    holds for the rows committed by a call on the consumer's own
    connection and for the rows left pending in the caller's
    transaction. *)
Theorem queue_partition_key :
  (forall pKey, Pg.orDefault pKey <> ""%string) /\
  (forall s, s <> ""%string -> Pg.orDefault (Some s) = s) /\
  Pg.orDefault (Some ""%string) = "default"%string /\
  (forall sqlOk message pKey db,
     exists added,
       Store.rows (snd (Pg.queue sqlOk (Some Store.Connection) message
                          (Some {| Pg.tx := None; Pg.optionsPartitionKey := pKey |}) db)) =
         Store.rows db ++ added /\
       Forall (fun row => Pg.partitionKey row = Pg.orDefault pKey) added) /\
  (forall sqlOk message db,
     exists added,
       Store.rows (snd (Pg.queue sqlOk (Some Store.Connection) message None db)) =
         Store.rows db ++ added /\
       Forall (fun row => Pg.partitionKey row = "default"%string) added) /\
  (forall sqlOk id message pKey db db' P B u,
     inTx Pg.InsertResult id db P B ->
     Pg.queue sqlOk (Some Store.Connection) message
       (Some {| Pg.tx := Some id; Pg.optionsPartitionKey := pKey |}) db = (Ok u, db') ->
     exists added,
       inTx Pg.InsertResult id db' (P ++ added) B /\
       Forall (fun row => Pg.partitionKey row = Pg.orDefault pKey) added).
Proof.
  split; [exact orDefault_filled|].
  split; [intros [|a s] H; [contradiction|reflexivity]|].
  split; [reflexivity|].
  assert (Halone : forall sqlOk message pKey db,
     exists added,
       Store.rows (snd (Pg.queue sqlOk (Some Store.Connection) message
                          (Some {| Pg.tx := None; Pg.optionsPartitionKey := pKey |}) db)) =
         Store.rows db ++ added /\
       Forall (fun row => Pg.partitionKey row = Pg.orDefault pKey) added).
  { intros sqlOk message pKey db.
    pose proof (queue_alone sqlOk message pKey db) as H.
    destruct (Pg.queue _ _ _ _ db) as [[u|e] db']; cbn [snd].
    - exists (Store.assign (Store.sequence db) (Pg.makersOf message pKey)).
      split; [exact (proj1 H) | apply makers_keyed].
    - exists []. rewrite app_nil_r. split; [exact (proj1 H) | constructor]. }
  split; [exact Halone|].
  split.
  - intros sqlOk message db. exact (Halone sqlOk message None db).
  - intros sqlOk id message pKey db db' P B u Hin E.
    exists (Store.assign (Store.sequence db) (Pg.makersOf message pKey)).
    split; [|apply makers_keyed].
    exact (proj1 (queueOn_ok sqlOk id (message, pKey) db db' P B u Hin E)).
Qed.

(** A message queued with the empty key inside the caller's
    transaction waits there under ["default"]. *)
Lemma queue_partition_key_witness :
  let db := snd (Store.begin Pg.InsertResult
                   {| Store.rows := []; Store.business := []; Store.open := [];
                      Store.nextTx := 0; Store.sequence := 1; Store.statements := 0 |}) in
  let m := {| Pg.envelopeId := "m1"; Pg.envelopeType := "Counted";
              Pg.envelopeMessage := "{}" |} in
  let r := Pg.queue (fun _ => true) (Some Store.Connection) (inl m)
             (Some {| Pg.tx := Some 0%nat; Pg.optionsPartitionKey := Some ""%string |}) db in
  exists added,
    inTx Pg.InsertResult 0 (snd r) ([] ++ added) [] /\
    Forall (fun row => Pg.partitionKey row = "default"%string) added.
Proof.
  intros db m r.
  destruct queue_partition_key as (_ & _ & _ & _ & _ & Htx).
  exact (Htx (fun _ => true) 0%nat (inl m) (Some ""%string) db (snd r) [] [] tt
           eq_refl eq_refl).
Defined.

(** * Projections *)

Section ProjectionFacts.

Import Projections.

Variable State : Type.
Variable EventType : Type.

Local Abbreviation Projection := (HermesProjection State EventType).
Local Abbreviation Doc := (HermesProjectionDocument State).

Lemma includes_In (names : list EventName) (n : EventName) :
  includes names n = true <-> In n names.
Proof.
  unfold includes. rewrite existsb_exists. split.
  - intros (x & Hin & E). apply String.eqb_eq in E. now subst.
  - intros Hin. exists n. split; [exact Hin | apply String.eqb_refl].
Qed.

(** **** The builder *)

Lemma ofEvent_names (event : EventName) (b : Builder State EventType) :
  let b' := ofEvent State EventType event b in
  (NoDup (ofEvents (builderCommon b)) -> NoDup (ofEvents (builderCommon b'))) /\
  (forall e, In e (ofEvents (builderCommon b')) <->
             In e (ofEvents (builderCommon b)) \/ e = event) /\
  name (builderCommon b') = name (builderCommon b) /\
  builderStoreType b' = builderStoreType b.
Proof.
  unfold ofEvent, mutate. cbn [builderCommon builderStoreType].
  destruct (includes (ofEvents (builderCommon b)) event) eqn:E.
  - apply includes_In in E. repeat split; auto.
    intros [H | ->]; assumption.
  - assert (Hnot : ~ In event (ofEvents (builderCommon b))).
    { intros H. apply includes_In in H. congruence. }
    cbn [ofEvents name]. repeat split; auto.
    + intros Hnd. apply NoDup_app; [exact Hnd | repeat constructor; intros [] | ].
      intros x Hx [<- | []]. exact (Hnot Hx).
    + intros H. apply in_app_or in H. destruct H as [H | [<- | []]]; auto.
    + intros [H | ->]; apply in_or_app; [left | right; left]; auto.
Qed.

Lemma ofEventChain_names (events : list EventName) :
  forall b : Builder State EventType,
    let b' := ofEventChain State EventType events b in
    (NoDup (ofEvents (builderCommon b)) -> NoDup (ofEvents (builderCommon b'))) /\
    (forall e, In e (ofEvents (builderCommon b')) <->
               In e (ofEvents (builderCommon b)) \/ In e events) /\
    name (builderCommon b') = name (builderCommon b) /\
    builderStoreType b' = builderStoreType b.
Proof.
  induction events as [|event rest IH]; intros b; cbn [ofEventChain fold_left].
  - repeat split; auto. intros [H | []]; exact H.
  - destruct (ofEvent_names event b) as (Hnd & Hin & Hname & Hst).
    destruct (IH (ofEvent State EventType event b)) as (Hnd' & Hin' & Hname' & Hst').
    unfold ofEventChain in *.
    split; [auto|]. split; [|split; congruence].
    intros e. rewrite Hin', Hin. cbn [In]. intuition auto.
Qed.

(** **** The table *)

Lemma lookup_upsert (i id : string) (s : State) (rows : list (string * Doc)) :
  lookupDoc State id (upsertDoc State i s rows) =
    if String.eqb i id
    then Some {| data := s;
                 _version := match lookupDoc State id rows with
                             | Some d => _version d + 1
                             | None => 0
                             end |}
    else lookupDoc State id rows.
Proof.
  induction rows as [|[j d] rest IH]; cbn [upsertDoc lookupDoc].
  - destruct (String.eqb i id); reflexivity.
  - destruct (String.eqb j i) eqn:Eji.
    + apply String.eqb_eq in Eji. subst j. cbn [lookupDoc].
      destruct (String.eqb i id); reflexivity.
    + cbn [lookupDoc]. destruct (String.eqb j id) eqn:Ejd.
      * apply String.eqb_eq in Ejd. subst j. now rewrite String.eqb_sym, Eji.
      * exact IH.
Qed.

(** **** Updating *)

(** What one event does to the row of [id]: nothing unless it is the
    event's row, and then the row holds what [evolve] made of the
    state before, one version further. *)
Definition applied (projection : Projection) (id : string) (d : option Doc)
  (event : EventType) : option Doc :=
  match getProjectionId (common projection) event with
  | Ok i =>
      if String.eqb i id
      then
        match currentState State EventType projection d with
        | Ok current =>
            match evolve (common projection) current event with
            | Ok newState =>
                Some {| data := newState;
                        _version := match d with
                                    | Some old => _version old + 1
                                    | None => 0
                                    end |}
            | Throw _ => d
            end
        | Throw _ => d
        end
      else d
  | Throw _ => d
  end.

Definition replay (projection : Projection) (id : string) (events : list EventType)
  (d : option Doc) : option Doc :=
  fold_left (applied projection id) events d.

Variable sqlOk : nat -> bool.
Variable parse : string -> option EventType.

Local Abbreviation updateOne' := (updateOne State EventType sqlOk).
Local Abbreviation updateEach' := (updateEach State EventType sqlOk).

Lemma updateOne_step (projection : Projection) (event : EventType) (t : Table State) :
  match updateOne' projection event t with
  | (Ok _, t') =>
      (forall id, lookupDoc State id (docs t') =
                  applied projection id (lookupDoc State id (docs t)) event) /\
      statements t' = (statements t + 2)%nat
  | (Throw _, t') =>
      docs t' = docs t /\ (statements t <= statements t' <= statements t + 2)%nat
  end.
Proof.
  unfold updateOne, selectById.
  destruct (getProjectionId (common projection) event) as [i|e] eqn:Eid;
    [|split; [reflexivity | lia]].
  destruct (sqlOk (statements t)); [|cbn; split; [reflexivity | lia]].
  destruct (currentState State EventType projection (lookupDoc State i (docs t)))
    as [current|e] eqn:Ecur; [|cbn; split; [reflexivity | lia]].
  destruct (evolve (common projection) current event) as [newState|e] eqn:Eev;
    [|cbn; split; [reflexivity | lia]].
  assert (Hsame : (match storeType projection with
                   | document => updateDocumentProjection State sqlOk i newState (sent State t)
                   | sql => updateDocumentProjection State sqlOk i newState (sent State t)
                   end) = updateDocumentProjection State sqlOk i newState (sent State t))
    by (destruct (storeType projection); reflexivity).
  rewrite Hsame. unfold updateDocumentProjection. cbn [sent statements docs].
  destruct (sqlOk (S (statements t))); cbn [sent docs statements];
    [|split; [reflexivity | lia]].
  split; [|lia]. intros id. rewrite lookup_upsert. unfold applied. rewrite Eid.
  destruct (String.eqb i id) eqn:E; [|reflexivity].
  apply String.eqb_eq in E. subst id. now rewrite Ecur, Eev.
Qed.

Lemma replay_snoc (projection : Projection) (id : string) (events : list EventType)
  (event : EventType) (d : option Doc) :
  replay projection id (events ++ [event]) d =
    applied projection id (replay projection id events d) event.
Proof. unfold replay. now rewrite fold_left_app. Qed.

Lemma updateEach_prefix (projection : Projection) (events : list EventType) :
  forall t : Table State,
    let r := updateEach' projection events t in
    exists k,
      (k <= List.length events)%nat /\
      (forall id, lookupDoc State id (docs (snd r)) =
                  replay projection id (firstn k events) (lookupDoc State id (docs t))) /\
      (statements t + 2 * k <= statements (snd r) <= statements t + 2 * k + 2)%nat /\
      (forall u, fst r = Ok u ->
                 k = List.length events /\
                 statements (snd r) = (statements t + 2 * k)%nat) /\
      (forall e, fst r = Throw e -> (k < List.length events)%nat).
Proof.
  induction events as [|event rest IH]; intros t; cbn [updateEach].
  - exists 0%nat. cbn. repeat split; try lia; intros; try discriminate; lia.
  - pose proof (updateOne_step projection event t) as Hstep.
    destruct (updateOne' projection event t) as [[u|e] t1].
    + destruct Hstep as [Hdocs Hst].
      destruct (IH t1) as (k & Hk & Hrep & Hcount & Hok & Hthrow).
      exists (S k). cbn [List.length firstn]. split; [lia|].
      split; [|split; [|split]].
      * intros id. rewrite Hrep, Hdocs. reflexivity.
      * lia.
      * intros u' E. destruct (Hok u' E) as [-> ->]. split; lia.
      * intros e E. specialize (Hthrow e E). lia.
    + destruct Hstep as [Hdocs Hst]. exists 0%nat. cbn [snd fst firstn List.length].
      rewrite Hdocs. split; [lia|]. split; [reflexivity|]. split; [lia|].
      split; [intros; discriminate | intros; lia].
Qed.

Lemma updateEach_returns (projection : Projection) (events : list EventType) :
  (forall n, sqlOk n = true) ->
  (forall event, In event events ->
     exists id, getProjectionId (common projection) event = Ok id) ->
  (forall current event, In event events ->
     exists newState, evolve (common projection) current event = Ok newState) ->
  (forall init, getInitialState (common projection) = Some init ->
     exists s, init tt = Ok s) ->
  forall t, fst (updateEach' projection events t) = Ok tt.
Proof.
  intros Hsql Hid Hev Hinit.
  induction events as [|event rest IH]; intros t; cbn [updateEach]; [reflexivity|].
  assert (Hone : exists t1, updateOne' projection event t = (Ok tt, t1)).
  { unfold updateOne, selectById.
    destruct (Hid event (or_introl eq_refl)) as (i & ->).
    rewrite Hsql.
    assert (Hcur : exists current,
               currentState State EventType projection (lookupDoc State i (docs t))
               = Ok current).
    { unfold currentState. destruct (lookupDoc State i (docs t)); [eauto|].
      destruct (getInitialState (common projection)) as [init|] eqn:E; [|eauto].
      destruct (Hinit init eq_refl) as (s & ->). cbn. eauto. }
    destruct Hcur as (current & ->).
    destruct (Hev current event (or_introl eq_refl)) as (newState & ->).
    unfold updateDocumentProjection. rewrite Hsql.
    destruct (storeType projection); eauto. }
  destruct Hone as (t1 & ->).
  apply IH; intros; [apply Hid | apply Hev]; right; assumption.
Qed.

(** **** Impacted projections *)

Lemma isOneOfEventsOnTheList_spec (events list : Datatypes.list EventName) :
  isOneOfEventsOnTheList events list = true <->
  exists e, In e events /\ In e list.
Proof.
  unfold isOneOfEventsOnTheList, intersection.
  rewrite negb_true_iff, Nat.eqb_neq. split.
  - intros H.
    destruct (nodup string_dec (filter (includes list) events)) as [|e rest] eqn:E;
      [now destruct H|].
    assert (Hin : In e (nodup string_dec (filter (includes list) events)))
      by (rewrite E; now left).
    apply nodup_In, filter_In in Hin. destruct Hin as [H1 H2].
    exists e. split; [exact H1 | now apply includes_In].
  - intros (e & H1 & H2) Hlen.
    assert (Hin : In e (nodup string_dec (filter (includes list) events))).
    { apply nodup_In, filter_In. split; [exact H1 | now apply includes_In]. }
    destruct (nodup string_dec (filter (includes list) events)); [exact Hin | discriminate].
Qed.

Lemma handled_nonempty (projection : Projection) (results : list Pg.InsertResult) :
  handled State EventType projection results <> [] <->
  exists e, In e (ofEvents (common projection)) /\ In e (map Pg.messageType results).
Proof.
  unfold handled. split.
  - intros H.
    destruct (filter _ results) as [|row rest] eqn:E; [now destruct H|].
    assert (Hin : In row (filter
              (fun event => includes (ofEvents (common projection)) (Pg.messageType event))
              results)) by (rewrite E; now left).
    apply filter_In in Hin. destruct Hin as [H1 H2].
    exists (Pg.messageType row). split; [now apply includes_In | now apply in_map].
  - intros (e & H1 & H2) E.
    apply in_map_iff in H2. destruct H2 as (row & <- & Hrow).
    assert (Hin : In row (filter
              (fun event => includes (ofEvents (common projection)) (Pg.messageType event))
              results)).
    { apply filter_In. split; [exact Hrow | now apply includes_In]. }
    rewrite E in Hin. exact Hin.
Qed.

Lemma impacted_iff (projections : list Projection) (transaction : Pg.Transaction)
  (p : Projection) :
  In p (getImpactedProjections State EventType projections transaction) <->
  In p projections /\ handled State EventType p (Pg.results transaction) <> [].
Proof.
  unfold getImpactedProjections. rewrite filter_In, isOneOfEventsOnTheList_spec.
  now rewrite handled_nonempty.
Qed.

End ProjectionFacts.

(** X13. A projection built with [ofEvent] names each event type once,
    however often the builder was told of it, and names no other: the
    chain [defineHermesProjection().ofName(n).ofDocumentType()
    .ofEvent(e1)...ofEvent(ek).ofEvolve(f).ofId(g).done()] gives a
    projection called [n] whose list of event types has no duplicates
    and holds exactly [e1..ek]; from a transaction it takes exactly the
    rows of those types. *)
Theorem builder_names_each_event_once (State EventType : Type) (n : string)
  (named : list Projections.EventName)
  (f : option State -> EventType -> result State) (g : EventType -> result string) :
  exists p,
    Projections.done State EventType
      (Projections.ofId State EventType g
         (Projections.ofEvolve State EventType f
            (Projections.ofEventChain State EventType named
               (Projections.ofDocumentType State EventType
                  (Projections.ofName State EventType n
                     (Projections.defineHermesProjection State EventType)))))) = Some p /\
    Projections.name (Projections.common p) = n /\
    Projections.storeType p = Projections.document /\
    NoDup (Projections.ofEvents (Projections.common p)) /\
    (forall e, In e (Projections.ofEvents (Projections.common p)) <-> In e named) /\
    (forall results row,
       In row (Projections.handled State EventType p results) <->
       In row results /\ In (Pg.messageType row) named).
Proof.
  set (b0 := Projections.ofDocumentType State EventType
               (Projections.ofName State EventType n
                  (Projections.defineHermesProjection State EventType))).
  destruct (ofEventChain_names State EventType named b0) as (Hnd & Hin & Hname & Hst).
  set (b := Projections.ofEventChain State EventType named b0) in *.
  unfold Projections.done, Projections.ofId, Projections.ofEvolve, Projections.mutate.
  cbn [Projections.builderStoreType Projections.builderCommon].
  rewrite Hst. cbn [b0 Projections.ofDocumentType Projections.builderStoreType].
  eexists. split; [reflexivity|].
  cbn [Projections.common Projections.name Projections.ofEvents Projections.storeType].
  assert (Hnamed : forall e, In e (Projections.ofEvents (Projections.builderCommon b))
                             <-> In e named).
  { intros e. rewrite Hin. cbn. tauto. }
  split; [rewrite Hname; reflexivity|]. split; [reflexivity|].
  split; [apply Hnd; constructor|]. split; [exact Hnamed|].
  intros results row. unfold Projections.handled. rewrite filter_In.
  cbn [Projections.common Projections.ofEvents]. now rewrite includes_In, Hnamed.
Qed.

(** X14. [getImpactedProjections] keeps exactly the projections that
    name the type of some row of the transaction, in their order; for
    every projection it leaves out, [updateProjection] is a no-op: it
    parses nothing, sends no statement and returns. *)
Theorem impacted_projections_are_the_updated (State EventType : Type)
  (sqlOk : nat -> bool) (parse : string -> option EventType)
  (projections : list (Projections.HermesProjection State EventType))
  (transaction : Pg.Transaction) :
  (forall p,
     In p (Projections.getImpactedProjections State EventType projections transaction) <->
     In p projections /\
     exists row, In row (Pg.results transaction) /\
                 In (Pg.messageType row) (Projections.ofEvents (Projections.common p))) /\
  (forall p t,
     In p projections ->
     ~ In p (Projections.getImpactedProjections State EventType projections transaction) ->
     Projections.updateProjection State EventType sqlOk parse p transaction t = (Ok tt, t)).
Proof.
  split.
  - intros p. rewrite impacted_iff, handled_nonempty. split.
    + intros (Hp & e & H1 & H2). split; [exact Hp|].
      apply in_map_iff in H2. destruct H2 as (row & <- & Hrow). eauto.
    + intros (Hp & row & Hrow & H). split; [exact Hp|].
      exists (Pg.messageType row). split; [exact H | now apply in_map].
  - intros p t Hp Hnot. unfold Projections.updateProjection.
    destruct (Projections.handled State EventType p (Pg.results transaction)) eqn:E;
      [reflexivity|].
    destruct Hnot. apply impacted_iff. split; [exact Hp|]. rewrite E. discriminate.
Qed.


(** One projection that counts the events of a key, and a transaction
    with two events of one key. *)
Definition countingProjection : Projections.HermesProjection Z string :=
  {| Projections.common :=
       {| Projections.name := "counters";
          Projections.ofEvents := ["Counted"%string];
          Projections.evolve :=
            fun current _ => Ok (match current with Some n => n + 1 | None => 1 end);
          Projections.getProjectionId := fun event => Ok event;
          Projections.getInitialState := None |};
     Projections.storeType := Projections.document |}.

Definition countedTwice : Pg.Transaction :=
  {| Pg.transactionId := 7; Pg.lsn := 100; Pg.timestamp := 0;
     Pg.results :=
       [ {| Pg.position := 1; Pg.messageId := "m1"; Pg.messageType := "Counted";
            Pg.partitionKey := "default"; Pg.payload := "k1" |};
         {| Pg.position := 2; Pg.messageId := "m2"; Pg.messageType := "Other";
            Pg.partitionKey := "default"; Pg.payload := "k2" |};
         {| Pg.position := 3; Pg.messageId := "m3"; Pg.messageType := "Counted";
            Pg.partitionKey := "default"; Pg.payload := "k1" |} ] |}.


(** A transaction without an event of the counting projection leaves
    its table alone. *)
Lemma impacted_projections_are_the_updated_witness :
  let transaction :=
    {| Pg.transactionId := 8; Pg.lsn := 101; Pg.timestamp := 0;
       Pg.results :=
         [ {| Pg.position := 4; Pg.messageId := "m4"; Pg.messageType := "Other";
              Pg.partitionKey := "default"; Pg.payload := "not json" |} ] |} in
  let t := {| Projections.docs :=
                [("k1"%string, {| Projections.data := 5; Projections._version := 3 |})];
              Projections.statements := 0 |} in
  Projections.getImpactedProjections Z string [countingProjection] transaction = [] /\
  Projections.updateProjection Z string (fun _ => false) (fun _ => None)
    countingProjection transaction t = (Ok tt, t).
Proof.
  intros transaction t. split; [reflexivity|].
  apply (proj2 (impacted_projections_are_the_updated Z string (fun _ => false)
                  (fun _ => None) [countingProjection] transaction)).
  - now left.
  - intros H. exact H.
Defined.



Section ProjectionVersions.

Import Projections.

Variable State : Type.
Variable EventType : Type.
Variable p : HermesProjection State EventType.
Variable id : string.

(** The events whose row is [id]. *)
Definition eventsOf (events : list EventType) : list EventType :=
  filter (fun event =>
            match getProjectionId (common p) event with
            | Ok i => String.eqb i id
            | Throw _ => false
            end) events.

Lemma eventsOf_cons (event : EventType) (rest : list EventType) :
  eventsOf (event :: rest) =
    if match getProjectionId (common p) event with
       | Ok i => String.eqb i id
       | Throw _ => false
       end
    then event :: eventsOf rest
    else eventsOf rest.
Proof. reflexivity. Qed.

Lemma replay_version (events : list EventType) :
  (forall current event, In event events ->
     exists newState, evolve (common p) current event = Ok newState) ->
  (forall init, getInitialState (common p) = Some init -> exists s, init tt = Ok s) ->
  forall d,
    let n := Z.of_nat (List.length (eventsOf events)) in
    match d, replay State EventType p id events d with
    | Some old, Some new => _version new = _version old + n
    | None, Some new => 0 < n /\ _version new = n - 1
    | None, None => n = 0
    | Some _, None => False
    end.
Proof.
  intros Hev Hinit.
  induction events as [|event rest IH]; intros d.
  - cbn. destruct d; lia.
  - assert (Hrest : forall current e, In e rest ->
               exists newState, evolve (common p) current e = Ok newState)
      by (intros; apply Hev; now right).
    specialize (IH Hrest). cbv zeta in *.
    rewrite eventsOf_cons.
    assert (Hcase :
      (match getProjectionId (common p) event with
       | Ok i => String.eqb i id
       | Throw _ => false
       end = false /\ applied State EventType p id d event = d) \/
      (match getProjectionId (common p) event with
       | Ok i => String.eqb i id
       | Throw _ => false
       end = true /\
       exists newState,
         applied State EventType p id d event =
           Some {| data := newState;
                   _version := match d with
                               | Some old => _version old + 1
                               | None => 0
                               end |})).
    { unfold applied.
      destruct (getProjectionId (common p) event) as [i|e]; [|now left].
      destruct (String.eqb i id); [|now left].
      right. split; [reflexivity|].
      assert (Hcur : exists current, currentState State EventType p d = Ok current).
      { unfold currentState. destruct d; [eauto|].
        destruct (getInitialState (common p)) as [init|] eqn:E; [|eauto].
        destruct (Hinit init eq_refl) as (s & ->). cbn. eauto. }
      destruct Hcur as (current & ->).
      destruct (Hev current event (or_introl eq_refl)) as (newState & ->).
      eauto. }
    assert (Hcons : forall d0,
               replay State EventType p id (event :: rest) d0 =
               replay State EventType p id rest (applied State EventType p id d0 event))
      by reflexivity.
    destruct Hcase as [[E1 E2] | [E1 (newState & E2)]]; rewrite E1.
    + specialize (IH d). destruct d as [old|]; rewrite Hcons, E2; exact IH.
    + cbn [List.length]. rewrite Nat2Z.inj_succ.
      destruct d as [old|]; rewrite Hcons, E2;
        match goal with
        | |- context [replay _ _ _ _ _ (Some ?x)] => specialize (IH (Some x))
        end;
        cbv beta iota in IH; revert IH;
        (destruct (replay State EventType p id rest _) as [new|]; intros IH;
         [|destruct IH]);
        cbn [_version] in IH; lia.
Qed.

End ProjectionVersions.

(** X17. The version of a projection's row counts the events applied to
    it. After an [updateProjection] in which the payloads parse, the
    callbacks return and the statements succeed, a row that existed has
    its version raised by the number of events of its key in the
    transaction; a row the transaction creates has that number minus
    1; a key without events has the row it had, or none. *)
Theorem projection_version_counts_events (State EventType : Type)
  (sqlOk : nat -> bool) (parse : string -> option EventType)
  (p : Projections.HermesProjection State EventType)
  (transaction : Pg.Transaction) (t : Projections.Table State)
  (events : list EventType) (id : string)
  (Hparse : Projections.parseAll EventType parse
              (map Pg.payload
                 (Projections.handled State EventType p (Pg.results transaction)))
            = Ok events)
  (Hsql : forall n, sqlOk n = true)
  (Hid : forall event, In event events ->
           exists i, Projections.getProjectionId (Projections.common p) event = Ok i)
  (Hevolve : forall current event, In event events ->
           exists newState,
             Projections.evolve (Projections.common p) current event = Ok newState)
  (Hinit : forall init,
           Projections.getInitialState (Projections.common p) = Some init ->
           exists s, init tt = Ok s) :
  let t' := snd (Projections.updateProjection State EventType sqlOk parse p transaction t) in
  let n := Z.of_nat (List.length (eventsOf State EventType p id events)) in
  match Projections.lookupDoc State id (Projections.docs t),
        Projections.lookupDoc State id (Projections.docs t') with
  | Some old, Some new => Projections._version new = Projections._version old + n
  | None, Some new => 0 < n /\ Projections._version new = n - 1
  | None, None => n = 0
  | Some _, None => False
  end.
Proof.
  intros t' n. subst t'. unfold Projections.updateProjection. rewrite Hparse.
  pose proof (updateEach_returns State EventType sqlOk p events Hsql Hid Hevolve Hinit t)
    as Hok.
  destruct (updateEach_prefix State EventType sqlOk p events t)
    as (k & Hk & Hrep & _ & Hfull & _).
  destruct (Hfull tt Hok) as [-> _].
  rewrite firstn_all in Hrep. rewrite Hrep.
  pose proof (replay_version State EventType p id events Hevolve Hinit
                (Projections.lookupDoc State id (Projections.docs t))) as H.
  cbv zeta in H. revert H.
  destruct (Projections.lookupDoc State id (Projections.docs t)); intros H; exact H.
Qed.

Lemma projection_version_counts_events_witness :
  match Projections.lookupDoc Z "k1"
          (Projections.docs
             (snd (Projections.updateProjection Z string (fun _ => true) Some
                     countingProjection countedTwice
                     {| Projections.docs :=
                          [("k1"%string,
                            {| Projections.data := 5; Projections._version := 3 |})];
                        Projections.statements := 0 |}))) with
  | Some new => Projections._version new = 5
  | None => False
  end.
Proof.
  pose proof (projection_version_counts_events Z string (fun _ => true) Some
                countingProjection countedTwice
                {| Projections.docs :=
                     [("k1"%string,
                       {| Projections.data := 5; Projections._version := 3 |})];
                   Projections.statements := 0 |}
                ["k1"; "k1"]%string "k1") as H.
  cbv zeta in H.
  assert (H' := H eq_refl (fun _ => eq_refl)
                  (fun event _ => ex_intro _ event eq_refl)
                  (fun current event _ => ex_intro _ _ eq_refl)
                  (fun init E => match E in _ = x return
                                   match x with Some _ => _ | None => True end
                                 with eq_refl => I end)).
  exact H'.
Defined.

(** * Durations *)

